(** * The WinFsp meta cache (src/sys/meta.c)

    A shallow embedding of the kernel-mode meta cache: a bounded,
    time-expiring, reference-counted store of opaque blobs keyed by a
    64-bit index.

    Conventions.
    - Target ABI is x64 Windows (LLP64): [ULONG] and [LONG] are 32 bits,
      [UINT64] and [SIZE_T] are 64 bits, [MEMORY_ALLOCATION_ALIGNMENT] is 16.
      Machine integers are [Z] with the wrap-around written out.
    - Pointers are [Z] addresses, [0] is the null pointer.  Pool memory is a
      finite map from block base addresses to typed blocks.
    - The intrusive links ([ListEntry], [DictNext]) are represented by the
      sequences they thread: [ItemList] is the list from [Flink] of the head
      to the tail, a bucket is the chain from its head along [DictNext].
    - The pool allocator and [KeQueryInterruptTime] are external: their
      results are inputs of the functions that call them.
    - A function returns [None] where the C code has undefined behaviour
      (access through a pointer that is not a live block of the expected
      type, division by zero, freeing a block that is not allocated).
    - [FSP_META_CACHE] is declared in sys/driver.h; its fields are taken as
      meta.c uses them.  The release build is modelled ([DBG] is 0).
    - The spin lock shows as events of the trace.  [MetaCacheAddItem] is cut
      at the point where it takes the lock, into [MetaCacheAddItem_prepare]
      and [MetaCacheAddItem_insert], so that two calls that overlap can be
      written down. *)

From stdpp Require Import gmap list sorting.
From Stdlib Require Import ZArith Lia.
From Stdlib.Strings Require Import Byte.

Local Open Scope Z_scope.

(** ** Machine integers *)

Definition UINT64_MAX : Z := 2 ^ 64 - 1.
Definition ULONG_MAX : Z := 2 ^ 32 - 1.
Definition LONG_MAX : Z := 2 ^ 31 - 1.

Definition to_UINT64 (z : Z) : Z := z mod 2 ^ 64.
Definition to_SIZE_T (z : Z) : Z := z mod 2 ^ 64.
Definition to_ULONG (z : Z) : Z := z mod 2 ^ 32.
Definition to_LONG (z : Z) : Z := (z + 2 ^ 31) mod 2 ^ 32 - 2 ^ 31.

Definition is_UINT64 (z : Z) : Prop := 0 ≤ z ≤ UINT64_MAX.
Definition is_ULONG (z : Z) : Prop := 0 ≤ z ≤ ULONG_MAX.
Definition is_INT64 (z : Z) : Prop := - 2 ^ 63 ≤ z < 2 ^ 63.

Definition PAGE_SIZE : Z := 4096.

(** ** Data structures *)

(** [FSP_META_CACHE_ITEM]; [ListEntry] and [DictNext] live in the sequences
    of the cache. *)
Record FSP_META_CACHE_ITEM := mkItem {
  ItemBuffer : Z;
  ItemIndex : Z;
  ExpirationTime : Z;
  RefCount : Z
}.

(** [FSP_META_CACHE_ITEM_BUFFER]: the header fields and the flexible array. *)
Record FSP_META_CACHE_ITEM_BUFFER := mkItemBuffer {
  Item : Z;
  Size : Z;
  Buffer : list byte
}.

(** [sizeof (FSP_META_CACHE_ITEM_BUFFER)]: an 8-byte pointer, a 4-byte
    [ULONG], and [Buffer] aligned at 16. *)
Definition sizeof_ITEM_BUFFER : Z := 16.
(** [sizeof (FSP_META_CACHE_ITEM)]: a [LIST_ENTRY] of 16 bytes, two pointers
    and two [UINT64] of 8 bytes each, and a [LONG] padded to 8. *)
Definition sizeof_ITEM : Z := 56.

(** [FSP_META_CACHE]; [MetaItemIndex] is the field [MetaCache->ItemIndex]
    (renamed: the item record has a field of the same name). *)
Record FSP_META_CACHE := mkCache {
  MetaCapacity : Z;
  ItemSizeMax : Z;
  MetaTimeout : Z;
  MetaItemIndex : Z;
  ItemList : list Z;
  ItemCount : Z;
  ItemBucketCount : Z;
  ItemBuckets : list (list Z)
}.

(** Pool blocks.  [BRaw] is a block that was allocated and not yet
    initialised. *)
Inductive block :=
| BRaw
| BItem (it : FSP_META_CACHE_ITEM)
| BBuffer (b : FSP_META_CACHE_ITEM_BUFFER).

(** What the environment can observe of a run. *)
Inductive event :=
| EvAllocNonPaged (size result : Z)
| EvAlloc (size result : Z)
| EvFree (p : Z)
| EvAcquireSpinLock
| EvReleaseSpinLock.

Record state := mkState {
  MetaCache : FSP_META_CACHE;
  Pool : gmap Z block;
  Trace : list event
}.

Definition set_cache (c : FSP_META_CACHE) (s : state) : state :=
  mkState c (Pool s) (Trace s).
Definition set_pool (h : gmap Z block) (s : state) : state :=
  mkState (MetaCache s) h (Trace s).
Definition emit (e : event) (s : state) : state :=
  mkState (MetaCache s) (Pool s) (Trace s ++ [e]).

(** ** Memory access *)

Definition load_item (s : state) (p : Z) : option FSP_META_CACHE_ITEM :=
  match Pool s !! p with
  | Some (BItem it) => Some it
  | _ => None
  end.

Definition load_buffer (s : state) (p : Z) : option FSP_META_CACHE_ITEM_BUFFER :=
  match Pool s !! p with
  | Some (BBuffer b) => Some b
  | _ => None
  end.

(** A store through [p] needs [p] to be a live block. *)
Definition store (p : Z) (v : block) (s : state) : option state :=
  match Pool s !! p with
  | Some _ => Some (set_pool (<[p := v]> (Pool s)) s)
  | None => None
  end.

(** [FspAllocNonPaged] and [FspAlloc]: [result] is what the allocator
    answers, [0] when it fails. *)
Definition FspAllocNonPaged (size result : Z) (s : state) : state :=
  let s := emit (EvAllocNonPaged size result) s in
  if decide (result = 0) then s else set_pool (<[result := BRaw]> (Pool s)) s.

Definition FspAlloc (size result : Z) (s : state) : state :=
  let s := emit (EvAlloc size result) s in
  if decide (result = 0) then s else set_pool (<[result := BRaw]> (Pool s)) s.

Definition FspFree (p : Z) (s : state) : option state :=
  match Pool s !! p with
  | Some _ => Some (emit (EvFree p) (set_pool (delete p (Pool s)) s))
  | None => None
  end.

Definition KeAcquireSpinLock (s : state) : state := emit EvAcquireSpinLock s.
Definition KeReleaseSpinLock (s : state) : state := emit EvReleaseSpinLock s.

(** ** meta.c *)

(** [MetaCacheDereferenceItem], lines 26-36. *)
Definition MetaCacheDereferenceItem (Item : Z) (s : state) : option state :=
  it ← load_item s Item;
  let RefCount' := to_LONG (RefCount it - 1) in
  s ← store Item (BItem (mkItem (ItemBuffer it) (ItemIndex it) (ExpirationTime it) RefCount')) s;
  if decide (0 = RefCount') then
    s ← FspFree (ItemBuffer it) s;
    FspFree Item s
  else Some s.

(** [MetaCacheCreate], lines 38-61.  [sizeof_MetaCache] is
    [sizeof (FSP_META_CACHE)], [alloc] the answer of the allocator; the
    result is the status and the fresh cache.  An [NTSTATUS] is a [LONG]:
    [STATUS_INSUFFICIENT_RESOURCES] is [((NTSTATUS)0xC000009AL)], a
    negative number. *)
Definition STATUS_SUCCESS : Z := 0.
Definition STATUS_INSUFFICIENT_RESOURCES : Z := to_LONG 0xC000009A.

Definition MetaCacheCreate (sizeof_MetaCache : Z)
    (MetaCapacity' ItemSizeMax' MetaTimeout_QuadPart : Z) (alloc : Z)
    : Z * option FSP_META_CACHE :=
  let BucketCount := to_ULONG (to_SIZE_T (PAGE_SIZE - sizeof_MetaCache) / 8) in
  if decide (0 = alloc) then (STATUS_INSUFFICIENT_RESOURCES, None)
  else
    (STATUS_SUCCESS,
     Some (mkCache MetaCapacity' ItemSizeMax' (to_UINT64 MetaTimeout_QuadPart)
             0 [] 0 BucketCount (replicate (Z.to_nat BucketCount) []))).

(** Removal of the first occurrence of a pointer from a chain or from the
    list: the [*P == Item] loop of lines 88-94, and [RemoveEntryList]. *)
Fixpoint unlink (Item : Z) (l : list Z) : list Z :=
  match l with
  | [] => []
  | P :: rest => if decide (P = Item) then rest else P :: unlink Item rest
  end.

(** [ItemIndex % MetaCache->ItemBucketCount], stored in a [ULONG]. *)
Definition hash_index (c : FSP_META_CACHE) (ItemIndex' : Z) : option Z :=
  if decide (ItemBucketCount c = 0) then None
  else Some (to_ULONG (ItemIndex' mod ItemBucketCount c)).

Definition bucket (c : FSP_META_CACHE) (HashIndex : Z) : option (list Z) :=
  ItemBuckets c !! Z.to_nat HashIndex.

Definition set_bucket (HashIndex : Z) (chain : list Z) (c : FSP_META_CACHE)
    : FSP_META_CACHE :=
  mkCache (MetaCapacity c) (ItemSizeMax c) (MetaTimeout c) (MetaItemIndex c)
    (ItemList c) (ItemCount c) (ItemBucketCount c)
    (<[Z.to_nat HashIndex := chain]> (ItemBuckets c)).

Definition set_list (l : list Z) (count : Z) (c : FSP_META_CACHE)
    : FSP_META_CACHE :=
  mkCache (MetaCapacity c) (ItemSizeMax c) (MetaTimeout c) (MetaItemIndex c)
    l count (ItemBucketCount c) (ItemBuckets c).

Definition set_index (ItemIndex' : Z) (c : FSP_META_CACHE) : FSP_META_CACHE :=
  mkCache (MetaCapacity c) (ItemSizeMax c) (MetaTimeout c) ItemIndex'
    (ItemList c) (ItemCount c) (ItemBucketCount c) (ItemBuckets c).

(** One pass of the loop of [MetaCacheInvalidateItems], lines 78-106: the
    state after the pass, and whether the loop goes on. *)
Definition MetaCacheInvalidateItems_pass (ExpirationTime' : Z) (s : state)
    : option (state * bool) :=
  let s := KeAcquireSpinLock s in
  match ItemList (MetaCache s) with
  | [] => Some (KeReleaseSpinLock s, false)
  | Item :: _ =>
      it ← load_item s Item;
      if decide (ExpirationTime it ≤ ExpirationTime') then
        HashIndex ← hash_index (MetaCache s) (ItemIndex it);
        chain ← bucket (MetaCache s) HashIndex;
        let c := set_bucket HashIndex (unlink Item chain) (MetaCache s) in
        let c := set_list (unlink Item (ItemList c)) (to_ULONG (ItemCount c - 1)) c in
        let s := KeReleaseSpinLock (set_cache c s) in
        s ← MetaCacheDereferenceItem Item s;
        Some (s, true)
      else Some (KeReleaseSpinLock s, false)
  end.

(** The [for (;;)] loop, with a bound on the number of passes. *)
Fixpoint MetaCacheInvalidateItems_loop (fuel : nat) (ExpirationTime' : Z)
    (s : state) : option state :=
  match fuel with
  | O => None
  | S fuel =>
      '(s, again) ← MetaCacheInvalidateItems_pass ExpirationTime' s;
      if again : bool then MetaCacheInvalidateItems_loop fuel ExpirationTime' s
      else Some s
  end.

(** [MetaCacheInvalidateItems], lines 69-108.  Every pass but the last
    removes the head of the list, so one pass more than the list has items
    is enough (see [MetaCacheInvalidateItems_loop_fuel]). *)
Definition MetaCacheInvalidateItems (ExpirationTime' : Z) (s : state)
    : option state :=
  MetaCacheInvalidateItems_loop (S (length (ItemList (MetaCache s))))
    ExpirationTime' s.

(** [MetaCacheInvalidateAll], lines 110-113; [(UINT64)-1LL]. *)
Definition MetaCacheInvalidateAll (s : state) : option state :=
  MetaCacheInvalidateItems (to_UINT64 (-1)) s.

(** [MetaCacheDelete], lines 63-67.  The header page is not a block of
    [Pool]; its release shows in the trace only.  [MetaCache'] is the
    pointer to the header. *)
Definition MetaCacheDelete (MetaCache' : Z) (s : state) : option state :=
  s ← MetaCacheInvalidateAll s;
  Some (emit (EvFree MetaCache') s).

(** [MetaCacheInvalidateExpired], lines 115-118; [now] is
    [KeQueryInterruptTime ()]. *)
Definition MetaCacheInvalidateExpired (now : Z) (s : state) : option state :=
  MetaCacheInvalidateItems now s.

(** The lookup loop of lines 129-135 and 228-229: the first item of the
    chain with the index. *)
Fixpoint bucket_find (s : state) (ItemIndex' : Z) (chain : list Z)
    : option (option Z) :=
  match chain with
  | [] => Some None
  | ItemX :: rest =>
      it ← load_item s ItemX;
      if decide (ItemIndex it = ItemIndex') then Some (Some ItemX)
      else bucket_find s ItemIndex' rest
  end.

(** What [MetaCacheReferenceItemBuffer] gives back: the returned pointer and
    the store through [PSize], if one was made. *)
Record reference_result := mkReferenceResult {
  ref_return : Z;
  ref_PSize_store : option Z
}.

(** [MetaCacheReferenceItemBuffer], lines 120-149. *)
Definition MetaCacheReferenceItemBuffer (ItemIndex' : Z) (PSize : Z)
    (s : state) : option (state * reference_result) :=
  let s := KeAcquireSpinLock s in
  HashIndex ← hash_index (MetaCache s) ItemIndex';
  chain ← bucket (MetaCache s) HashIndex;
  found ← bucket_find s ItemIndex' chain;
  s ← match found with
      | Some Item =>
          it ← load_item s Item;
          store Item (BItem (mkItem (ItemBuffer it) (ItemIndex it)
                               (ExpirationTime it) (to_LONG (RefCount it + 1)))) s
      | None => Some s
      end;
  let Item := default 0 found in
  let s := KeReleaseSpinLock s in
  if decide (0 = Item) then
    Some (s, mkReferenceResult 0 (if decide (0 ≠ PSize) then Some 0 else None))
  else
    it ← load_item s Item;
    b ← load_buffer s (ItemBuffer it);
    Some (s, mkReferenceResult (ItemBuffer it + sizeof_ITEM_BUFFER)
               (if decide (0 ≠ PSize) then Some (Size b) else None)).

(** [MetaCacheDereferenceItemBuffer], lines 151-155. *)
Definition MetaCacheDereferenceItemBuffer (Buffer' : Z) (s : state)
    : option state :=
  b ← load_buffer s (Buffer' - sizeof_ITEM_BUFFER);
  MetaCacheDereferenceItem (Item b) s.

(** The inputs of one call of [MetaCacheAddItem]: the bytes at [Buffer], the
    [Size] argument, the answers of the two allocations and of
    [KeQueryInterruptTime]. *)
Record add_args := mkAddArgs {
  add_Buffer : list byte;
  add_Size : Z;
  add_alloc_Item : Z;
  add_alloc_ItemBuffer : Z;
  add_now : Z
}.

(** [MetaCacheAddItem] up to the spin lock, lines 166-188: [None] inside
    when the function has returned [0], the two pointers otherwise. *)
Definition MetaCacheAddItem_prepare (a : add_args) (s : state)
    : option (state * option (Z * Z)) :=
  if decide (ItemSizeMax (MetaCache s) < to_SIZE_T (sizeof_ITEM_BUFFER + add_Size a))
  then Some (s, None)
  else
    let Item := add_alloc_Item a in
    let s := FspAllocNonPaged sizeof_ITEM Item s in
    if decide (0 = Item) then Some (s, None)
    else
      let ItemBuffer := add_alloc_ItemBuffer a in
      let s := FspAlloc (to_SIZE_T (sizeof_ITEM_BUFFER + add_Size a)) ItemBuffer s in
      if decide (0 = ItemBuffer) then
        s ← FspFree Item s;
        Some (s, None)
      else
        s ← store Item (BItem (mkItem ItemBuffer 0
                                 (to_UINT64 (add_now a + MetaTimeout (MetaCache s))) 1)) s;
        if decide (add_Size a ≤ Z.of_nat (length (add_Buffer a))) then
          s ← store ItemBuffer
                (BBuffer (mkItemBuffer Item (add_Size a)
                            (take (Z.to_nat (add_Size a)) (add_Buffer a)))) s;
          Some (s, Some (Item, ItemBuffer))
        else None.

(** [MetaCacheAddItem] from the spin lock on, lines 190-217. *)
Definition MetaCacheAddItem_insert (Item' ItemBuffer' : Z) (s : state)
    : option (state * Z) :=
  let s := KeAcquireSpinLock s in
  let HasCapacity := bool_decide (ItemCount (MetaCache s) < MetaCapacity (MetaCache s)) in
  if HasCapacity then
    let ItemIndex' := MetaItemIndex (MetaCache s) in
    let ItemIndex' :=
      if decide (to_UINT64 (-1) = ItemIndex') then 1 else to_UINT64 (ItemIndex' + 1) in
    let c := set_index ItemIndex' (MetaCache s) in
    it ← load_item s Item';
    s ← store Item' (BItem (mkItem (ItemBuffer it) ItemIndex' (ExpirationTime it)
                             (RefCount it))) s;
    let c := set_list (ItemList c ++ [Item']) (to_ULONG (ItemCount c + 1)) c in
    HashIndex ← hash_index c ItemIndex';
    chain ← bucket c HashIndex;
    let c := set_bucket HashIndex (Item' :: chain) c in
    let s := KeReleaseSpinLock (set_cache c s) in
    Some (s, ItemIndex')
  else
    let s := KeReleaseSpinLock s in
    s ← FspFree ItemBuffer' s;
    s ← FspFree Item' s;
    Some (s, 0).

(** [MetaCacheAddItem], lines 157-218. *)
Definition MetaCacheAddItem (a : add_args) (s : state) : option (state * Z) :=
  '(s, allocated) ← MetaCacheAddItem_prepare a s;
  match allocated with
  | None => Some (s, 0)
  | Some (Item, ItemBuffer) => MetaCacheAddItem_insert Item ItemBuffer s
  end.

(** The loop of the debug build, lines 202-205, that [MetaCacheAddItem]
    runs under the lock before it links the item: whether each
    [ASSERT (ItemX->ItemIndex != ItemIndex)] of the chain holds. *)
Fixpoint MetaCacheAddItem_ASSERT (s : state) (ItemIndex' : Z) (chain : list Z)
    : option bool :=
  match chain with
  | [] => Some true
  | ItemX :: rest =>
      it ← load_item s ItemX;
      if decide (ItemIndex it ≠ ItemIndex') then
        MetaCacheAddItem_ASSERT s ItemIndex' rest
      else Some false
  end.

(** [MetaCacheInvalidateItem], lines 220-241. *)
Definition MetaCacheInvalidateItem (ItemIndex' : Z) (s : state) : option state :=
  let s := KeAcquireSpinLock s in
  HashIndex ← hash_index (MetaCache s) ItemIndex';
  chain ← bucket (MetaCache s) HashIndex;
  found ← bucket_find s ItemIndex' chain;
  match found with
  | Some Item =>
      let c := set_bucket HashIndex (unlink Item chain) (MetaCache s) in
      let c := set_list (unlink Item (ItemList c)) (to_ULONG (ItemCount c - 1)) c in
      let s := KeReleaseSpinLock (set_cache c s) in
      if decide (0 ≠ Item) then MetaCacheDereferenceItem Item s else Some s
  | None => Some (KeReleaseSpinLock s)
  end.

(** ** Callers

    The cache together with what its callers hold.  [borrowed] records the
    payload pointers that [MetaCacheReferenceItemBuffer] has handed out and
    that were not yet given back to [MetaCacheDereferenceItemBuffer];
    [clock] is the last answer of the tick source.  Both are ghost state:
    no function of meta.c reads them. *)

Record world := mkWorld {
  st : state;
  borrowed : list Z;
  clock : Z
}.

(** The public operations, under the names of the specification. *)
Inductive call :=
| Add (a : add_args)                   (* MetaCacheAddItem *)
| Borrow (ItemIndex' PSize : Z)        (* MetaCacheReferenceItemBuffer *)
| Return (Buffer' : Z)                 (* MetaCacheDereferenceItemBuffer *)
| Invalidate (ItemIndex' : Z)          (* MetaCacheInvalidateItem *)
| InvalidateExpired (now : Z)          (* MetaCacheInvalidateExpired *)
| InvalidateAll.                       (* MetaCacheInvalidateAll *)

Inductive retval :=
| RetVoid
| RetIndex (ItemIndex' : Z)
| RetReference (r : reference_result).

(** One call, run to its end before the next one starts. *)
Definition exec (c : call) (w : world) : option (world * retval) :=
  match c with
  | Add a =>
      '(s, h) ← MetaCacheAddItem a (st w);
      Some (mkWorld s (borrowed w) (add_now a), RetIndex h)
  | Borrow i PSize =>
      '(s, r) ← MetaCacheReferenceItemBuffer i PSize (st w);
      Some (mkWorld s
              (if decide (ref_return r = 0) then borrowed w
               else ref_return r :: borrowed w)
              (clock w), RetReference r)
  | Return p =>
      s ← MetaCacheDereferenceItemBuffer p (st w);
      Some (mkWorld s (unlink p (borrowed w)) (clock w), RetVoid)
  | Invalidate i =>
      s ← MetaCacheInvalidateItem i (st w);
      Some (mkWorld s (borrowed w) (clock w), RetVoid)
  | InvalidateExpired now =>
      s ← MetaCacheInvalidateExpired now (st w);
      Some (mkWorld s (borrowed w) now, RetVoid)
  | InvalidateAll =>
      s ← MetaCacheInvalidateAll (st w);
      Some (mkWorld s (borrowed w) (clock w), RetVoid)
  end.

(** An answer of the allocator: null, or the address of a block that is
    not in use. *)
Definition fresh (h : gmap Z block) (p : Z) : Prop :=
  p = 0 ∨ (0 < p ∧ h !! p = None).

(** What the environment owes a call: arguments of the C types, a caller
    buffer of at least [Size] bytes, an allocator that answers with unused
    blocks, a tick source that never goes back, [Return] only of a pointer
    that is borrowed, and fewer outstanding borrows than a [LONG] counts. *)
Definition admissible (w : world) (c : call) : Prop :=
  match c with
  | Add a =>
      is_ULONG (add_Size a) ∧
      add_Size a ≤ Z.of_nat (length (add_Buffer a)) ∧
      fresh (Pool (st w)) (add_alloc_Item a) ∧
      fresh (Pool (st w)) (add_alloc_ItemBuffer a) ∧
      (add_alloc_Item a ≠ 0 → add_alloc_ItemBuffer a ≠ add_alloc_Item a) ∧
      is_UINT64 (add_now a) ∧ clock w ≤ add_now a
  | Borrow i PSize =>
      is_UINT64 i ∧ Z.of_nat (length (borrowed w)) < LONG_MAX - 1
  | Return p => p ∈ borrowed w
  | Invalidate i => is_UINT64 i
  | InvalidateExpired now => is_UINT64 now ∧ clock w ≤ now
  | InvalidateAll => True
  end.

(** The parameters of [MetaCacheCreate]: [ULONG]s, a [LARGE_INTEGER], and a
    cache header that leaves room for a bucket in the page. *)
Definition admissible_create (sizeof_MetaCache cap max tmo : Z) : Prop :=
  0 ≤ sizeof_MetaCache ≤ PAGE_SIZE - 8 ∧
  is_ULONG cap ∧ is_ULONG max ∧ is_INT64 tmo.

Definition create (sizeof_MetaCache cap max tmo alloc : Z) : option world :=
  c ← (MetaCacheCreate sizeof_MetaCache cap max tmo alloc).2;
  Some (mkWorld (mkState c ∅ []) [] 0).

(** The states of the cache that calls lead to, each call admissible and
    satisfying [P] besides. *)
Inductive reachable_under (P : world → call → Prop) : world → Prop :=
| reachable_create sizeof_MetaCache cap max tmo alloc w :
    admissible_create sizeof_MetaCache cap max tmo →
    create sizeof_MetaCache cap max tmo alloc = Some w →
    reachable_under P w
| reachable_exec w c w' r :
    reachable_under P w →
    admissible w c → P w c →
    exec c w = Some (w', r) →
    reachable_under P w'.

Definition reachable : world → Prop := reachable_under (λ _ _, True).

(** ** The invariant of the cache *)

(** The reference the cache itself holds on an item that is in its list. *)
Definition resident (c : FSP_META_CACHE) (p : Z) : Z :=
  if decide (p ∈ ItemList c) then 1 else 0.

(** How many times a payload pointer is borrowed. *)
Fixpoint outstanding (q : Z) (bs : list Z) : Z :=
  match bs with
  | [] => 0
  | b :: bs => (if decide (b = q) then 1 else 0) + outstanding q bs
  end.

Record wf (w : world) : Prop := mkWf {
  wf_capacity : is_ULONG (MetaCapacity (MetaCache (st w)));
  wf_index : is_UINT64 (MetaItemIndex (MetaCache (st w)));
  wf_timeout : is_UINT64 (MetaTimeout (MetaCache (st w)));
  wf_bucket_count :
    0 < ItemBucketCount (MetaCache (st w)) ≤ ULONG_MAX ∧
    length (ItemBuckets (MetaCache (st w))) =
      Z.to_nat (ItemBucketCount (MetaCache (st w)));
  wf_count :
    ItemCount (MetaCache (st w)) = Z.of_nat (length (ItemList (MetaCache (st w)))) ∧
    ItemCount (MetaCache (st w)) ≤ MetaCapacity (MetaCache (st w));
  wf_nodup : NoDup (ItemList (MetaCache (st w)));
  wf_buckets : concat (ItemBuckets (MetaCache (st w))) ≡ₚ ItemList (MetaCache (st w));
  wf_chain : ∀ (i : nat) chain p,
    ItemBuckets (MetaCache (st w)) !! i = Some chain → p ∈ chain →
    ∃ it, load_item (st w) p = Some it ∧
          ItemIndex it mod ItemBucketCount (MetaCache (st w)) = Z.of_nat i;
  wf_address : ∀ p, is_Some (Pool (st w) !! p) → 0 < p;
  wf_raw : ∀ p, Pool (st w) !! p ≠ Some BRaw;
  wf_item : ∀ p it, load_item (st w) p = Some it →
    (∃ b, load_buffer (st w) (ItemBuffer it) = Some b ∧ Item b = p) ∧
    is_UINT64 (ItemIndex it) ∧ is_UINT64 (ExpirationTime it) ∧
    RefCount it = resident (MetaCache (st w)) p +
                  outstanding (ItemBuffer it + sizeof_ITEM_BUFFER) (borrowed w) ∧
    0 < RefCount it;
  wf_buffer : ∀ q b, load_buffer (st w) q = Some b →
    (∃ it, load_item (st w) (Item b) = Some it ∧ ItemBuffer it = q) ∧
    Size b = Z.of_nat (length (Buffer b)) ∧ is_ULONG (Size b);
  wf_borrowed : ∀ q, q ∈ borrowed w →
    is_Some (load_buffer (st w) (q - sizeof_ITEM_BUFFER));
  wf_borrows : Z.of_nat (length (borrowed w)) ≤ LONG_MAX - 1
}.

(** * Derived definitions

    The states that the functions lead to, in closed form, and the
    vocabulary of the properties.  The lemmas and theorems follow. *)

(** The pool after the reference count of the item at [p] went down by
    one. *)
Definition released (p : Z) (it : FSP_META_CACHE_ITEM) (h : gmap Z block)
    : gmap Z block :=
  if decide (RefCount it = 1) then delete p (delete (ItemBuffer it) h)
  else <[p := BItem (mkItem (ItemBuffer it) (ItemIndex it) (ExpirationTime it)
                       (RefCount it - 1))]> h.

(** The state after the item at [p], found in [chain], left the cache:
    lines 87-96 and 106, and lines 231-240. *)
Definition evicted (p : Z) (it : FSP_META_CACHE_ITEM) (chain : list Z)
    (s : state) : state :=
  let c := MetaCache s in
  mkState
    (mkCache (MetaCapacity c) (ItemSizeMax c) (MetaTimeout c) (MetaItemIndex c)
       (unlink p (ItemList c)) (ItemCount c - 1) (ItemBucketCount c)
       (<[Z.to_nat (ItemIndex it mod ItemBucketCount c) := unlink p chain]>
          (ItemBuckets c)))
    (released p it (Pool s))
    (Trace s ++ [EvAcquireSpinLock; EvReleaseSpinLock] ++
       if decide (RefCount it = 1) then [EvFree (ItemBuffer it); EvFree p] else []).

(** [MetaItemIndex] after the allocation of an index, lines 194-196. *)
Definition next_index (ItemIndex' : Z) : Z :=
  if decide (to_UINT64 (-1) = ItemIndex') then 1 else to_UINT64 (ItemIndex' + 1).

(** The state after [MetaCacheAddItem] has inserted the item at [p] with its
    buffer at [q]. *)
Definition added (p q : Z) (data : list byte) (exp : Z) (chain : list Z)
    (events : list event) (s : state) : state :=
  let c := MetaCache s in
  let i := next_index (MetaItemIndex c) in
  mkState
    (mkCache (MetaCapacity c) (ItemSizeMax c) (MetaTimeout c) i
       (ItemList c ++ [p]) (ItemCount c + 1) (ItemBucketCount c)
       (<[Z.to_nat (i mod ItemBucketCount c) := p :: chain]> (ItemBuckets c)))
    (<[p := BItem (mkItem q i exp 1)]>
       (<[q := BBuffer (mkItemBuffer p (Z.of_nat (length data)) data)]> (Pool s)))
    (Trace s ++ events).

(** From pool [h] to pool [h']: an item and its buffer are both gone, or
    both still there, the item changed in its reference count at most and
    the buffer not at all. *)
Definition survives (h h' : gmap Z block) : Prop :=
  ∀ p it b,
    h !! p = Some (BItem it) → h !! ItemBuffer it = Some (BBuffer b) →
    (h' !! p = None ∧ h' !! ItemBuffer it = None) ∨
    (∃ rc, h' !! p = Some (BItem (mkItem (ItemBuffer it) (ItemIndex it)
                                   (ExpirationTime it) rc)) ∧
           h' !! ItemBuffer it = Some (BBuffer b)).

(** No block of [h'] is new. *)
Definition no_alloc (h h' : gmap Z block) : Prop :=
  ∀ x, h !! x = None → h' !! x = None.

(** What a run of the loop leaves of the state it started in. *)
Record swept (t : Z) (s s' : state) : Prop := mkSwept {
  swept_capacity : MetaCapacity (MetaCache s') = MetaCapacity (MetaCache s);
  swept_size : ItemSizeMax (MetaCache s') = ItemSizeMax (MetaCache s);
  swept_timeout : MetaTimeout (MetaCache s') = MetaTimeout (MetaCache s);
  swept_index : MetaItemIndex (MetaCache s') = MetaItemIndex (MetaCache s);
  swept_list : ∃ k, ItemList (MetaCache s') = drop k (ItemList (MetaCache s));
  swept_survives : survives (Pool s) (Pool s');
  swept_no_alloc : no_alloc (Pool s) (Pool s');
  swept_head :
    match ItemList (MetaCache s') with
    | [] => True
    | p :: _ => ∃ it, load_item s' p = Some it ∧ t < ExpirationTime it
    end
}.

(** The state after a hit on the item at [p]. *)
Definition referenced (p : Z) (it : FSP_META_CACHE_ITEM) (s : state) : state :=
  mkState (MetaCache s)
    (<[p := BItem (mkItem (ItemBuffer it) (ItemIndex it) (ExpirationTime it)
                     (RefCount it + 1))]> (Pool s))
    (Trace s ++ [EvAcquireSpinLock; EvReleaseSpinLock]).

Definition PSize_store (PSize v : Z) : option Z :=
  if decide (0 ≠ PSize) then Some v else None.

(** The state after the borrowed pointer [q] of the item [it] was given
    back. *)
Definition returned (b : FSP_META_CACHE_ITEM_BUFFER) (it : FSP_META_CACHE_ITEM)
    (s : state) : state :=
  mkState (MetaCache s) (released (Item b) it (Pool s))
    (Trace s ++ if decide (RefCount it = 1)
                then [EvFree (ItemBuffer it); EvFree (Item b)] else []).

(** The state after a call that changed the trace only. *)
Definition traced (events : list event) (s : state) : state :=
  mkState (MetaCache s) (Pool s) (Trace s ++ events).

(** The five ways through [MetaCacheAddItem]. *)
Definition add_outcome (a : add_args) (chain : list Z) (s : state) : state * Z :=
  let c := MetaCache s in
  let p := add_alloc_Item a in
  let q := add_alloc_ItemBuffer a in
  let size := sizeof_ITEM_BUFFER + add_Size a in
  if decide (ItemSizeMax c < size) then (s, 0)
  else if decide (p = 0) then (traced [EvAllocNonPaged sizeof_ITEM 0] s, 0)
  else if decide (q = 0) then
    (traced [EvAllocNonPaged sizeof_ITEM p; EvAlloc size 0; EvFree p] s, 0)
  else if decide (ItemCount c < MetaCapacity c) then
    (added p q (take (Z.to_nat (add_Size a)) (add_Buffer a))
       (to_UINT64 (add_now a + MetaTimeout c)) chain
       [EvAllocNonPaged sizeof_ITEM p; EvAlloc size q;
        EvAcquireSpinLock; EvReleaseSpinLock] s,
     next_index (MetaItemIndex c))
  else
    (traced [EvAllocNonPaged sizeof_ITEM p; EvAlloc size q;
             EvAcquireSpinLock; EvReleaseSpinLock; EvFree q; EvFree p] s, 0).

(** What a call does to the list: an insertion that succeeds appends the
    new item, stamped with [now + MetaTimeout]; every other call takes items
    away or leaves the list alone. *)
Definition list_step (w : world) (c : call) (w' : world) (r : retval) : Prop :=
  (∃ a p it,
     c = Add a ∧ r ≠ RetIndex 0 ∧
     ItemList (MetaCache (st w')) = ItemList (MetaCache (st w)) ++ [p] ∧
     load_item (st w') p = Some it ∧
     ExpirationTime it = to_UINT64 (add_now a + MetaTimeout (MetaCache (st w)))) ∨
  (ItemList (MetaCache (st w')) `sublist_of` ItemList (MetaCache (st w)) ∧
   ∀ a, c = Add a → r = RetIndex 0).

(** A cache of the examples: [Create (capacity, max = 4096, timeout = 100)]
    with a header of 56 bytes, hence 505 buckets. *)
Definition example_world (capacity : Z) : world :=
  default (mkWorld (mkState (mkCache 0 0 0 0 [] 0 0 []) ∅ []) [] 0)
    (create 56 capacity 4096 100 4096).

Definition example_add (data : list byte) (p now : Z) : add_args :=
  mkAddArgs data (Z.of_nat (length data)) p (p + 64) now.

(** What [MetaCacheAddItem] refuses: a blob that is too large, a failed
    allocation, a full cache. *)
Definition rejected (a : add_args) (s : state) : Prop :=
  ItemSizeMax (MetaCache s) < add_Size a + sizeof_ITEM_BUFFER ∨
  add_alloc_Item a = 0 ∨
  add_alloc_ItemBuffer a = 0 ∨
  MetaCapacity (MetaCache s) ≤ ItemCount (MetaCache s).

(** The allocation of section 4.2 in the words of the specification. *)
Definition spec_next_handle (next_handle : Z) : Z :=
  if decide (next_handle = UINT64_MAX) then 1 else next_handle + 1.

(** An empty cache whose counter of indices is at its last value, as after
    [2 ^ 64 - 1] insertions. *)
Definition wrapped_world : world :=
  mkWorld (mkState (mkCache 3 4096 100 UINT64_MAX [] 0 505 (replicate 505 [])) ∅ [])
    [] 0.

(** The blob of a call: the [Size] bytes at [Buffer]. *)
Definition blob (a : add_args) : list byte :=
  take (Z.to_nat (add_Size a)) (add_Buffer a).

(** The bytes of the buffer whose payload starts at [ptr]. *)
Definition payload (s : state) (ptr : Z) : option (list byte) :=
  Buffer <$> load_buffer s (ptr - sizeof_ITEM_BUFFER).

(** The full drain in the words of the specification: the loop of the
    expiry sweep with the largest tick as its threshold. *)
Definition spec_InvalidateAll (s : state) : option state :=
  MetaCacheInvalidateExpired UINT64_MAX s.

(** [ItemCount] is the length of the list and the sum of the lengths of the
    bucket chains. *)
Definition count_matches (c : FSP_META_CACHE) : Prop :=
  ItemCount c = Z.of_nat (length (ItemList c)) ∧
  ItemCount c = Z.of_nat (sum_list (length <$> ItemBuckets c)).

(** The references on the item at [p] with its buffer at [q]: one of the
    cache while the item is in the list, and one for each borrow of its
    payload that was not returned. *)
Definition references (w : world) (p q : Z) : Z :=
  resident (MetaCache (st w)) p +
  outstanding (q + sizeof_ITEM_BUFFER) (borrowed w).

Definition freshb (h : gmap Z block) (p : Z) : bool :=
  (p =? 0) || ((0 <? p) && match h !! p with None => true | Some _ => false end).

Definition is_UINT64b (z : Z) : bool := (0 <=? z) && (z <=? UINT64_MAX).
Definition is_ULONGb (z : Z) : bool := (0 <=? z) && (z <=? ULONG_MAX).

(** [admissible], decided. *)
Definition admissibleb (w : world) (c : call) : bool :=
  match c with
  | Add a =>
      is_ULONGb (add_Size a) &&
      (add_Size a <=? Z.of_nat (length (add_Buffer a))) &&
      freshb (Pool (st w)) (add_alloc_Item a) &&
      freshb (Pool (st w)) (add_alloc_ItemBuffer a) &&
      ((add_alloc_Item a =? 0) ||
       negb (add_alloc_ItemBuffer a =? add_alloc_Item a)) &&
      is_UINT64b (add_now a) && (clock w <=? add_now a)
  | Borrow i PSize =>
      is_UINT64b i && (Z.of_nat (length (borrowed w)) <? LONG_MAX - 1)
  | Return p => bool_decide (p ∈ borrowed w)
  | Invalidate i => is_UINT64b i
  | InvalidateExpired now => is_UINT64b now && (clock w <=? now)
  | InvalidateAll => true
  end.

(** A run of calls, each admissible where it is made. *)
Fixpoint run (cs : list call) (w : world) : option world :=
  match cs with
  | [] => Some w
  | c :: cs =>
      if admissibleb w c then '(w', _) ← exec c w; run cs w' else None
  end.

(** [P] holds of each call of the run where the call is made. *)
Fixpoint run_under (P : world → call → Prop) (cs : list call) (w : world) : Prop :=
  match cs with
  | [] => True
  | c :: cs =>
      P w c ∧
      match exec c w with
      | Some (w', _) => run_under P cs w'
      | None => True
      end
  end.

(** The state of scenario S3 before the drain: one item, borrowed once. *)
Definition borrowed_world : world :=
  Eval vm_compute in
    default (example_world 3)
      (run [Add (example_add ["z"%byte] 1000 0); Borrow 1 0] (example_world 3)).

(** The same after [InvalidateAll], and then after [Return]. *)
Definition drained_world : world :=
  Eval vm_compute in
    default borrowed_world (fst <$> exec InvalidateAll borrowed_world).

Definition returned_world : world :=
  Eval vm_compute in
    default drained_world (fst <$> exec (Return 1080) drained_world).

Definition expiration (s : state) (p : Z) : Z :=
  default 0 (ExpirationTime <$> load_item s p).

(** The expiration times along [ItemList], head first. *)
Definition expirations (s : state) : list Z :=
  expiration s <$> ItemList (MetaCache s).

(** The sum of line 182 does not wrap around. *)
Definition no_wrap (w : world) (c : call) : Prop :=
  match c with
  | Add a => add_now a + MetaTimeout (MetaCache (st w)) ≤ UINT64_MAX
  | _ => True
  end.

(** The list is in ascending order of expiration, and no item expires
    later than an item inserted now would. *)
Definition timely (w : world) : Prop :=
  StronglySorted Z.le (expirations (st w)) ∧
  Forall (λ e, e ≤ clock w + MetaTimeout (MetaCache (st w))) (expirations (st w)).

(** Two insertions one after the other, at the ticks 10 and 11. *)
Definition two_items_world : world :=
  Eval vm_compute in
    default (example_world 3)
      (run [Add (example_add ["x"%byte] 1000 10);
            Add (example_add ["y"%byte] 2000 11)] (example_world 3)).

(** The events of an insertion up to the release of the lock. *)
Definition add_events (a : add_args) : list event :=
  [EvAllocNonPaged sizeof_ITEM (add_alloc_Item a);
   EvAlloc (sizeof_ITEM_BUFFER + add_Size a) (add_alloc_ItemBuffer a);
   EvAcquireSpinLock; EvReleaseSpinLock].

(** The world after an insertion that succeeded. *)
Definition inserted (a : add_args) (chain : list Z) (w : world) : world :=
  mkWorld
    (added (add_alloc_Item a) (add_alloc_ItemBuffer a) (blob a)
       (to_UINT64 (add_now a + MetaTimeout (MetaCache (st w)))) chain
       (add_events a) (st w))
    (borrowed w) (add_now a).

(** Whether a sequence of events keeps the discipline of the lock: it is
    taken only when free and released only when held, no allocation and no
    release of memory happens while it is held, and it is free at the end.
    [held] tells whether the lock is held at the start. *)
Fixpoint disciplined (held : bool) (evs : list event) : bool :=
  match evs with
  | [] => negb held
  | EvAcquireSpinLock :: evs => negb held && disciplined true evs
  | EvReleaseSpinLock :: evs => held && disciplined false evs
  | _ :: evs => negb held && disciplined held evs
  end.

(** No buffer of [h'] is new or changed. *)
Definition buffers_from (h h' : gmap Z block) : Prop :=
  ∀ q b, h' !! q = Some (BBuffer b) → h !! q = Some (BBuffer b).

(** What the loop of [MetaCacheInvalidateItems] took away, besides
    [swept]: the items of a prefix of the list, each of them expired; what
    it wrote to the trace; and the buffers it left. *)
Record swept_prefix (t : Z) (s s' : state) : Prop := mkSweptPrefix {
  swept_expired : ∃ k : nat,
    ItemList (MetaCache s') = drop k (ItemList (MetaCache s)) ∧
    Forall (λ p, expiration s p ≤ t) (take k (ItemList (MetaCache s)));
  swept_trace : ∃ evs,
    Trace s' = Trace s ++ evs ∧ disciplined false evs = true;
  swept_buffers : buffers_from (Pool s) (Pool s');
  swept_buckets : ItemBucketCount (MetaCache s') = ItemBucketCount (MetaCache s)
}.

(** What a call leaves alone: the tuning parameters; what it writes to the
    trace; and where the buffers of the pool come from. *)
Record call_frame (w : world) (c : call) (w' : world) : Prop := mkCallFrame {
  frame_capacity :
    MetaCapacity (MetaCache (st w')) = MetaCapacity (MetaCache (st w));
  frame_size : ItemSizeMax (MetaCache (st w')) = ItemSizeMax (MetaCache (st w));
  frame_buckets :
    ItemBucketCount (MetaCache (st w')) = ItemBucketCount (MetaCache (st w));
  frame_index :
    MetaItemIndex (MetaCache (st w')) = MetaItemIndex (MetaCache (st w)) ∨
    ∃ a, c = Add a;
  frame_trace : ∃ evs,
    Trace (st w') = Trace (st w) ++ evs ∧ disciplined false evs = true;
  frame_buffers : ∀ q b,
    Pool (st w') !! q = Some (BBuffer b) →
    Pool (st w) !! q = Some (BBuffer b) ∨
    ∃ a, c = Add a ∧ ¬ rejected a (st w) ∧ q = add_alloc_ItemBuffer a ∧
         b = mkItemBuffer (add_alloc_Item a) (Z.of_nat (length (blob a))) (blob a)
}.

(** The index of the item at [p]. *)
Definition index (s : state) (p : Z) : Z :=
  default 0 (ItemIndex <$> load_item s p).

(** The indices along [ItemList], head first. *)
Definition indices (s : state) : list Z :=
  index s <$> ItemList (MetaCache s).

(** The counter of line 195 is not at its last value: the insertion does
    not start the indices over at 1. *)
Definition no_index_wrap (w : world) (c : call) : Prop :=
  match c with
  | Add a => MetaItemIndex (MetaCache (st w)) < UINT64_MAX
  | _ => True
  end.

(** The list is in strictly ascending order of index, and every index is
    one that the counter has handed out. *)
Definition ascending (w : world) : Prop :=
  StronglySorted Z.lt (indices (st w)) ∧
  Forall (λ i, 0 < i ≤ MetaItemIndex (MetaCache (st w))) (indices (st w)).

(** A cache of one bucket, so that all items are in one chain, after two
    insertions. *)
Definition one_bucket_world : world :=
  Eval vm_compute in
    default (example_world 3)
      (w ← create 4088 3 4096 100 4096;
       run [Add (example_add ["x"%byte] 1000 10);
            Add (example_add ["y"%byte] 2000 11)] w).

(** The state of [one_bucket_world] after [MetaCacheAddItem_prepare] of a
    third item. *)
Definition third_prepared : state :=
  Eval vm_compute in
    default (st one_bucket_world)
      (fst <$> MetaCacheAddItem_prepare (example_add ["z"%byte] 3000 12)
                 (st one_bucket_world)).

(** [two_items_world] after a reference to its second item was taken. *)
Definition two_items_borrowed : world :=
  Eval vm_compute in
    default two_items_world (fst <$> exec (Borrow 2 5000) two_items_world).

(** What [MetaCacheInvalidateItems] does to the items: [k] items are taken
    from the head of the list. *)
Record sweep_result (t : Z) (k : nat) (w : world) (s' : state) : Prop := mkSweepResult {
  sweep_list : ItemList (MetaCache s') = drop k (ItemList (MetaCache (st w)));
  sweep_expired :
    Forall (λ p, expiration (st w) p ≤ t) (take k (ItemList (MetaCache (st w))));
  sweep_head :
    match drop k (ItemList (MetaCache (st w))) with
    | [] => True
    | p :: _ => t < expiration (st w) p
    end;
  sweep_kept : ∀ p,
    p ∈ drop k (ItemList (MetaCache (st w))) → load_item s' p = load_item (st w) p;
  sweep_removed : ∀ p it,
    p ∈ take k (ItemList (MetaCache (st w))) → load_item (st w) p = Some it →
    if decide (RefCount it = 1) then
      Pool s' !! p = None ∧ Pool s' !! ItemBuffer it = None
    else
      load_item s' p = Some (mkItem (ItemBuffer it) (ItemIndex it)
                               (ExpirationTime it) (RefCount it - 1)) ∧
      load_buffer s' (ItemBuffer it) = load_buffer (st w) (ItemBuffer it)
}.

(** Three insertions at the ticks 10, 11 and 300: the first two items
    expire at 110 and 111, the third at 400. *)
Definition three_items_world : world :=
  Eval vm_compute in
    default (example_world 3)
      (run [Add (example_add ["x"%byte] 1000 10);
            Add (example_add ["y"%byte] 2000 11);
            Borrow 2 0;
            Add (example_add ["z"%byte] 3000 300)] (example_world 3)).

(** [three_items_world] after the sweep at the tick 350. *)
Definition three_items_swept : world :=
  Eval vm_compute in
    default three_items_world
      (fst <$> exec (InvalidateExpired 350) three_items_world).

(** The block at [x] is the record or the buffer of an item that is in the
    list or whose payload is borrowed. *)
Definition accounted (w : world) (x : Z) : Prop :=
  ∃ p it b,
    load_item (st w) p = Some it ∧
    load_buffer (st w) (ItemBuffer it) = Some b ∧
    (x = p ∨ x = ItemBuffer it) ∧
    (p ∈ ItemList (MetaCache (st w)) ∨
     ItemBuffer it + sizeof_ITEM_BUFFER ∈ borrowed w).

(** The pointers of [bs] given back one after the other. *)
Fixpoint return_all (bs : list Z) (s : state) : option state :=
  match bs with
  | [] => Some s
  | Buffer' :: bs =>
      s ← MetaCacheDereferenceItemBuffer Buffer' s;
      return_all bs s
  end.

(** * Lemmas *)

(** ** Machine integers in range *)

Ltac in_range :=
  unfold is_ULONG, is_UINT64, is_INT64, ULONG_MAX, UINT64_MAX, LONG_MAX,
    PAGE_SIZE, sizeof_ITEM_BUFFER in *;
  simpl; lia.

Lemma to_ULONG_id z : is_ULONG z → to_ULONG z = z.
Proof. unfold is_ULONG, ULONG_MAX, to_ULONG. intros. apply Z.mod_small. lia. Qed.

Lemma to_UINT64_id z : is_UINT64 z → to_UINT64 z = z.
Proof. unfold is_UINT64, UINT64_MAX, to_UINT64. intros. apply Z.mod_small. lia. Qed.

Lemma to_LONG_id z : - 2 ^ 31 ≤ z ≤ LONG_MAX → to_LONG z = z.
Proof.
  unfold LONG_MAX, to_LONG. intros. rewrite Z.mod_small; lia.
Qed.

Lemma to_UINT64_minus_1 : to_UINT64 (-1) = UINT64_MAX.
Proof. reflexivity. Qed.

Lemma to_UINT64_range z : is_UINT64 (to_UINT64 z).
Proof.
  unfold is_UINT64, to_UINT64, UINT64_MAX.
  pose proof (Z.mod_pos_bound z (2 ^ 64)). lia.
Qed.

(** ** [unlink] *)

Lemma unlink_notin p l : p ∉ l → unlink p l = l.
Proof.
  induction l as [|x l IH]; simpl; [done|].
  intros Hn. case_decide; [subst; set_solver|].
  f_equal. apply IH. set_solver.
Qed.

Lemma unlink_perm p l : p ∈ l → l ≡ₚ p :: unlink p l.
Proof.
  induction l as [|x l IH]; simpl; [by intros ?%elem_of_nil|].
  intros Hin. case_decide; [by subst|].
  apply elem_of_cons in Hin as [->|Hin]; [done|].
  rewrite (IH Hin) at 1. apply Permutation_swap.
Qed.

Lemma unlink_length p l :
  p ∈ l → Z.of_nat (length (unlink p l)) = Z.of_nat (length l) - 1.
Proof.
  intros Hin. rewrite (Permutation_length (unlink_perm p l Hin)). simpl. lia.
Qed.

Lemma elem_of_unlink x p l : x ∈ unlink p l → x ∈ l.
Proof.
  induction l as [|y l IH]; simpl; [done|].
  case_decide as Hd; rewrite !elem_of_cons; tauto.
Qed.

Lemma elem_of_unlink_ne x p l : x ≠ p → x ∈ l → x ∈ unlink p l.
Proof.
  intros Hne. induction l as [|y l IH]; simpl; [done|].
  case_decide as Hd; rewrite !elem_of_cons; [subst|]; tauto.
Qed.

Lemma NoDup_unlink p l : NoDup l → NoDup (unlink p l) ∧ p ∉ unlink p l.
Proof.
  intros Hnd. destruct (decide (p ∈ l)) as [Hin|Hn].
  - rewrite (unlink_perm p l Hin) in Hnd. apply NoDup_cons in Hnd. tauto.
  - rewrite unlink_notin; done.
Qed.

Lemma unlink_head p l : unlink p (p :: l) = l.
Proof. simpl. by rewrite decide_True. Qed.

(** ** [outstanding] *)

Lemma outstanding_bounds q bs : 0 ≤ outstanding q bs ≤ Z.of_nat (length bs).
Proof. induction bs; simpl; [lia|]. case_decide; lia. Qed.

Lemma outstanding_notin q bs : q ∉ bs → outstanding q bs = 0.
Proof.
  induction bs as [|b bs IH]; simpl; [done|].
  intros Hn. rewrite decide_False by set_solver. rewrite IH; set_solver.
Qed.

Lemma outstanding_elem_of q bs : q ∈ bs → 0 < outstanding q bs.
Proof.
  induction bs as [|b bs IH]; simpl; [by intros ?%elem_of_nil|].
  intros Hin. pose proof (outstanding_bounds q bs).
  case_decide; [lia|]. apply elem_of_cons in Hin as [->|Hin]; [done|].
  specialize (IH Hin). lia.
Qed.

Lemma outstanding_pos_elem_of q bs : 0 < outstanding q bs → q ∈ bs.
Proof.
  intros Hpos. destruct (decide (q ∈ bs)); [done|].
  rewrite outstanding_notin in Hpos; [lia|done].
Qed.

Lemma outstanding_unlink q bs :
  q ∈ bs → outstanding q (unlink q bs) = outstanding q bs - 1.
Proof.
  induction bs as [|b bs IH]; simpl; [by intros ?%elem_of_nil|].
  intros Hin. case_decide; [lia|].
  apply elem_of_cons in Hin as [->|Hin]; [done|].
  simpl. rewrite decide_False by done. rewrite IH; [lia|done].
Qed.

Lemma outstanding_unlink_ne q q' bs :
  q' ≠ q → outstanding q' (unlink q bs) = outstanding q' bs.
Proof.
  intros Hne. induction bs as [|b bs IH]; simpl; [done|].
  case_decide; simpl.
  - subst. by rewrite decide_False.
  - by rewrite IH.
Qed.

(** ** The pool primitives *)

Lemma load_item_Some s p it : load_item s p = Some it ↔ Pool s !! p = Some (BItem it).
Proof.
  unfold load_item. destruct (Pool s !! p) as [[]|]; split; congruence.
Qed.

Lemma load_buffer_Some s q b :
  load_buffer s q = Some b ↔ Pool s !! q = Some (BBuffer b).
Proof.
  unfold load_buffer. destruct (Pool s !! q) as [[]|]; split; congruence.
Qed.

Lemma store_Some p v s :
  is_Some (Pool s !! p) →
  store p v s = Some (mkState (MetaCache s) (<[p := v]> (Pool s)) (Trace s)).
Proof. intros [x Hx]. unfold store. by rewrite Hx. Qed.

Lemma FspFree_Some p s :
  is_Some (Pool s !! p) →
  FspFree p s = Some (mkState (MetaCache s) (delete p (Pool s)) (Trace s ++ [EvFree p])).
Proof. intros [x Hx]. unfold FspFree. by rewrite Hx. Qed.

Lemma MetaCacheDereferenceItem_Some p it s :
  load_item s p = Some it →
  0 < RefCount it ≤ LONG_MAX →
  is_Some (Pool s !! ItemBuffer it) → ItemBuffer it ≠ p →
  MetaCacheDereferenceItem p s =
    Some (mkState (MetaCache s) (released p it (Pool s))
            (Trace s ++ if decide (RefCount it = 1)
                        then [EvFree (ItemBuffer it); EvFree p] else [])).
Proof.
  intros Hit Hrc Hbuf Hne. unfold MetaCacheDereferenceItem, released.
  rewrite Hit. simpl.
  rewrite to_LONG_id by (unfold LONG_MAX in *; lia).
  rewrite store_Some by (apply load_item_Some in Hit; by rewrite Hit).
  simpl. destruct (decide (RefCount it = 1)) as [H1|H1].
  - rewrite decide_True by lia.
    rewrite FspFree_Some by (simpl; by rewrite lookup_insert_ne).
    simpl. rewrite FspFree_Some; simpl.
    + rewrite <- app_assoc. simpl. do 2 f_equal.
      rewrite delete_insert_ne by done. by rewrite delete_insert_eq.
    + rewrite lookup_delete_ne by done. rewrite lookup_insert_eq. eauto.
  - rewrite decide_False by lia. by rewrite app_nil_r.
Qed.

(** ** The invariant through the primitives *)

(** Case analysis on the lookups of a pool after [released]. *)
Ltac pool_cases :=
  repeat case_decide; subst; simpl in *;
  try done; try congruence; try (split; [congruence|tauto]);
  try (exfalso; intuition congruence).

Lemma lookup_released p it h x :
  released p it h !! x =
    if decide (RefCount it = 1) then
      if decide (x = p ∨ x = ItemBuffer it) then None else h !! x
    else if decide (x = p) then
      Some (BItem (mkItem (ItemBuffer it) (ItemIndex it) (ExpirationTime it)
                     (RefCount it - 1)))
    else h !! x.
Proof.
  unfold released. destruct (decide (RefCount it = 1)).
  - destruct (decide (x = p ∨ x = ItemBuffer it)) as [[->| ->]|Hn].
    + apply lookup_delete_eq.
    + destruct (decide (ItemBuffer it = p)) as [->|].
      * apply lookup_delete_eq.
      * rewrite lookup_delete_ne by done. apply lookup_delete_eq.
    + rewrite !lookup_delete_ne by (intros Heq; apply Hn; subst; auto). done.
  - destruct (decide (x = p)) as [->|].
    + apply lookup_insert_eq.
    + by rewrite lookup_insert_ne.
Qed.

Lemma concat_insert_perm (l : list (list Z)) (i : nat) chain chain' p :
  l !! i = Some chain → chain ≡ₚ p :: chain' →
  concat l ≡ₚ p :: concat (<[i := chain']> l).
Proof.
  intros Hi Hp.
  rewrite <- (take_drop_middle l i chain Hi) at 1.
  rewrite insert_take_drop by (by eapply lookup_lt_Some).
  rewrite !concat_app. simpl. rewrite Hp. simpl.
  symmetry. apply Permutation_middle.
Qed.

Lemma elem_of_concat_lookup (l : list (list Z)) p :
  p ∈ concat l ↔ ∃ (i : nat) chain, l !! i = Some chain ∧ p ∈ chain.
Proof.
  rewrite list_elem_of_In, in_concat. split.
  - intros (chain & Hc & Hp). apply list_elem_of_In in Hc, Hp.
    apply list_elem_of_lookup in Hc as [i Hi]. eauto.
  - intros (i & chain & Hi & Hp). exists chain.
    rewrite <- !list_elem_of_In. split; [|done].
    apply list_elem_of_lookup. eauto.
Qed.

Lemma block_item_buffer s x it b :
  load_item s x = Some it → load_buffer s x = Some b → False.
Proof. rewrite load_item_Some, load_buffer_Some. congruence. Qed.

(** An item of the list is in the bucket of its index. *)
Lemma wf_resident_chain w p :
  wf w → p ∈ ItemList (MetaCache (st w)) →
  ∃ it chain,
    load_item (st w) p = Some it ∧
    ItemBuckets (MetaCache (st w))
      !! Z.to_nat (ItemIndex it mod ItemBucketCount (MetaCache (st w))) = Some chain ∧
    p ∈ chain.
Proof.
  intros Hwf Hin. rewrite <- (wf_buckets w Hwf) in Hin.
  apply elem_of_concat_lookup in Hin as (i & chain & Hi & Hp).
  destruct (wf_chain w Hwf i chain p Hi Hp) as (it & Hit & Hidx).
  exists it, chain. rewrite Hidx, Nat2Z.id. done.
Qed.

Lemma wf_item_buffer w p it :
  wf w → load_item (st w) p = Some it →
  is_Some (Pool (st w) !! ItemBuffer it) ∧ ItemBuffer it ≠ p.
Proof.
  intros Hwf Hit. destruct (wf_item w Hwf p it Hit) as ((b & Hb & _) & _).
  split.
  - apply load_buffer_Some in Hb. rewrite Hb. eauto.
  - intros Heq. rewrite Heq in Hb. eapply block_item_buffer; eauto.
Qed.

(** The invariant after an item left the cache. *)
Lemma wf_evicted w p it chain clk :
  wf w → p ∈ ItemList (MetaCache (st w)) →
  load_item (st w) p = Some it →
  ItemBuckets (MetaCache (st w))
    !! Z.to_nat (ItemIndex it mod ItemBucketCount (MetaCache (st w))) = Some chain →
  wf (mkWorld (evicted p it chain (st w)) (borrowed w) clk).
Proof.
  intros Hwf Hin Hit Hchain.
  destruct (wf_resident_chain w p Hwf Hin) as (it0 & chain0 & Hit0 & Hchain0 & Hpc).
  rewrite Hit in Hit0. injection Hit0 as <-.
  rewrite Hchain in Hchain0. injection Hchain0 as <-.
  destruct (wf_item w Hwf p it Hit) as ((b & Hb & Hbp) & _ & _ & Hrc & Hpos).
  unfold resident in Hrc. rewrite decide_True in Hrc by done.
  pose proof (outstanding_bounds (ItemBuffer it + sizeof_ITEM_BUFFER) (borrowed w)) as Hob.
  pose proof (concat_insert_perm _ _ _ _ _ Hchain (unlink_perm p chain Hpc)) as Hperm.
  pose proof (wf_nodup w Hwf) as Hnd.
  rewrite <- (wf_buckets w Hwf), Hperm in Hnd.
  apply NoDup_cons in Hnd as [Hnp Hnd].
  assert (Hbne : ItemBuffer it ≠ p).
  { intros Heq. rewrite Heq in Hb. eapply block_item_buffer; eauto. }
  split; simpl.
  - apply (wf_capacity w Hwf).
  - apply (wf_index w Hwf).
  - apply (wf_timeout w Hwf).
  - rewrite length_insert. apply (wf_bucket_count w Hwf).
  - destruct (wf_count w Hwf) as [Hc Hcap]. rewrite unlink_length by done. lia.
  - apply (NoDup_unlink p _ (wf_nodup w Hwf)).
  - apply (Permutation_cons_inv (a := p)).
    rewrite <- Hperm, (wf_buckets w Hwf). by apply unlink_perm.
  - intros i chain' p' Hi Hp'.
    assert (p' ≠ p) as Hne.
    { intros ->. apply Hnp. apply elem_of_concat_lookup. eauto. }
    assert (∃ chain0, ItemBuckets (MetaCache (st w)) !! i = Some chain0 ∧ p' ∈ chain0)
      as (chain0 & Hi0 & Hp0).
    { destruct (decide (i = Z.to_nat (ItemIndex it mod ItemBucketCount (MetaCache (st w)))))
        as [->|Hni].
      - rewrite list_lookup_insert_eq in Hi by (by eapply lookup_lt_Some).
        injection Hi as <-. exists chain. split; [done|]. by eapply elem_of_unlink.
      - rewrite list_lookup_insert_ne in Hi by done. eauto. }
    destruct (wf_chain w Hwf i chain0 p' Hi0 Hp0) as (it' & Hit' & Hidx').
    exists it'. split; [|done].
    apply load_item_Some. simpl. rewrite lookup_released.
    apply load_item_Some in Hit'.
    assert (p' ≠ ItemBuffer it).
    { intros ->. apply load_buffer_Some in Hb. congruence. }
    pool_cases.
  - intros x [v Hx]. apply (wf_address w Hwf). rewrite lookup_released in Hx.
    apply load_item_Some in Hit.
    repeat case_decide; simplify_eq; eauto.
  - intros x Hx. rewrite lookup_released in Hx.
    repeat case_decide; simplify_eq. all: by eapply (wf_raw w Hwf).
  - intros p' it' Hit'. apply load_item_Some in Hit'. simpl in Hit'.
    rewrite lookup_released in Hit'. unfold resident. simpl.
    destruct (decide (p' = p)) as [->|Hne].
    + rewrite decide_False by (apply (NoDup_unlink p _ (wf_nodup w Hwf))).
      destruct (decide (RefCount it = 1)) as [H1|H1].
      { rewrite decide_True in Hit' by auto. done. }
      injection Hit' as <-. simpl.
      destruct (wf_item w Hwf p it Hit) as (_ & Hidx & Hexp & _).
      split_and!; try done; try lia.
      exists b. split; [|done]. apply load_buffer_Some. simpl.
      rewrite lookup_released, decide_False, decide_False by done.
      by apply load_buffer_Some.
    + assert (Pool (st w) !! p' = Some (BItem it')) as Hit0.
      { pool_cases. }
      apply load_item_Some in Hit0.
      destruct (wf_item w Hwf p' it' Hit0) as ((b' & Hb' & Hbp') & Hidx & Hexp & Hrc' & Hpos').
      unfold resident in Hrc'.
      split_and!; try done.
      * exists b'. split; [|done]. apply load_buffer_Some. simpl.
        rewrite lookup_released.
        assert (ItemBuffer it' ≠ p).
        { intros Heq. rewrite Heq in Hb'. exact (block_item_buffer _ _ _ _ Hit Hb'). }
        assert (ItemBuffer it' ≠ ItemBuffer it).
        { intros Heq. rewrite Heq in Hb'. congruence. }
        apply load_buffer_Some in Hb'.
        pool_cases.
      * rewrite Hrc'. f_equal.
        destruct (decide (p' ∈ ItemList (MetaCache (st w)))) as [Hl|Hl].
        -- rewrite decide_True; [done|]. by apply elem_of_unlink_ne.
        -- rewrite decide_False; [done|]. intros ?%elem_of_unlink. done.
  - intros q b' Hb'. apply load_buffer_Some in Hb'. simpl in Hb'.
    rewrite lookup_released in Hb'.
    assert (Pool (st w) !! q = Some (BBuffer b') ∧ (q = ItemBuffer it → RefCount it ≠ 1))
      as [Hb0 Hq].
    { apply load_item_Some in Hit. pool_cases. }
    apply load_buffer_Some in Hb0.
    destruct (wf_buffer w Hwf q b' Hb0) as ((it' & Hit' & Hq') & Hsz).
    split; [|done].
    destruct (decide (Item b' = p)) as [Hip|Hip].
    + rewrite Hip in Hit'. rewrite Hit in Hit'. injection Hit' as <-.
      exists (mkItem (ItemBuffer it) (ItemIndex it) (ExpirationTime it) (RefCount it - 1)).
      split; [|exact Hq'].
      apply load_item_Some. simpl. rewrite lookup_released.
      rewrite decide_False by (apply Hq; done).
      rewrite decide_True by done. reflexivity.
    + exists it'. split; [|done]. apply load_item_Some. simpl.
      rewrite lookup_released.
      assert (Item b' ≠ ItemBuffer it).
      { intros Heq. rewrite Heq in Hit'. eapply block_item_buffer; eauto. }
      apply load_item_Some in Hit'.
      pool_cases.
  - intros q Hq. destruct (wf_borrowed w Hwf q Hq) as [b' Hb'].
    exists b'. apply load_buffer_Some. simpl. rewrite lookup_released.
    assert (q - sizeof_ITEM_BUFFER ≠ p).
    { intros Heq. rewrite Heq in Hb'. eapply block_item_buffer; eauto. }
    apply load_buffer_Some in Hb'.
    destruct (decide (RefCount it = 1)) as [H1|H1]; [|by rewrite decide_False].
    rewrite decide_False; [done|]. intros [?|Heq]; [done|].
    assert (q = ItemBuffer it + sizeof_ITEM_BUFFER) as -> by lia.
    apply outstanding_elem_of in Hq. lia.
  - apply (wf_borrows w Hwf).
Qed.

Lemma unlink_length_le p (l : list Z) :
  Z.of_nat (length (unlink p l)) ≤ Z.of_nat (length l).
Proof.
  destruct (decide (p ∈ l)).
  - rewrite unlink_length by done. lia.
  - rewrite unlink_notin by done. lia.
Qed.

(** A borrowed pointer leads back to its item. *)
Lemma wf_borrowed_item w q :
  wf w → q ∈ borrowed w →
  ∃ b it, load_buffer (st w) (q - sizeof_ITEM_BUFFER) = Some b ∧
          load_item (st w) (Item b) = Some it ∧
          ItemBuffer it = q - sizeof_ITEM_BUFFER.
Proof.
  intros Hwf Hq. destruct (wf_borrowed w Hwf q Hq) as [b Hb].
  destruct (wf_buffer w Hwf _ b Hb) as ((it & Hit & Hbuf) & _).
  eauto.
Qed.

(** The invariant after [MetaCacheDereferenceItemBuffer] of a borrowed
    pointer. *)
Lemma wf_returned w q b it tr clk :
  wf w → q ∈ borrowed w →
  load_buffer (st w) (q - sizeof_ITEM_BUFFER) = Some b →
  load_item (st w) (Item b) = Some it →
  wf (mkWorld (mkState (MetaCache (st w)) (released (Item b) it (Pool (st w))) tr)
        (unlink q (borrowed w)) clk).
Proof.
  intros Hwf Hq Hb Hit.
  destruct (wf_buffer w Hwf _ b Hb) as ((it0 & Hit0 & Hbuf) & _).
  rewrite Hit in Hit0. injection Hit0 as <-.
  set (p := Item b) in *.
  destruct (wf_item w Hwf p it Hit) as (_ & Hidx & Hexp & Hrc & Hpos).
  assert (ItemBuffer it + sizeof_ITEM_BUFFER = q) as Hqe by lia.
  rewrite Hqe in Hrc.
  pose proof (outstanding_elem_of q (borrowed w) Hq) as Hout.
  assert (Hbne : ItemBuffer it ≠ p).
  { intros Heq. rewrite <- Hbuf, Heq in Hb. exact (block_item_buffer _ _ _ _ Hit Hb). }
  assert (Hres : RefCount it = 1 → p ∉ ItemList (MetaCache (st w))).
  { intros H1 Hin. unfold resident in Hrc. rewrite decide_True in Hrc by done. lia. }
  rewrite <- Hbuf in Hb.
  assert (Hbp : Item b = p) by done.
  clearbody p.
  split; simpl.
  - apply (wf_capacity w Hwf).
  - apply (wf_index w Hwf).
  - apply (wf_timeout w Hwf).
  - apply (wf_bucket_count w Hwf).
  - apply (wf_count w Hwf).
  - apply (wf_nodup w Hwf).
  - apply (wf_buckets w Hwf).
  - intros i chain p' Hi Hp'.
    destruct (wf_chain w Hwf i chain p' Hi Hp') as (it' & Hit' & Hidx').
    assert (p' ≠ ItemBuffer it).
    { intros ->. exact (block_item_buffer _ _ _ _ Hit' Hb). }
    destruct (decide (p' = p)) as [->|Hne].
    + rewrite Hit in Hit'. injection Hit' as <-.
      eexists (mkItem _ _ _ _). split; [|exact Hidx'].
      apply load_item_Some. simpl. rewrite lookup_released.
      rewrite decide_False, decide_True; [done..|].
      intros H1. apply (Hres H1). rewrite <- (wf_buckets w Hwf).
      apply elem_of_concat_lookup. eauto.
    + exists it'. split; [|done]. apply load_item_Some. simpl.
      rewrite lookup_released. apply load_item_Some in Hit'.
      pool_cases.
  - intros x [v Hx]. apply (wf_address w Hwf). rewrite lookup_released in Hx.
    apply load_item_Some in Hit.
    repeat case_decide; simplify_eq; eauto.
  - intros x Hx. rewrite lookup_released in Hx.
    repeat case_decide; simplify_eq. all: by eapply (wf_raw w Hwf).
  - intros p' it' Hit'. apply load_item_Some in Hit'. simpl in Hit'.
    rewrite lookup_released in Hit'. simpl.
    destruct (decide (p' = p)) as [->|Hne].
    + destruct (decide (RefCount it = 1)) as [H1|H1].
      { rewrite decide_True in Hit' by auto. done. }
      injection Hit' as <-. simpl. rewrite Hqe.
      rewrite outstanding_unlink by done.
      split_and!; try done; try lia.
      exists b. split; [|done]. apply load_buffer_Some. simpl.
      rewrite lookup_released, decide_False, decide_False by done.
      by apply load_buffer_Some.
    + assert (Pool (st w) !! p' = Some (BItem it')) as Hit0.
      { pool_cases. }
      apply load_item_Some in Hit0.
      destruct (wf_item w Hwf p' it' Hit0) as ((b' & Hb' & Hbp') & Hidx' & Hexp' & Hrc' & Hpos').
      assert (ItemBuffer it' ≠ p).
      { intros Heq. rewrite Heq in Hb'. exact (block_item_buffer _ _ _ _ Hit Hb'). }
      assert (ItemBuffer it' ≠ ItemBuffer it).
      { intros Heq. rewrite Heq in Hb'. congruence. }
      split_and!; try done.
      * exists b'. split; [|done]. apply load_buffer_Some. simpl.
        rewrite lookup_released.
        apply load_buffer_Some in Hb'.
        pool_cases.
      * rewrite outstanding_unlink_ne by lia. done.
  - intros x b' Hb'. apply load_buffer_Some in Hb'. simpl in Hb'.
    rewrite lookup_released in Hb'.
    assert (Pool (st w) !! x = Some (BBuffer b') ∧ (x = ItemBuffer it → RefCount it ≠ 1))
      as [Hb0 Hx].
    { apply load_item_Some in Hit. pool_cases. }
    apply load_buffer_Some in Hb0.
    destruct (wf_buffer w Hwf x b' Hb0) as ((it' & Hit' & Hx') & Hsz).
    split; [|done].
    destruct (decide (Item b' = p)) as [Hip|Hip].
    + rewrite Hip in Hit'. rewrite Hit in Hit'. injection Hit' as <-.
      exists (mkItem (ItemBuffer it) (ItemIndex it) (ExpirationTime it) (RefCount it - 1)).
      split; [|exact Hx'].
      apply load_item_Some. simpl. rewrite lookup_released.
      rewrite decide_False by (apply Hx; done).
      rewrite decide_True by done. reflexivity.
    + exists it'. split; [|done]. apply load_item_Some. simpl.
      rewrite lookup_released.
      assert (Item b' ≠ ItemBuffer it).
      { intros Heq. rewrite Heq in Hit'. exact (block_item_buffer _ _ _ _ Hit' Hb). }
      apply load_item_Some in Hit'.
      pool_cases.
  - intros q' Hq'.
    destruct (wf_borrowed w Hwf q' (elem_of_unlink _ _ _ Hq')) as [b' Hb'].
    exists b'. apply load_buffer_Some. simpl. rewrite lookup_released.
    assert (q' - sizeof_ITEM_BUFFER ≠ p).
    { intros Heq. rewrite Heq in Hb'. exact (block_item_buffer _ _ _ _ Hit Hb'). }
    apply load_buffer_Some in Hb'.
    destruct (decide (RefCount it = 1)) as [H1|H1]; [|by rewrite decide_False].
    rewrite decide_False; [done|]. intros [?|Heq]; [done|].
    assert (q' = q) as -> by lia.
    apply outstanding_elem_of in Hq'. rewrite outstanding_unlink in Hq' by done.
    unfold resident in Hrc. case_decide; lia.
  - pose proof (unlink_length_le q (borrowed w)). pose proof (wf_borrows w Hwf). lia.
Qed.

(** The invariant after a hit of [MetaCacheReferenceItemBuffer]. *)
Lemma wf_referenced w p it tr clk :
  wf w → load_item (st w) p = Some it →
  Z.of_nat (length (borrowed w)) < LONG_MAX - 1 →
  wf (mkWorld
        (mkState (MetaCache (st w))
           (<[p := BItem (mkItem (ItemBuffer it) (ItemIndex it) (ExpirationTime it)
                            (RefCount it + 1))]> (Pool (st w))) tr)
        ((ItemBuffer it + sizeof_ITEM_BUFFER) :: borrowed w) clk).
Proof.
  intros Hwf Hit Hlen.
  destruct (wf_item w Hwf p it Hit) as ((b & Hb & Hbp) & Hidx & Hexp & Hrc & Hpos).
  assert (Hbne : ItemBuffer it ≠ p).
  { intros Heq. rewrite Heq in Hb. exact (block_item_buffer _ _ _ _ Hit Hb). }
  split; simpl.
  - apply (wf_capacity w Hwf).
  - apply (wf_index w Hwf).
  - apply (wf_timeout w Hwf).
  - apply (wf_bucket_count w Hwf).
  - apply (wf_count w Hwf).
  - apply (wf_nodup w Hwf).
  - apply (wf_buckets w Hwf).
  - intros i chain p' Hi Hp'.
    destruct (wf_chain w Hwf i chain p' Hi Hp') as (it' & Hit' & Hidx').
    destruct (decide (p' = p)) as [->|Hne].
    + rewrite Hit in Hit'. injection Hit' as <-.
      eexists (mkItem _ _ _ _). split; [|exact Hidx'].
      apply load_item_Some. simpl. by rewrite lookup_insert_eq.
    + exists it'. split; [|done]. apply load_item_Some. simpl.
      rewrite lookup_insert_ne by done. by apply load_item_Some.
  - intros x [v Hx]. apply (wf_address w Hwf).
    apply load_item_Some in Hit.
    destruct (decide (x = p)) as [->|]; [eauto|].
    rewrite lookup_insert_ne in Hx by done. eauto.
  - intros x Hx. destruct (decide (x = p)) as [->|].
    + by rewrite lookup_insert_eq in Hx.
    + rewrite lookup_insert_ne in Hx by done. by eapply (wf_raw w Hwf).
  - intros p' it' Hit'. apply load_item_Some in Hit'. simpl in Hit'. simpl.
    destruct (decide (p' = p)) as [->|Hne].
    + rewrite lookup_insert_eq in Hit'. injection Hit' as <-. simpl.
      rewrite decide_True by done.
      split_and!; try done; try lia.
      exists b. split; [|done]. apply load_buffer_Some. simpl.
      rewrite lookup_insert_ne by done. by apply load_buffer_Some.
    + rewrite lookup_insert_ne in Hit' by done. apply load_item_Some in Hit'.
      destruct (wf_item w Hwf p' it' Hit') as ((b' & Hb' & Hbp') & Hidx' & Hexp' & Hrc' & Hpos').
      assert (ItemBuffer it' ≠ p).
      { intros Heq. rewrite Heq in Hb'. exact (block_item_buffer _ _ _ _ Hit Hb'). }
      assert (ItemBuffer it' ≠ ItemBuffer it).
      { intros Heq. rewrite Heq in Hb'. congruence. }
      split_and!; try done.
      * exists b'. split; [|done]. apply load_buffer_Some. simpl.
        rewrite lookup_insert_ne by done. by apply load_buffer_Some.
      * rewrite decide_False by lia. lia.
  - intros x b' Hb'. apply load_buffer_Some in Hb'. simpl in Hb'.
    destruct (decide (x = p)) as [->|Hne].
    { by rewrite lookup_insert_eq in Hb'. }
    rewrite lookup_insert_ne in Hb' by done. apply load_buffer_Some in Hb'.
    destruct (wf_buffer w Hwf x b' Hb') as ((it' & Hit' & Hx') & Hsz).
    split; [|done].
    destruct (decide (Item b' = p)) as [Hip|Hip].
    + rewrite Hip in Hit'. rewrite Hit in Hit'. injection Hit' as <-.
      exists (mkItem (ItemBuffer it) (ItemIndex it) (ExpirationTime it) (RefCount it + 1)).
      split; [|exact Hx'].
      apply load_item_Some. simpl. rewrite Hip. by rewrite lookup_insert_eq.
    + exists it'. split; [|done]. apply load_item_Some. simpl.
      rewrite lookup_insert_ne by done. by apply load_item_Some.
  - intros q Hq.
    assert (is_Some (load_buffer (st w) (q - sizeof_ITEM_BUFFER))) as [b' Hb'].
    { apply elem_of_cons in Hq as [->|Hq]; [|by apply (wf_borrowed w Hwf)].
      exists b. rewrite <- Hb. f_equal. lia. }
    exists b'. apply load_buffer_Some. simpl.
    rewrite lookup_insert_ne; [by apply load_buffer_Some|].
    intros Heq. rewrite <- Heq in Hb'. exact (block_item_buffer _ _ _ _ Hit Hb').
  - rewrite Nat2Z.inj_succ. lia.
Qed.

Lemma next_index_range i : is_UINT64 (next_index i).
Proof.
  unfold next_index. case_decide; [|apply to_UINT64_range].
  unfold is_UINT64, UINT64_MAX. lia.
Qed.

Lemma wf_added w p q data exp chain events clk :
  wf w →
  0 < p → 0 < q → p ≠ q →
  Pool (st w) !! p = None → Pool (st w) !! q = None →
  is_ULONG (Z.of_nat (length data)) → is_UINT64 exp →
  ItemCount (MetaCache (st w)) < MetaCapacity (MetaCache (st w)) →
  ItemBuckets (MetaCache (st w))
    !! Z.to_nat (next_index (MetaItemIndex (MetaCache (st w)))
                 mod ItemBucketCount (MetaCache (st w))) = Some chain →
  wf (mkWorld (added p q data exp chain events (st w)) (borrowed w) clk).
Proof.
  intros Hwf Hp Hq Hpq Hfp Hfq Hsz Hexp Hcap Hchain.
  set (i := next_index (MetaItemIndex (MetaCache (st w)))) in *.
  set (n := ItemBucketCount (MetaCache (st w))) in *.
  destruct (wf_bucket_count w Hwf) as [Hn Hlen]. fold n in Hn, Hlen.
  assert (Hnl : p ∉ ItemList (MetaCache (st w))).
  { intros Hin. destruct (wf_resident_chain w p Hwf Hin) as (it & _ & Hit & _).
    apply load_item_Some in Hit. congruence. }
  assert (Hold : ∀ x, is_Some (Pool (st w) !! x) → x ≠ p ∧ x ≠ q).
  { intros x [v Hx]. split; intros ->; congruence. }
  assert (Holdi : ∀ x it, load_item (st w) x = Some it → x ≠ p ∧ x ≠ q).
  { intros x it Hx. apply Hold. apply load_item_Some in Hx. rewrite Hx. eauto. }
  assert (Holdb : ∀ x b, load_buffer (st w) x = Some b → x ≠ p ∧ x ≠ q).
  { intros x b Hx. apply Hold. apply load_buffer_Some in Hx. rewrite Hx. eauto. }
  split; simpl; fold i n.
  - apply (wf_capacity w Hwf).
  - apply next_index_range.
  - apply (wf_timeout w Hwf).
  - rewrite length_insert. done.
  - destruct (wf_count w Hwf) as [Hc Hle]. rewrite length_app. simpl. lia.
  - apply NoDup_app. split_and!.
    + apply (wf_nodup w Hwf).
    + intros x Hx ->%list_elem_of_singleton. done.
    + apply NoDup_singleton.
  - rewrite <- (wf_buckets w Hwf).
    rewrite <- Permutation_cons_append.
    rewrite (concat_insert_perm (<[Z.to_nat (i mod n) := p :: chain]> _)
               (Z.to_nat (i mod n)) (p :: chain) chain p); [|
      apply list_lookup_insert_eq; by eapply lookup_lt_Some | done].
    rewrite list_insert_insert_eq. rewrite list_insert_id by done. done.
  - intros j chain' p' Hj Hp'.
    assert (p' = p ∧ Z.of_nat j = i mod n ∨
            ∃ chain0, ItemBuckets (MetaCache (st w)) !! j = Some chain0 ∧ p' ∈ chain0)
      as [[-> Hji]|(chain0 & Hj0 & Hp0)].
    { destruct (decide (j = Z.to_nat (i mod n))) as [->|Hnj].
      - rewrite list_lookup_insert_eq in Hj by (by eapply lookup_lt_Some).
        injection Hj as <-. apply elem_of_cons in Hp' as [->|Hp'].
        + left. split; [done|]. rewrite Z2Nat.id; [done|].
          apply Z.mod_pos_bound. lia.
        + right. eauto.
      - rewrite list_lookup_insert_ne in Hj by done. right. eauto. }
    + eexists. split; [apply load_item_Some; simpl; apply lookup_insert_eq|].
      simpl. done.
    + destruct (wf_chain w Hwf j chain0 p' Hj0 Hp0) as (it' & Hit' & Hidx').
      exists it'. split; [|done]. destruct (Holdi _ _ Hit').
      apply load_item_Some. simpl. rewrite !lookup_insert_ne by done.
      by apply load_item_Some.
  - intros x [v Hx].
    destruct (decide (x = p)) as [->|]; [done|].
    destruct (decide (x = q)) as [->|]; [done|].
    rewrite !lookup_insert_ne in Hx by done. apply (wf_address w Hwf). eauto.
  - intros x Hx.
    destruct (decide (x = p)) as [->|]; [by rewrite lookup_insert_eq in Hx|].
    rewrite lookup_insert_ne in Hx by done.
    destruct (decide (x = q)) as [->|]; [by rewrite lookup_insert_eq in Hx|].
    rewrite lookup_insert_ne in Hx by done. by eapply (wf_raw w Hwf).
  - intros p' it' Hit'. apply load_item_Some in Hit'. simpl in Hit'.
    unfold resident. simpl.
    destruct (decide (p' = p)) as [->|Hne].
    + rewrite lookup_insert_eq in Hit'. injection Hit' as <-. simpl.
      rewrite decide_True by (apply elem_of_app; right; apply list_elem_of_singleton; done).
      rewrite outstanding_notin.
      * split_and!; try done; try lia; [|apply next_index_range].
        exists (mkItemBuffer p (Z.of_nat (length data)) data). split; [|reflexivity].
        apply load_buffer_Some. simpl. rewrite lookup_insert_ne by done.
        by rewrite lookup_insert_eq.
      * intros Hb. destruct (wf_borrowed w Hwf _ Hb) as [b Hb'].
        apply Holdb in Hb'. unfold sizeof_ITEM_BUFFER in *. lia.
    + rewrite lookup_insert_ne in Hit' by done.
      destruct (decide (p' = q)) as [->|Hneq].
      { by rewrite lookup_insert_eq in Hit'. }
      rewrite lookup_insert_ne in Hit' by done. apply load_item_Some in Hit'.
      destruct (wf_item w Hwf p' it' Hit') as ((b' & Hb' & Hbp') & Hidx' & Hexp' & Hrc' & Hpos').
      destruct (Holdb _ _ Hb').
      split_and!; try done.
      * exists b'. split; [|done]. apply load_buffer_Some. simpl.
        rewrite !lookup_insert_ne by done. by apply load_buffer_Some.
      * rewrite Hrc'. unfold resident. f_equal.
        destruct (decide (p' ∈ ItemList (MetaCache (st w)))) as [Hl|Hl].
        -- rewrite decide_True; [done|]. apply elem_of_app. by left.
        -- rewrite decide_False; [done|].
           intros [?| ->%list_elem_of_singleton]%elem_of_app; done.
  - intros x b' Hb'. apply load_buffer_Some in Hb'. simpl in Hb'.
    destruct (decide (x = p)) as [->|Hne].
    { by rewrite lookup_insert_eq in Hb'. }
    rewrite lookup_insert_ne in Hb' by done.
    destruct (decide (x = q)) as [->|Hneq].
    + rewrite lookup_insert_eq in Hb'. injection Hb' as <-. simpl.
      split; [|done]. exists (mkItem q i exp 1). split; [|reflexivity].
      apply load_item_Some. simpl. by rewrite lookup_insert_eq.
    + rewrite lookup_insert_ne in Hb' by done. apply load_buffer_Some in Hb'.
      destruct (wf_buffer w Hwf x b' Hb') as ((it' & Hit' & Hx') & Hsz').
      split; [|done]. exists it'. split; [|done].
      destruct (Holdi _ _ Hit').
      apply load_item_Some. simpl. rewrite !lookup_insert_ne by done.
      by apply load_item_Some.
  - intros x Hx. destruct (wf_borrowed w Hwf x Hx) as [b' Hb'].
    exists b'. destruct (Holdb _ _ Hb').
    apply load_buffer_Some. simpl. rewrite !lookup_insert_ne by done.
    by apply load_buffer_Some.
  - apply (wf_borrows w Hwf).
Qed.

(** ** What the functions compute on a well-formed cache *)

Lemma bucket_find_pool s s' i chain :
  Pool s = Pool s' → bucket_find s i chain = bucket_find s' i chain.
Proof.
  intros Hp. induction chain as [|x chain IH]; simpl; [done|].
  unfold load_item. rewrite Hp. destruct (Pool s' !! x) as [[]|]; simpl; try done.
  case_decide; done.
Qed.

Lemma bucket_find_spec s i chain :
  (∀ p, p ∈ chain → is_Some (load_item s p)) →
  ∃ r, bucket_find s i chain = Some r ∧
       match r with
       | Some p => p ∈ chain ∧ ∃ it, load_item s p = Some it ∧ ItemIndex it = i
       | None => ∀ p it, p ∈ chain → load_item s p = Some it → ItemIndex it ≠ i
       end.
Proof.
  induction chain as [|x chain IH]; intros Hall; simpl.
  - exists None. split; [done|]. by intros p it ?%elem_of_nil.
  - destruct (Hall x) as [it Hit]; [by left|]. rewrite Hit. simpl.
    case_decide as Hi.
    + exists (Some x). split; [done|]. split; [by left|]. eauto.
    + destruct IH as (r & Hr & Hspec); [intros; apply Hall; by right|].
      exists r. split; [done|]. destruct r as [p|].
      * destruct Hspec. split; [by right|done].
      * intros p it' [->|Hp]%elem_of_cons Hit'; [congruence|]. eauto.
Qed.

Lemma wf_refcount_range w p it :
  wf w → load_item (st w) p = Some it → 0 < RefCount it ≤ LONG_MAX.
Proof.
  intros Hwf Hit. destruct (wf_item w Hwf p it Hit) as (_ & _ & _ & Hrc & Hpos).
  pose proof (outstanding_bounds (ItemBuffer it + sizeof_ITEM_BUFFER) (borrowed w)).
  pose proof (wf_borrows w Hwf). unfold resident in Hrc. case_decide; lia.
Qed.

Lemma wf_hash_index w i :
  wf w → is_UINT64 i →
  hash_index (MetaCache (st w)) i = Some (i mod ItemBucketCount (MetaCache (st w))) ∧
  ∃ chain, ItemBuckets (MetaCache (st w))
             !! Z.to_nat (i mod ItemBucketCount (MetaCache (st w))) = Some chain.
Proof.
  intros Hwf Hi. destruct (wf_bucket_count w Hwf) as [Hn Hlen].
  pose proof (Z.mod_pos_bound i (ItemBucketCount (MetaCache (st w)))) as Hm.
  unfold hash_index. rewrite decide_False by lia. split.
  - f_equal. apply to_ULONG_id. unfold is_ULONG. lia.
  - apply lookup_lt_is_Some. rewrite Hlen. lia.
Qed.

Lemma wf_chain_items w (i : nat) chain :
  wf w → ItemBuckets (MetaCache (st w)) !! i = Some chain →
  ∀ p, p ∈ chain → is_Some (load_item (st w) p).
Proof.
  intros Hwf Hi p Hp. destruct (wf_chain w Hwf i chain p Hi Hp) as (it & Hit & _).
  eauto.
Qed.

Lemma wf_chain_resident w (i : nat) chain p :
  wf w → ItemBuckets (MetaCache (st w)) !! i = Some chain → p ∈ chain →
  p ∈ ItemList (MetaCache (st w)).
Proof.
  intros Hwf Hi Hp. rewrite <- (wf_buckets w Hwf).
  apply elem_of_concat_lookup. eauto.
Qed.

(** Unlinking and releasing the item at [p], as both invalidation paths do
    it. *)
Lemma evict_Some w p it chain :
  wf w → p ∈ ItemList (MetaCache (st w)) →
  load_item (st w) p = Some it →
  ItemBuckets (MetaCache (st w))
    !! Z.to_nat (ItemIndex it mod ItemBucketCount (MetaCache (st w))) = Some chain →
  let s := KeAcquireSpinLock (st w) in
  let HashIndex := ItemIndex it mod ItemBucketCount (MetaCache (st w)) in
  let c := set_bucket HashIndex (unlink p chain) (MetaCache s) in
  let c := set_list (unlink p (ItemList c)) (to_ULONG (ItemCount c - 1)) c in
  MetaCacheDereferenceItem p (KeReleaseSpinLock (set_cache c s)) =
    Some (evicted p it chain (st w)).
Proof.
  intros Hwf Hin Hit Hchain. simpl.
  destruct (wf_item_buffer w p it Hwf Hit) as [Hbuf Hne].
  rewrite (MetaCacheDereferenceItem_Some p it); simpl; try done.
  - unfold evicted, set_list, set_bucket. simpl.
    rewrite to_ULONG_id, <- !app_assoc; [done|].
    destruct (wf_count w Hwf) as [Hc Hcap]. pose proof (wf_capacity w Hwf) as Hr.
    apply list_elem_of_lookup in Hin as [j Hj]. apply lookup_lt_Some in Hj.
    unfold is_ULONG in *. lia.
  - by eapply wf_refcount_range.
Qed.

(** [MetaCacheInvalidateItems_pass] on a well-formed cache. *)
Lemma MetaCacheInvalidateItems_pass_Some w t :
  wf w →
  match ItemList (MetaCache (st w)) with
  | [] =>
      MetaCacheInvalidateItems_pass t (st w) =
        Some (KeReleaseSpinLock (KeAcquireSpinLock (st w)), false)
  | p :: _ =>
      ∃ it chain,
        load_item (st w) p = Some it ∧
        ItemBuckets (MetaCache (st w))
          !! Z.to_nat (ItemIndex it mod ItemBucketCount (MetaCache (st w))) = Some chain ∧
        MetaCacheInvalidateItems_pass t (st w) =
          Some (if decide (ExpirationTime it ≤ t)
                then (evicted p it chain (st w), true)
                else (KeReleaseSpinLock (KeAcquireSpinLock (st w)), false))
  end.
Proof.
  intros Hwf. unfold MetaCacheInvalidateItems_pass. simpl.
  destruct (ItemList (MetaCache (st w))) as [|p l] eqn:Hl; [done|].
  assert (Hin : p ∈ ItemList (MetaCache (st w))) by (rewrite Hl; by left).
  destruct (wf_resident_chain w p Hwf Hin) as (it & chain & Hit & Hchain & Hpc).
  exists it, chain. split_and!; try done.
  assert (load_item (KeAcquireSpinLock (st w)) p = Some it) as -> by done.
  simpl. case_decide as Hexp; [|done].
  destruct (wf_item w Hwf p it Hit) as (_ & Hidx & _).
  destruct (wf_hash_index w (ItemIndex it) Hwf Hidx) as [Hh _].
  rewrite Hh. simpl. unfold bucket. rewrite Hchain. simpl.
  pose proof (evict_Some w p it chain Hwf Hin Hit Hchain) as He. simpl in He.
  rewrite Hl in He. simpl in He. rewrite He. done.
Qed.

(** [MetaCacheInvalidateItem] on a well-formed cache: a miss, or the first
    item of the bucket with the index leaves. *)
Lemma MetaCacheInvalidateItem_Some w i :
  wf w → is_UINT64 i →
  (MetaCacheInvalidateItem i (st w) =
     Some (KeReleaseSpinLock (KeAcquireSpinLock (st w))) ∧
   ∀ p it, p ∈ ItemList (MetaCache (st w)) → load_item (st w) p = Some it →
           ItemIndex it ≠ i) ∨
  (∃ p it chain,
     p ∈ ItemList (MetaCache (st w)) ∧
     load_item (st w) p = Some it ∧ ItemIndex it = i ∧
     ItemBuckets (MetaCache (st w))
       !! Z.to_nat (ItemIndex it mod ItemBucketCount (MetaCache (st w))) = Some chain ∧
     MetaCacheInvalidateItem i (st w) = Some (evicted p it chain (st w))).
Proof.
  intros Hwf Hi. unfold MetaCacheInvalidateItem.
  destruct (wf_hash_index w i Hwf Hi) as [Hh [chain Hchain]].
  simpl. rewrite Hh. simpl. unfold bucket. rewrite Hchain. simpl.
  rewrite (bucket_find_pool _ (st w)) by done.
  destruct (bucket_find_spec (st w) i chain (wf_chain_items w _ chain Hwf Hchain))
    as (r & -> & Hr).
  simpl. destruct r as [p|].
  - destruct Hr as (Hpc & it & Hit & Hidx). right. exists p, it, chain.
    pose proof (wf_chain_resident w _ chain p Hwf Hchain Hpc) as Hin.
    rewrite Hidx. split_and!; try done.
    rewrite decide_True.
    + pose proof (evict_Some w p it chain Hwf Hin Hit) as He. simpl in He.
      rewrite Hidx in He. by apply He.
    + apply load_item_Some in Hit.
      assert (0 < p) by (apply (wf_address w Hwf); rewrite Hit; eauto). lia.
  - left. split; [done|]. intros p it Hin Hit Hidx.
    destruct (wf_resident_chain w p Hwf Hin) as (it' & chain' & Hit' & Hchain' & Hpc).
    rewrite Hit in Hit'. injection Hit' as <-. rewrite Hidx in Hchain'.
    rewrite Hchain in Hchain'. injection Hchain' as <-.
    exact (Hr p it Hpc Hit Hidx).
Qed.

(** ** What a call does to the items that exist *)

Lemma survives_refl h : survives h h.
Proof. intros p [] b Hp Hb. right. eauto. Qed.

Lemma no_alloc_refl h : no_alloc h h.
Proof. by intros x. Qed.

Lemma survives_trans h1 h2 h3 :
  survives h1 h2 → no_alloc h2 h3 → survives h2 h3 → survives h1 h3.
Proof.
  intros H12 Hn H23 p it b Hp Hb.
  destruct (H12 p it b Hp Hb) as [[Hp2 Hb2]|(rc & Hp2 & Hb2)].
  - left. split; by apply Hn.
  - destruct (H23 p _ b Hp2 Hb2) as [?|(rc' & Hp3 & Hb3)]; [by left|].
    right. eauto.
Qed.

Lemma no_alloc_trans h1 h2 h3 : no_alloc h1 h2 → no_alloc h2 h3 → no_alloc h1 h3.
Proof. intros H12 H23 x Hx. eauto. Qed.

Lemma released_no_alloc p it h :
  is_Some (h !! p) → no_alloc h (released p it h).
Proof.
  intros [v Hv] x Hx. rewrite lookup_released.
  repeat case_decide; simplify_eq; done.
Qed.

Lemma released_survives w p it :
  wf w → load_item (st w) p = Some it →
  survives (Pool (st w)) (released p it (Pool (st w))).
Proof.
  intros Hwf Hit p' it' b' Hp' Hb'. rewrite !lookup_released.
  apply load_item_Some in Hp'. apply load_buffer_Some in Hb'.
  destruct (wf_item w Hwf p it Hit) as ((b & Hb & Hbp) & _).
  destruct (wf_buffer w Hwf _ b' Hb') as ((it0 & Hit0 & Hbuf0) & _).
  destruct (wf_item w Hwf p' it' Hp') as ((b0 & Hb0 & Hbp0) & _).
  rewrite Hb' in Hb0. injection Hb0 as <-.
  assert (p' ≠ ItemBuffer it) by (intros ->; exact (block_item_buffer _ _ _ _ Hp' Hb)).
  assert (ItemBuffer it' ≠ p) by (intros Heq; rewrite Heq in Hb';
                                    exact (block_item_buffer _ _ _ _ Hit Hb')).
  apply load_buffer_Some in Hb'.
  destruct (decide (p' = p)) as [->|Hne].
  - rewrite Hit in Hp'. injection Hp' as <-.
    destruct (decide (RefCount it = 1)).
    + left. rewrite !decide_True by auto. done.
    + right. rewrite decide_False by done. eauto.
  - assert (ItemBuffer it' ≠ ItemBuffer it).
    { intros Heq. rewrite Heq in Hb'. apply load_buffer_Some in Hb'. congruence. }
    right. exists (RefCount it'). apply load_item_Some in Hp'. destruct it'. simpl in *.
    pool_cases.
Qed.

(** ** The loop of [MetaCacheInvalidateItems] *)

Lemma MetaCacheInvalidateItems_loop_Some t clk (fuel : nat) : ∀ w,
  wf w → (length (ItemList (MetaCache (st w))) < fuel)%nat →
  ∃ s', MetaCacheInvalidateItems_loop fuel t (st w) = Some s' ∧
        wf (mkWorld s' (borrowed w) clk) ∧
        swept t (st w) s'.
Proof.
  induction fuel as [|fuel IH]; intros w Hwf Hlen; [lia|].
  simpl. pose proof (MetaCacheInvalidateItems_pass_Some w t Hwf) as Hpass.
  destruct (ItemList (MetaCache (st w))) as [|p l] eqn:Hl.
  - rewrite Hpass. simpl. eexists. split; [done|]. split.
    + destruct Hwf. split; done.
    + split; simpl; rewrite ?Hl; try done.
      * by exists 0%nat.
      * apply survives_refl.
      * apply no_alloc_refl.
  - destruct Hpass as (it & chain & Hit & Hchain & ->).
    assert (Hin : p ∈ ItemList (MetaCache (st w))) by (rewrite Hl; by left).
    case_decide as Hexp; simpl.
    + pose proof (wf_evicted w p it chain clk Hwf Hin Hit Hchain) as Hwf'.
      destruct (IH _ Hwf') as (s' & Hs' & Hwf'' & Hsw).
      { simpl. rewrite Hl, unlink_head. simpl in Hlen. lia. }
      simpl in Hs'. exists s'. split; [done|]. split; [done|].
      destruct Hsw as [? ? ? ? [k Hk] ? ? ?]. simpl in *.
      split; try done.
      * exists (S k). rewrite Hk, Hl, unlink_head. done.
      * eapply survives_trans; [by apply released_survives|done..].
      * eapply no_alloc_trans; [|done]. apply released_no_alloc.
        apply load_item_Some in Hit. rewrite Hit. eauto.
    + eexists. split; [done|]. split.
      * destruct Hwf. split; done.
      * split; simpl; rewrite ?Hl; try done.
        -- by exists 0%nat.
        -- apply survives_refl.
        -- apply no_alloc_refl.
        -- exists it. split; [done|lia].
Qed.

(** More passes than needed change nothing. *)
Lemma MetaCacheInvalidateItems_loop_fuel t (fuel : nat) : ∀ s s',
  MetaCacheInvalidateItems_loop fuel t s = Some s' →
  MetaCacheInvalidateItems_loop (S fuel) t s = Some s'.
Proof.
  induction fuel as [|fuel IH]; intros s s' Hs; [done|].
  remember (S fuel) as n. simpl. subst n. simpl in Hs.
  destruct (MetaCacheInvalidateItems_pass t s) as [[s1 again]|]; [|done].
  simpl in *. destruct again; [|done]. by apply IH.
Qed.

Lemma MetaCacheInvalidateItems_Some t clk w :
  wf w →
  ∃ s', MetaCacheInvalidateItems t (st w) = Some s' ∧
        wf (mkWorld s' (borrowed w) clk) ∧
        swept t (st w) s'.
Proof.
  intros Hwf. apply MetaCacheInvalidateItems_loop_Some; [done|lia].
Qed.

(** ** [MetaCacheReferenceItemBuffer] and [MetaCacheDereferenceItemBuffer] *)

Lemma MetaCacheReferenceItemBuffer_found w i PSize chain p it b :
  wf w → is_UINT64 i → RefCount it < LONG_MAX →
  ItemBuckets (MetaCache (st w))
    !! Z.to_nat (i mod ItemBucketCount (MetaCache (st w))) = Some chain →
  bucket_find (st w) i chain = Some (Some p) →
  load_item (st w) p = Some it →
  load_buffer (st w) (ItemBuffer it) = Some b →
  MetaCacheReferenceItemBuffer i PSize (st w) =
    Some (referenced p it (st w),
          mkReferenceResult (ItemBuffer it + sizeof_ITEM_BUFFER)
            (PSize_store PSize (Size b))).
Proof.
  intros Hwf Hi Hlen Hchain Hfind Hit Hb.
  unfold MetaCacheReferenceItemBuffer. simpl.
  destruct (wf_hash_index w i Hwf Hi) as [-> _]. simpl.
  unfold bucket. rewrite Hchain. simpl.
  rewrite (bucket_find_pool _ (st w)) by done. rewrite Hfind. simpl.
  assert (load_item (KeAcquireSpinLock (st w)) p = Some it) as -> by done.
  simpl. rewrite store_Some by (simpl; apply load_item_Some in Hit; rewrite Hit; eauto).
  simpl. rewrite decide_False.
  2:{ apply load_item_Some in Hit.
      assert (0 < p) by (apply (wf_address w Hwf); rewrite Hit; eauto). lia. }
  destruct (wf_item w Hwf p it Hit) as (_ & _ & _ & _ & Hpos).
  rewrite to_LONG_id by (unfold LONG_MAX in *; lia).
  unfold load_item at 1. simpl. rewrite lookup_insert_eq. simpl.
  destruct (wf_item_buffer w p it Hwf Hit) as [_ Hne].
  unfold load_buffer. simpl. rewrite lookup_insert_ne by done.
  apply load_buffer_Some in Hb. rewrite Hb. simpl.
  unfold referenced, KeReleaseSpinLock, KeAcquireSpinLock, emit, set_pool. simpl.
  by rewrite <- app_assoc.
Qed.

Lemma MetaCacheReferenceItemBuffer_Some w i PSize :
  wf w → is_UINT64 i → Z.of_nat (length (borrowed w)) < LONG_MAX - 1 →
  (MetaCacheReferenceItemBuffer i PSize (st w) =
     Some (KeReleaseSpinLock (KeAcquireSpinLock (st w)),
           mkReferenceResult 0 (PSize_store PSize 0)) ∧
   ∀ p it, p ∈ ItemList (MetaCache (st w)) → load_item (st w) p = Some it →
           ItemIndex it ≠ i) ∨
  (∃ p it b,
     p ∈ ItemList (MetaCache (st w)) ∧
     load_item (st w) p = Some it ∧ ItemIndex it = i ∧
     load_buffer (st w) (ItemBuffer it) = Some b ∧
     MetaCacheReferenceItemBuffer i PSize (st w) =
       Some (referenced p it (st w),
             mkReferenceResult (ItemBuffer it + sizeof_ITEM_BUFFER)
               (PSize_store PSize (Size b)))).
Proof.
  intros Hwf Hi Hlen.
  destruct (wf_hash_index w i Hwf Hi) as [Hh [chain Hchain]].
  destruct (bucket_find_spec (st w) i chain (wf_chain_items w _ chain Hwf Hchain))
    as (r & Hfind & Hr).
  destruct r as [p|].
  - destruct Hr as (Hpc & it & Hit & Hidx). right.
    destruct (wf_item w Hwf p it Hit) as ((b & Hb & _) & _).
    exists p, it, b. split_and!; try done.
    + by eapply wf_chain_resident.
    + eapply MetaCacheReferenceItemBuffer_found; try done.
      destruct (wf_item w Hwf p it Hit) as (_ & _ & _ & Hrc & _).
      pose proof (outstanding_bounds (ItemBuffer it + sizeof_ITEM_BUFFER) (borrowed w)).
      unfold resident in Hrc. case_decide; lia.
  - left. split.
    + unfold MetaCacheReferenceItemBuffer. simpl. rewrite Hh. simpl.
      unfold bucket. rewrite Hchain. simpl.
      rewrite (bucket_find_pool _ (st w)) by done. rewrite Hfind. simpl. done.
    + intros p it Hin Hit Hidx.
      destruct (wf_resident_chain w p Hwf Hin) as (it' & chain' & Hit' & Hchain' & Hpc).
      rewrite Hit in Hit'. injection Hit' as <-. rewrite Hidx in Hchain'.
      rewrite Hchain in Hchain'. injection Hchain' as <-.
      exact (Hr p it Hpc Hit Hidx).
Qed.

Lemma MetaCacheDereferenceItemBuffer_Some w q :
  wf w → q ∈ borrowed w →
  ∃ b it,
    load_buffer (st w) (q - sizeof_ITEM_BUFFER) = Some b ∧
    load_item (st w) (Item b) = Some it ∧
    ItemBuffer it = q - sizeof_ITEM_BUFFER ∧
    MetaCacheDereferenceItemBuffer q (st w) = Some (returned b it (st w)).
Proof.
  intros Hwf Hq.
  destruct (wf_borrowed_item w q Hwf Hq) as (b & it & Hb & Hit & Hbuf).
  exists b, it. split_and!; try done.
  unfold MetaCacheDereferenceItemBuffer. rewrite Hb. simpl.
  destruct (wf_item_buffer w _ it Hwf Hit) as [Hbuf' Hne].
  rewrite (MetaCacheDereferenceItem_Some _ it); try done.
  by eapply wf_refcount_range.
Qed.

(** ** [MetaCacheAddItem] *)

Lemma to_SIZE_T_size z : is_ULONG z → to_SIZE_T (sizeof_ITEM_BUFFER + z) = sizeof_ITEM_BUFFER + z.
Proof.
  unfold is_ULONG, ULONG_MAX, to_SIZE_T, sizeof_ITEM_BUFFER. intros.
  apply Z.mod_small. lia.
Qed.

Lemma MetaCacheAddItem_Some w a :
  wf w → admissible w (Add a) →
  ∃ chain,
    ItemBuckets (MetaCache (st w))
      !! Z.to_nat (next_index (MetaItemIndex (MetaCache (st w)))
                   mod ItemBucketCount (MetaCache (st w))) = Some chain ∧
    MetaCacheAddItem a (st w) = Some (add_outcome a chain (st w)).
Proof.
  intros Hwf (Hsz & Hbuf & Hfp & Hfq & Hpq & Hnow & Hclk).
  destruct (wf_hash_index w _ Hwf (next_index_range (MetaItemIndex (MetaCache (st w)))))
    as [Hh [chain Hchain]].
  exists chain. split; [done|].
  unfold MetaCacheAddItem, MetaCacheAddItem_prepare, add_outcome.
  rewrite to_SIZE_T_size by done.
  destruct (decide (ItemSizeMax (MetaCache (st w)) < sizeof_ITEM_BUFFER + add_Size a));
    [done|].
  destruct a as [data size p q now]. simpl in *.
  destruct (decide (p = 0)) as [->|Hp0].
  { rewrite decide_True by done. done. }
  rewrite decide_False by lia.
  destruct Hfp as [?|[Hp Hfp]]; [done|].
  unfold FspAllocNonPaged. rewrite (decide_False (P := p = 0)) by done.
  destruct (decide (q = 0)) as [->|Hq0].
  { rewrite decide_True by done. unfold FspAlloc. rewrite decide_True by done.
    rewrite FspFree_Some by (simpl; rewrite lookup_insert_eq; eauto).
    simpl. unfold traced. rewrite <- !app_assoc. simpl.
    by rewrite delete_insert_id. }
  rewrite decide_False by lia.
  destruct Hfq as [?|[Hq Hfq]]; [done|]. specialize (Hpq Hp0).
  unfold FspAlloc. rewrite (decide_False (P := q = 0)) by done.
  rewrite store_Some by (simpl; rewrite lookup_insert_ne by done;
                         rewrite lookup_insert_eq; eauto).
  simpl. rewrite decide_True by done.
  rewrite store_Some by (simpl; rewrite lookup_insert_ne by done;
                         rewrite lookup_insert_eq; eauto).
  simpl. unfold MetaCacheAddItem_insert. simpl.
  assert (length (take (Z.to_nat size) data) = Z.to_nat size) as Hlen.
  { rewrite length_take. unfold is_ULONG in Hsz. lia. }
  destruct (decide (ItemCount (MetaCache (st w)) < MetaCapacity (MetaCache (st w))))
    as [Hcap|Hcap].
  - rewrite bool_decide_eq_true_2 by done.
    unfold load_item at 1. simpl. rewrite lookup_insert_ne by done.
    rewrite lookup_insert_eq. simpl.
    rewrite store_Some by (simpl; rewrite lookup_insert_ne by done;
                           rewrite lookup_insert_eq; eauto).
    simpl. fold (next_index (MetaItemIndex (MetaCache (st w)))).
    unfold hash_index in *. simpl. destruct (decide _); [done|].
    injection Hh as ->. simpl. unfold bucket. simpl. rewrite Hchain. simpl.
    unfold added, set_list, set_bucket, set_index, KeReleaseSpinLock,
      KeAcquireSpinLock, emit. simpl.
    rewrite Hlen, Z2Nat.id by (unfold is_ULONG in Hsz; lia).
    rewrite <- !app_assoc. simpl. do 3 f_equal.
    + f_equal. apply to_ULONG_id.
      destruct (wf_count w Hwf) as [Hc _]. pose proof (wf_capacity w Hwf).
      unfold is_ULONG in *. lia.
    + apply map_eq. intros x. rewrite !lookup_insert.
      repeat case_decide; simplify_eq; done.
  - rewrite bool_decide_eq_false_2 by done.
    rewrite FspFree_Some by (simpl; rewrite lookup_insert_eq; eauto).
    simpl. rewrite FspFree_Some.
    2:{ simpl. rewrite lookup_delete_ne by done. rewrite lookup_insert_ne by done.
        rewrite lookup_insert_eq. eauto. }
    unfold traced, KeReleaseSpinLock, KeAcquireSpinLock, emit. simpl.
    rewrite <- !app_assoc. simpl. do 3 f_equal.
    apply map_eq. intros x. rewrite !lookup_delete, !lookup_insert.
    repeat case_decide; simplify_eq; done.
Qed.

(** ** Every call keeps the invariant *)

(** The invariant does not look at the trace or at the clock. *)
Lemma wf_frame w s bs clk :
  MetaCache s = MetaCache (st w) → Pool s = Pool (st w) → bs = borrowed w →
  wf w → wf (mkWorld s bs clk).
Proof.
  destruct w as [[c h tr] bs' clk'], s as [c' h' tr']. simpl.
  intros -> -> -> [? ? ? ? ? ? ? ? ? ? ? ? ? ?]. split; done.
Qed.

Lemma referenced_survives w p it :
  wf w → load_item (st w) p = Some it →
  survives (Pool (st w)) (Pool (referenced p it (st w))).
Proof.
  intros Hwf Hit p' it' b' Hp' Hb'. right. simpl.
  destruct (wf_item_buffer w p it Hwf Hit) as [_ Hne].
  assert (ItemBuffer it' ≠ p).
  { intros Heq. rewrite Heq in Hb'. apply load_item_Some in Hit. congruence. }
  rewrite (lookup_insert_ne _ p (ItemBuffer it')) by done.
  destruct (decide (p' = p)) as [->|Hne'].
  - apply load_item_Some in Hit. rewrite Hit in Hp'. injection Hp' as <-.
    rewrite lookup_insert_eq. eauto.
  - rewrite lookup_insert_ne by done. exists (RefCount it'). by destruct it'.
Qed.

Lemma added_survives p q data exp chain events s :
  Pool s !! p = None → Pool s !! q = None →
  survives (Pool s) (Pool (added p q data exp chain events s)).
Proof.
  intros Hp Hq p' it' b' Hp' Hb'. right. simpl. exists (RefCount it').
  rewrite !lookup_insert_ne by congruence. by destruct it'.
Qed.

Lemma unlink_sublist p (l : list Z) : unlink p l `sublist_of` l.
Proof.
  induction l as [|x l IH]; simpl; [done|].
  case_decide; [by apply sublist_cons|by apply sublist_skip].
Qed.

Theorem exec_spec w c :
  wf w → admissible w c →
  ∃ w' r, exec c w = Some (w', r) ∧ wf w' ∧
          survives (Pool (st w)) (Pool (st w')) ∧
          MetaTimeout (MetaCache (st w')) = MetaTimeout (MetaCache (st w)) ∧
          list_step w c w' r.
Proof.
  intros Hwf Hadm. destruct c as [a|i PSize|q|i|now|]; simpl in *.
  - destruct (MetaCacheAddItem_Some w a Hwf Hadm) as (chain & Hchain & ->). simpl.
    destruct (add_outcome a chain (st w)) as [s h] eqn:Hout. simpl.
    do 2 eexists. split; [reflexivity|]. simpl.
    destruct Hadm as (Hsz & Hbuf & Hfp & Hfq & Hpq & Hnow & Hclk).
    unfold add_outcome in Hout.
    repeat case_decide; injection Hout as <- <-;
      try (split_and!; [by apply (wf_frame w)|apply survives_refl|done|
                        right; split; [done|by intros ? [= <-]]]).
    destruct Hfp as [?|[Hp Hfp]]; [done|]. destruct Hfq as [?|[Hq Hfq]]; [done|].
    split_and!; [|by apply added_survives|done|].
    + apply wf_added; try done.
      * intros Heq. by apply Hpq.
      * rewrite length_take. unfold is_ULONG in *. lia.
      * apply to_UINT64_range.
    + left. eexists a, (add_alloc_Item a), (mkItem _ _ _ _). split_and!; try done.
      * pose proof (next_index_range (MetaItemIndex (MetaCache (st w)))).
        intros [= Heq]. revert Heq. unfold next_index. case_decide; [done|].
        rewrite to_UINT64_minus_1 in *. pose proof (wf_index w Hwf) as Hi.
        rewrite to_UINT64_id; unfold is_UINT64, UINT64_MAX in *; lia.
      * apply load_item_Some. simpl. apply lookup_insert_eq.
  - destruct Hadm as [Hi Hlen].
    destruct (MetaCacheReferenceItemBuffer_Some w i PSize Hwf Hi Hlen)
      as [[-> _]|(p & it & b & Hin & Hit & Hidx & Hb & ->)]; simpl.
    + do 2 eexists. split; [reflexivity|]. simpl.
      split_and!; [by apply (wf_frame w)|apply survives_refl|done|by right].
    + do 2 eexists. split; [reflexivity|]. simpl.
      apply load_buffer_Some in Hb.
      assert (0 < ItemBuffer it) by (apply (wf_address w Hwf); rewrite Hb; eauto).
      rewrite decide_False by (unfold sizeof_ITEM_BUFFER; lia).
      split_and!; [by apply wf_referenced|by apply referenced_survives|done|by right].
  - destruct (MetaCacheDereferenceItemBuffer_Some w q Hwf Hadm)
      as (b & it & Hb & Hit & Hbuf & ->). simpl.
    do 2 eexists. split; [reflexivity|]. simpl.
    split_and!; [by apply wf_returned|by apply released_survives|done|by right].
  - destruct (MetaCacheInvalidateItem_Some w i Hwf Hadm)
      as [[-> _]|(p & it & chain & Hin & Hit & Hidx & Hchain & ->)]; simpl.
    + do 2 eexists. split; [reflexivity|]. simpl.
      split_and!; [by apply (wf_frame w)|apply survives_refl|done|by right].
    + do 2 eexists. split; [reflexivity|]. simpl.
      split_and!; [by apply wf_evicted|by apply released_survives|done|].
      right. split; [apply unlink_sublist|done].
  - destruct (MetaCacheInvalidateItems_Some now now w Hwf) as (s' & Hs' & Hwf' & Hsw).
    unfold MetaCacheInvalidateExpired. rewrite Hs'. simpl.
    do 2 eexists. split; [reflexivity|]. simpl.
    destruct Hsw as [? ? ? ? [k Hk] ? ? ?].
    split_and!; try done. right. split; [|done]. simpl. rewrite Hk. apply sublist_drop.
  - destruct (MetaCacheInvalidateItems_Some (to_UINT64 (-1)) (clock w) w Hwf)
      as (s' & Hs' & Hwf' & Hsw).
    unfold MetaCacheInvalidateAll. rewrite Hs'. simpl.
    do 2 eexists. split; [reflexivity|]. simpl.
    destruct Hsw as [? ? ? ? [k Hk] ? ? ?].
    split_and!; try done. right. split; [|done]. simpl. rewrite Hk. apply sublist_drop.
Qed.

Theorem exec_wf w c :
  wf w → admissible w c →
  ∃ w' r, exec c w = Some (w', r) ∧ wf w' ∧
          survives (Pool (st w)) (Pool (st w')).
Proof.
  intros Hwf Hadm.
  destruct (exec_spec w c Hwf Hadm) as (w' & r & ? & ? & ? & _). eauto.
Qed.

Lemma create_wf sizeof_MetaCache cap max tmo alloc w :
  admissible_create sizeof_MetaCache cap max tmo →
  create sizeof_MetaCache cap max tmo alloc = Some w → wf w.
Proof.
  intros (Hsz & Hcap & Hmax & Htmo). unfold create, MetaCacheCreate.
  case_decide; simpl; [done|]. intros [= <-].
  assert (1 ≤ to_ULONG (to_SIZE_T (PAGE_SIZE - sizeof_MetaCache) / 8) ≤ 512) as Hn.
  { unfold to_ULONG, to_SIZE_T, PAGE_SIZE in *.
    rewrite (Z.mod_small (4096 - sizeof_MetaCache)) by lia.
    assert (1 ≤ (4096 - sizeof_MetaCache) / 8 ≤ 512).
    { split; [apply Z.div_le_lower_bound|apply Z.div_le_upper_bound]; lia. }
    rewrite Z.mod_small; lia. }
  split; simpl; try done.
  - apply to_UINT64_range.
  - rewrite length_replicate. unfold ULONG_MAX. lia.
  - unfold is_ULONG in Hcap. lia.
  - apply NoDup_nil_2.
  - replace (concat _) with (@nil Z); [done|].
    induction (Z.to_nat _) as [|k IH]; simpl; done.
  - intros i chain p [-> _]%lookup_replicate ?%elem_of_nil. done.
  - intros p [v Hv]. by rewrite lookup_empty in Hv.
  - intros q ?%elem_of_nil. done.
Qed.

Theorem reachable_under_wf P w : reachable_under P w → wf w.
Proof.
  induction 1 as [? ? ? ? ? w Hadm Hc|w c w' r _ IH Hadm _ Hexec].
  - by eapply create_wf.
  - destruct (exec_wf w c IH Hadm) as (w'' & r' & Hexec' & Hwf' & _).
    rewrite Hexec in Hexec'. by injection Hexec' as <- <-.
Qed.

Lemma reachable_under_weaken P w : reachable_under P w → reachable w.
Proof.
  induction 1; [by eapply reachable_create|by eapply reachable_exec].
Qed.

(** * The properties of the specification *)

Lemma example_world_reachable capacity :
  is_ULONG capacity → reachable (example_world capacity).
Proof.
  intros Hcap. apply (reachable_create _ 56 capacity 4096 100 4096).
  - unfold admissible_create. in_range.
  - reflexivity.
Qed.

Lemma example_add_admissible capacity data p now :
  is_ULONG (Z.of_nat (length data)) → 0 < p → is_UINT64 now →
  admissible (example_world capacity) (Add (example_add data p now)).
Proof.
  intros Hlen Hp Hnow. unfold is_UINT64 in Hnow. simpl. split_and!; try done; try lia.
  - right. split; [done|]. apply lookup_empty.
  - right. split; [lia|]. apply lookup_empty.
Qed.

(** ** Insertion that is refused *)

(** C3: when [Size] plus the size of the buffer header exceeds
    [ItemSizeMax], [MetaCacheAddItem] returns 0 at once: the state it leaves
    is the state it found, trace included, so nothing was allocated and
    nothing of the cache changed. *)
Theorem C3_add_too_large (a : add_args) (s : state) :
  is_ULONG (add_Size a) →
  ItemSizeMax (MetaCache s) < add_Size a + sizeof_ITEM_BUFFER →
  MetaCacheAddItem a s = Some (s, 0).
Proof.
  intros Hsz Hbig. unfold MetaCacheAddItem, MetaCacheAddItem_prepare.
  rewrite to_SIZE_T_size by done. rewrite decide_True by lia. done.
Qed.

Lemma C3_add_too_large_witness :
  MetaCacheAddItem (example_add (replicate 5000 "a"%byte) 1000 0)
    (st (example_world 3)) = Some (st (example_world 3), 0).
Proof.
  apply C3_add_too_large.
  - unfold is_ULONG, ULONG_MAX. simpl. lia.
  - simpl. unfold sizeof_ITEM_BUFFER. lia.
Defined.

Lemma next_index_pos i : is_UINT64 i → 0 < next_index i.
Proof.
  unfold next_index, is_UINT64, UINT64_MAX. intros Hi.
  case_decide as Hd; [lia|]. rewrite to_UINT64_minus_1 in Hd.
  rewrite to_UINT64_id; unfold is_UINT64, UINT64_MAX in *; lia.
Qed.

(** C4: when [ItemCount] equals [MetaCapacity], the size check passes and
    both allocations succeed, [MetaCacheAddItem] returns 0, and the item and
    its buffer, allocated before the spin lock was taken, are freed after it
    was released. *)
Theorem C4_add_full w a :
  reachable w → admissible w (Add a) →
  add_Size a + sizeof_ITEM_BUFFER ≤ ItemSizeMax (MetaCache (st w)) →
  add_alloc_Item a ≠ 0 → add_alloc_ItemBuffer a ≠ 0 →
  ItemCount (MetaCache (st w)) = MetaCapacity (MetaCache (st w)) →
  ∃ s',
    MetaCacheAddItem a (st w) = Some (s', 0) ∧
    Trace s' = Trace (st w) ++
      [EvAllocNonPaged sizeof_ITEM (add_alloc_Item a);
       EvAlloc (sizeof_ITEM_BUFFER + add_Size a) (add_alloc_ItemBuffer a);
       EvAcquireSpinLock; EvReleaseSpinLock;
       EvFree (add_alloc_ItemBuffer a); EvFree (add_alloc_Item a)] ∧
    Pool s' !! add_alloc_Item a = None ∧
    Pool s' !! add_alloc_ItemBuffer a = None ∧
    Pool s' = Pool (st w) ∧ MetaCache s' = MetaCache (st w).
Proof.
  intros Hr Hadm Hsize Hp Hq Hfull.
  pose proof (reachable_under_wf _ w Hr) as Hwf.
  destruct (MetaCacheAddItem_Some w a Hwf Hadm) as (chain & _ & ->).
  unfold add_outcome. rewrite !decide_False by lia.
  eexists. split; [reflexivity|]. simpl.
  destruct Hadm as (_ & _ & [?|[_ Hfp]] & [?|[_ Hfq]] & _); done.
Qed.

Lemma C4_add_full_witness :
  ∃ s', MetaCacheAddItem (example_add ["a"%byte] 1000 0) (st (example_world 0))
        = Some (s', 0) ∧
        Trace s' = [EvAllocNonPaged 56 1000; EvAlloc 17 1064;
                    EvAcquireSpinLock; EvReleaseSpinLock;
                    EvFree 1064; EvFree 1000].
Proof.
  destruct (C4_add_full (example_world 0) (example_add ["a"%byte] 1000 0))
    as (s' & Hs' & Htr & _).
  - apply example_world_reachable. in_range.
  - apply example_add_admissible; in_range.
  - simpl. unfold sizeof_ITEM_BUFFER. lia.
  - simpl. lia.
  - simpl. lia.
  - reflexivity.
  - exists s'. split; [exact Hs'|exact Htr].
Defined.

(** C9: [MetaCacheAddItem] returns 0 exactly when it refuses the insertion
    (blob too large, an allocation failed, cache full), and then the cache is
    as it was: [ItemCount], [ItemList], [ItemBuckets] and [MetaItemIndex]
    with the rest of the header, and the pool as well; no index is used
    up. *)
Theorem C9_add_rejected w a s' h :
  reachable w → admissible w (Add a) →
  MetaCacheAddItem a (st w) = Some (s', h) →
  (h = 0 ↔ rejected a (st w)) ∧
  (h = 0 → MetaCache s' = MetaCache (st w) ∧ Pool s' = Pool (st w)).
Proof.
  intros Hr Hadm Hadd.
  pose proof (reachable_under_wf _ w Hr) as Hwf.
  destruct (MetaCacheAddItem_Some w a Hwf Hadm) as (chain & _ & Hout).
  rewrite Hout in Hadd. injection Hadd as Hadd.
  pose proof (next_index_pos _ (wf_index w Hwf)) as Hpos.
  unfold add_outcome, rejected in *.
  repeat case_decide; injection Hadd as <- <-; simpl;
    (split; [split; intros; [tauto || lia | tauto || lia] | intros; done || lia]).
Qed.

Lemma C9_add_rejected_witness :
  MetaCache (st (example_world 0)) = MetaCache (st (example_world 0)) ∧
  ∃ s', MetaCacheAddItem (example_add ["a"%byte] 1000 0) (st (example_world 0))
        = Some (s', 0) ∧ MetaCache s' = MetaCache (st (example_world 0)).
Proof.
  split; [reflexivity|].
  destruct (MetaCacheAddItem (example_add ["a"%byte] 1000 0) (st (example_world 0)))
    as [[s' h]|] eqn:Hadd; [|discriminate Hadd].
  assert (h = 0) as -> by (vm_compute in Hadd; congruence).
  exists s'. split; [reflexivity|].
  apply (C9_add_rejected (example_world 0) (example_add ["a"%byte] 1000 0) s' 0).
  - apply example_world_reachable. in_range.
  - apply example_add_admissible; in_range.
  - exact Hadd.
  - reflexivity.
Defined.

(** ** Allocation of indices *)

Lemma wrapped_world_wf : wf wrapped_world.
Proof.
  split; cbn -[replicate]; try done;
    try (unfold is_ULONG, is_UINT64, ULONG_MAX, UINT64_MAX, LONG_MAX; lia).
  - apply NoDup_nil_2.
  - intros i chain p [-> _]%lookup_replicate ?%elem_of_nil. done.
  - intros p [v Hv]. by rewrite lookup_empty in Hv.
  - intros q ?%elem_of_nil. done.
Qed.

(** C2: the cache is created with [ItemIndex] zero.  In a state that
    satisfies the invariant of the cache, as every reachable state does
    ([reachable_under_wf]), an insertion that is not refused returns
    [ItemIndex + 1], or 1 when [ItemIndex] is the largest [UINT64], and
    stores what it returns in [ItemIndex]; what it returns is never 0. *)
Theorem C2_index_allocation w a :
  wf w → admissible w (Add a) → ¬ rejected a (st w) →
  ∃ s' h,
    MetaCacheAddItem a (st w) = Some (s', h) ∧
    h = spec_next_handle (MetaItemIndex (MetaCache (st w))) ∧
    MetaItemIndex (MetaCache s') = h ∧
    h ≠ 0 ∧ 0 < h ≤ UINT64_MAX ∧
    (MetaItemIndex (MetaCache (st w)) = UINT64_MAX → h = 1) ∧
    (MetaItemIndex (MetaCache (st w)) < UINT64_MAX →
     h = MetaItemIndex (MetaCache (st w)) + 1) ∧
    ∀ sizeof_MetaCache cap max tmo alloc w0,
      create sizeof_MetaCache cap max tmo alloc = Some w0 →
      MetaItemIndex (MetaCache (st w0)) = 0.
Proof.
  intros Hwf Hadm Hrej.
  destruct (MetaCacheAddItem_Some w a Hwf Hadm) as (chain & _ & Hout).
  pose proof (wf_index w Hwf) as Hidx.
  pose proof (next_index_pos _ Hidx) as Hpos.
  pose proof (next_index_range (MetaItemIndex (MetaCache (st w)))) as Hrange.
  assert (next_index (MetaItemIndex (MetaCache (st w))) =
          spec_next_handle (MetaItemIndex (MetaCache (st w)))) as Hspec.
  { unfold next_index, spec_next_handle. rewrite to_UINT64_minus_1.
    destruct (decide (UINT64_MAX = _)) as [<-|Hne].
    - by rewrite decide_True.
    - rewrite decide_False by done. apply to_UINT64_id.
      unfold is_UINT64 in *. lia. }
  destruct (add_outcome a chain (st w)) as [s' h] eqn:Ho.
  exists s', h. split; [exact Hout|].
  unfold add_outcome in Ho. unfold rejected in Hrej.
  repeat case_decide; injection Ho as <- <-; try (exfalso; apply Hrej; lia).
  simpl. rewrite Hspec in *. unfold is_UINT64 in Hrange.
  split_and!; try done; try lia.
  - intros Hmax. unfold spec_next_handle. by rewrite decide_True.
  - intros Hlt. unfold spec_next_handle. rewrite decide_False; lia.
  - intros sz cap max tmo alloc w0. unfold create, MetaCacheCreate.
    case_decide; simpl; [done|]. by intros [= <-].
Qed.

Lemma C2_index_allocation_witness :
  (∃ s' h,
     MetaCacheAddItem (example_add ["a"%byte] 1000 0) (st (example_world 3))
       = Some (s', h) ∧
     h = 1 ∧ MetaItemIndex (MetaCache s') = h ∧ h ≠ 0) ∧
  MetaItemIndex (MetaCache (st wrapped_world)) = UINT64_MAX ∧
  (∃ s' h,
     MetaCacheAddItem (example_add ["a"%byte] 1000 0) (st wrapped_world)
       = Some (s', h) ∧
     h = 1 ∧ MetaItemIndex (MetaCache s') = h ∧ h ≠ 0).
Proof.
  split_and!.
  - destruct (C2_index_allocation (example_world 3) (example_add ["a"%byte] 1000 0))
      as (s' & h & Hadd & _ & Hidx & Hne & _ & _ & Hnext & _).
    + apply (reachable_under_wf (λ _ _, True)). apply example_world_reachable. in_range.
    + apply example_add_admissible; in_range.
    + unfold rejected. simpl. unfold sizeof_ITEM_BUFFER. lia.
    + exists s', h. split_and!; [done| |done|done]. apply Hnext. simpl. done.
  - reflexivity.
  - destruct (C2_index_allocation wrapped_world (example_add ["a"%byte] 1000 0))
      as (s' & h & Hadd & _ & Hidx & Hne & _ & Hwrap & _).
    + exact wrapped_world_wf.
    + simpl. unfold is_ULONG, ULONG_MAX, is_UINT64, UINT64_MAX, fresh.
      split_and!; try done; try lia; right; split; try lia; apply lookup_empty.
    + unfold rejected. simpl. unfold sizeof_ITEM_BUFFER. lia.
    + exists s', h. split_and!; [done| |done|done]. by apply Hwrap.
Defined.

(** ** The size out-pointer *)

(** C10: with a null [PSize], [MetaCacheReferenceItemBuffer] makes no store
    through [PSize], and is otherwise what it is with any other [PSize]: it
    is defined for the same states, leaves the same state (so the same
    reference count) and returns the same pointer, null on a miss. *)
Theorem C10_null_PSize (ItemIndex' PSize : Z) (s : state) :
  MetaCacheReferenceItemBuffer ItemIndex' 0 s =
    (λ r : state * reference_result,
       (r.1, mkReferenceResult (ref_return r.2) None))
      <$> MetaCacheReferenceItemBuffer ItemIndex' PSize s.
Proof.
  unfold MetaCacheReferenceItemBuffer.
  destruct (hash_index _ _) as [HashIndex|]; simpl; [|done].
  destruct (bucket _ _) as [chain|]; simpl; [|done].
  destruct (bucket_find _ _ _) as [[p|]|]; simpl; [| |done].
  - destruct (load_item _ p) as [it|]; simpl; [|done].
    destruct (store _ _ _) as [s1|]; simpl; [|done].
    case_decide; simpl; [done|].
    destruct (load_item _ p) as [it1|]; simpl; [|done].
    destruct (load_buffer _ _) as [b|]; simpl; done.
  - done.
Qed.

(** ** Insertion, then reference *)

(** C7: after [MetaCacheAddItem] has returned a non-zero index [h] for a
    blob, [MetaCacheReferenceItemBuffer] of [h] returns a non-null pointer,
    stores the length of the blob through a non-null [PSize], and the bytes
    at the pointer are the bytes of the blob. *)
Theorem C7_add_then_reference w a w1 h PSize :
  reachable w → admissible w (Add a) →
  exec (Add a) w = Some (w1, RetIndex h) → h ≠ 0 →
  ∃ w2 r,
    exec (Borrow h PSize) w1 = Some (w2, RetReference r) ∧
    ref_return r ≠ 0 ∧
    ref_PSize_store r = PSize_store PSize (Z.of_nat (length (blob a))) ∧
    Z.of_nat (length (blob a)) = add_Size a ∧
    payload (st w2) (ref_return r) = Some (blob a).
Proof.
  intros Hr Hadm Hexec Hh.
  pose proof (reachable_under_wf _ w Hr) as Hwf.
  destruct (exec_wf w (Add a) Hwf Hadm) as (w1' & r' & Hexec' & Hwf1 & _).
  rewrite Hexec in Hexec'. injection Hexec' as <- <-.
  simpl in Hexec.
  destruct (MetaCacheAddItem_Some w a Hwf Hadm) as (chain & Hchain & Hout).
  rewrite Hout in Hexec. simpl in Hexec.
  destruct (add_outcome a chain (st w)) as [s1 h1] eqn:Ho. injection Hexec as <- <-.
  destruct Hadm as (Hsz & Hbuf & Hfp & Hfq & Hpq & Hnow & Hclk).
  unfold add_outcome in Ho.
  repeat case_decide; injection Ho as <- <-; try done.
  destruct Hfq as [?|[Hq Hfq]]; [done|].
  fold (blob a) in *.
  set (p := add_alloc_Item a) in *. set (q := add_alloc_ItemBuffer a) in *.
  set (i := next_index (MetaItemIndex (MetaCache (st w)))) in *.
  set (exp := to_UINT64 (add_now a + MetaTimeout (MetaCache (st w)))) in *.
  set (s1 := added _ _ _ _ _ _ _) in *.
  assert (Hi : is_UINT64 i) by apply next_index_range.
  assert (Hlen : RefCount (mkItem q i exp 1) < LONG_MAX) by (unfold LONG_MAX; simpl; lia).
  assert (Hne : p ≠ q) by (intros Heq; by apply Hpq).
  assert (Hlenb : Z.of_nat (length (blob a)) = add_Size a).
  { unfold blob. rewrite length_take. unfold is_ULONG in Hsz. lia. }
  assert (Hit : load_item s1 p = Some (mkItem q i exp 1)).
  { apply load_item_Some. simpl. apply lookup_insert_eq. }
  assert (Hb : load_buffer s1 q
               = Some (mkItemBuffer p (Z.of_nat (length (blob a))) (blob a))).
  { apply load_buffer_Some. simpl. rewrite lookup_insert_ne by done.
    apply lookup_insert_eq. }
  assert (Hq16 : q + sizeof_ITEM_BUFFER ≠ 0) by (unfold sizeof_ITEM_BUFFER; lia).
  pose proof (MetaCacheReferenceItemBuffer_found _ i PSize (p :: chain) p
                (mkItem q i exp 1)
                (mkItemBuffer p (Z.of_nat (length (blob a))) (blob a))
                Hwf1 Hi Hlen) as Href.
  cbn [st bucket_find ItemBuffer] in Href.
  rewrite Hit, Hb in Href. simpl in Href. rewrite decide_True in Href by done.
  specialize (Href (list_lookup_insert_eq _ _ _ (lookup_lt_Some _ _ _ Hchain))
                eq_refl eq_refl eq_refl).
  unfold exec. cbn [st]. rewrite Href. simpl. rewrite decide_False by done.
  do 2 eexists. split; [reflexivity|]. simpl.
  split_and!; try done.
  unfold payload. simpl.
  replace (q + sizeof_ITEM_BUFFER - sizeof_ITEM_BUFFER) with q by lia.
  unfold load_buffer. simpl.
  rewrite lookup_insert_ne by done.
  apply load_buffer_Some in Hb. simpl in Hb. rewrite Hb. done.
Qed.

Lemma C7_add_then_reference_witness :
  ∃ w1 w2 r,
    exec (Add (example_add ["z"%byte] 1000 0)) (example_world 3)
      = Some (w1, RetIndex 1) ∧
    exec (Borrow 1 8) w1 = Some (w2, RetReference r) ∧
    ref_return r ≠ 0 ∧ ref_PSize_store r = Some 1 ∧
    payload (st w2) (ref_return r) = Some ["z"%byte].
Proof.
  destruct (exec (Add (example_add ["z"%byte] 1000 0)) (example_world 3))
    as [[w1 r1]|] eqn:Hadd; [|discriminate Hadd].
  assert (r1 = RetIndex 1) as -> by (vm_compute in Hadd; congruence).
  destruct (C7_add_then_reference (example_world 3)
              (example_add ["z"%byte] 1000 0) w1 1 8)
    as (w2 & r & Hborrow & Hnz & Hsize & _ & Hbytes).
  - apply example_world_reachable. in_range.
  - apply example_add_admissible; in_range.
  - exact Hadd.
  - lia.
  - exists w1, w2, r. split_and!; try done.
Defined.

(** ** Full drain *)

(** C8: [MetaCacheInvalidateAll] is the loop of the expiry sweep run with
    the largest 64-bit tick for threshold; no item expires later than that,
    and when it returns, the cache is empty: [ItemCount] is zero, [ItemList]
    is empty and so is every bucket. *)
Theorem C8_invalidate_all w :
  reachable w →
  MetaCacheInvalidateAll (st w) = spec_InvalidateAll (st w) ∧
  (∀ p it, load_item (st w) p = Some it → ExpirationTime it ≤ UINT64_MAX) ∧
  ∃ s',
    MetaCacheInvalidateAll (st w) = Some s' ∧
    ItemCount (MetaCache s') = 0 ∧
    ItemList (MetaCache s') = [] ∧
    Forall (λ chain, chain = []) (ItemBuckets (MetaCache s')) ∧
    Z.of_nat (length (ItemBuckets (MetaCache s'))) = ItemBucketCount (MetaCache s').
Proof.
  intros Hr. pose proof (reachable_under_wf _ w Hr) as Hwf.
  split; [reflexivity|]. split.
  { intros p it Hit. destruct (wf_item w Hwf p it Hit) as (_ & _ & Hexp & _).
    apply Hexp. }
  destruct (MetaCacheInvalidateItems_Some (to_UINT64 (-1)) 0 w Hwf)
    as (s' & Hs' & Hwf' & Hsw).
  exists s'. split; [exact Hs'|].
  assert (ItemList (MetaCache s') = []) as Hnil.
  { pose proof (swept_head _ _ _ Hsw) as Hhead.
    destruct (ItemList (MetaCache s')) as [|p l]; [done|].
    destruct Hhead as (it & Hit & Hlt).
    destruct (wf_item _ Hwf' p it Hit) as (_ & _ & Hexp & _).
    rewrite to_UINT64_minus_1 in Hlt. unfold is_UINT64 in Hexp. lia. }
  destruct (wf_count _ Hwf') as [Hc _]. simpl in Hc. rewrite Hnil in Hc.
  pose proof (wf_buckets _ Hwf') as Hb. simpl in Hb. rewrite Hnil in Hb.
  apply Permutation_nil_r in Hb.
  destruct (wf_bucket_count _ Hwf') as [Hn Hlen]. simpl in Hn, Hlen.
  split_and!; try done; [|lia].
  apply Forall_forall. intros chain Hin.
  destruct chain as [|x chain]; [done|].
  assert (x ∈ concat (ItemBuckets (MetaCache s'))) as Hx.
  { apply list_elem_of_lookup in Hin as [j Hj].
    apply elem_of_concat_lookup. exists j, (x :: chain). split; [done|by left]. }
  rewrite Hb in Hx. by apply elem_of_nil in Hx.
Qed.

(** ** Counting *)

Lemma length_concat_sum (l : list (list Z)) :
  length (concat l) = sum_list (length <$> l).
Proof.
  induction l as [|x l IH]; [done|].
  rewrite fmap_cons. cbn [concat sum_list sum_list_with]. by rewrite length_app, IH.
Qed.

Lemma wf_count_matches w : wf w → count_matches (MetaCache (st w)).
Proof.
  intros Hwf. destruct (wf_count w Hwf) as [Hc _]. split; [done|].
  rewrite <- length_concat_sum, (Permutation_length (wf_buckets w Hwf)). done.
Qed.

(** C5: in every reachable state [ItemCount] is the number of items of
    [ItemList] and the total number of items in the bucket chains, and every
    call (insertion, invalidation of an item, expiry sweep, full drain,
    reference and dereference too) leads to a state where this holds. *)
Theorem C5_count w :
  reachable w →
  count_matches (MetaCache (st w)) ∧
  ∀ c, admissible w c →
    ∃ w' r, exec c w = Some (w', r) ∧ count_matches (MetaCache (st w')).
Proof.
  intros Hr. pose proof (reachable_under_wf _ w Hr) as Hwf.
  split; [by apply wf_count_matches|].
  intros c Hadm. destruct (exec_wf w c Hwf Hadm) as (w' & r & Hexec & Hwf' & _).
  exists w', r. split; [done|]. by apply wf_count_matches.
Qed.

Lemma C5_count_witness :
  count_matches (MetaCache (st (example_world 3))) ∧
  ∃ w' r, exec (Add (example_add ["a"%byte] 1000 0)) (example_world 3)
          = Some (w', r) ∧ count_matches (MetaCache (st w')).
Proof.
  destruct (C5_count (example_world 3)) as [H0 Hstep].
  - apply example_world_reachable. in_range.
  - split; [exact H0|]. apply Hstep.
    apply example_add_admissible; in_range.
Defined.

(** ** The life of an item *)

Lemma references_nonneg w p q : 0 ≤ references w p q.
Proof.
  unfold references, resident.
  pose proof (outstanding_bounds (q + sizeof_ITEM_BUFFER) (borrowed w)).
  case_decide; lia.
Qed.

(** The item that an insertion had prepared and that is refused because the
    cache is full is freed with the reference count 1 it was initialised
    with: [s2] is the state in which line 214 frees the record.  So not
    every item is freed by a reference count that drops to zero
    (counterexample to C1 as it is stated). *)
Lemma C1_counterexample :
  ∃ s1 s2 s3 it,
    MetaCacheAddItem_prepare (example_add ["a"%byte] 1000 0) (st (example_world 0))
      = Some (s1, Some (1000, 1064)) ∧
    FspFree 1064 (KeReleaseSpinLock (KeAcquireSpinLock s1)) = Some s2 ∧
    load_item s2 1000 = Some it ∧ RefCount it = 1 ∧
    FspFree 1000 s2 = Some s3 ∧
    MetaCacheAddItem_insert 1000 1064 s1 = Some (s3, 0) ∧
    Pool s3 !! 1000 = None ∧ Pool s3 !! 1064 = None.
Proof.
  do 4 eexists. split_and!.
  - vm_compute. reflexivity.
  - vm_compute. reflexivity.
  - vm_compute. reflexivity.
  - reflexivity.
  - vm_compute. reflexivity.
  - vm_compute. reflexivity.
  - vm_compute. reflexivity.
  - vm_compute. reflexivity.
Qed.

(** C1, amended: an item that is in the cache or borrowed from it counts in
    [RefCount] the list and the outstanding borrows.  A call leaves the item
    and its buffer freed exactly when it leaves no reference, and otherwise
    leaves the item, with the references for [RefCount], and the buffer with
    its bytes as they were.  So an item that left the buckets and the list
    lives on while a borrow is outstanding, and the return of the last one
    frees it. *)
Theorem C1_item_lifetime w c w' r p it b :
  reachable w → admissible w c → exec c w = Some (w', r) →
  load_item (st w) p = Some it →
  load_buffer (st w) (ItemBuffer it) = Some b →
  RefCount it = references w p (ItemBuffer it) ∧ 0 < RefCount it ∧
  (references w' p (ItemBuffer it) = 0 →
     Pool (st w') !! p = None ∧ Pool (st w') !! ItemBuffer it = None) ∧
  (0 < references w' p (ItemBuffer it) →
     load_item (st w') p =
       Some (mkItem (ItemBuffer it) (ItemIndex it) (ExpirationTime it)
               (references w' p (ItemBuffer it))) ∧
     load_buffer (st w') (ItemBuffer it) = Some b).
Proof.
  intros Hr Hadm Hexec Hit Hb.
  pose proof (reachable_under_wf _ w Hr) as Hwf.
  destruct (exec_wf w c Hwf Hadm) as (w1 & r1 & Hexec' & Hwf' & Hsurv).
  rewrite Hexec in Hexec'. injection Hexec' as <- <-.
  destruct (wf_item w Hwf p it Hit) as (_ & _ & _ & Hrc & Hpos).
  split; [exact Hrc|]. split; [exact Hpos|].
  apply load_item_Some in Hit. apply load_buffer_Some in Hb.
  destruct (Hsurv p it b Hit Hb) as [[Hp' Hb']|(rc & Hp' & Hb')].
  - assert (references w' p (ItemBuffer it) = 0) as Hzero.
    { unfold references, resident.
      rewrite decide_False.
      - rewrite outstanding_notin; [done|]. intros Hin.
        destruct (wf_borrowed w' Hwf' _ Hin) as [b' Hb''].
        apply load_buffer_Some in Hb''.
        replace (ItemBuffer it + sizeof_ITEM_BUFFER - sizeof_ITEM_BUFFER)
          with (ItemBuffer it) in Hb'' by lia.
        congruence.
      - intros Hin.
        destruct (wf_resident_chain w' p Hwf' Hin) as (it' & _ & Hit' & _).
        apply load_item_Some in Hit'. congruence. }
    split; [done|]. intros Hlt. lia.
  - apply load_item_Some in Hp'.
    destruct (wf_item w' Hwf' p _ Hp') as (_ & _ & _ & Hrc' & Hpos').
    simpl in Hrc', Hpos'. fold (references w' p (ItemBuffer it)) in Hrc'.
    split; [intros Hzero; lia|]. intros _.
    rewrite <- Hrc'. split; [done|]. by apply load_buffer_Some.
Qed.

(** ** Runs of calls, for the examples *)

Lemma freshb_fresh h p : freshb h p = true → fresh h p.
Proof.
  unfold freshb, fresh. intros [H|[H1 H2]%andb_prop]%orb_prop.
  - left. lia.
  - right. split; [lia|]. by destruct (h !! p).
Qed.

Lemma admissibleb_admissible w c : admissibleb w c = true → admissible w c.
Proof.
  destruct c as [a|i PSize|q|i|now|]; simpl;
    unfold is_UINT64b, is_ULONGb, is_UINT64, is_ULONG;
    rewrite ?andb_true_iff; try (intros; lia).
  - intros H. destruct_and!.
    repeat match goal with H : freshb _ _ = true |- _ => apply freshb_fresh in H end.
    split_and!; try done; try lia.
    all: intros Hp.
    all: match goal with H : _ || _ = true |- _ => apply orb_prop in H as [?|Hne] end;
      [lia|].
    all: apply negb_true_iff in Hne; lia.
  - intros Hin. by apply bool_decide_eq_true_1 in Hin.
Qed.

Lemma reachable_run P cs : ∀ w w',
  reachable_under P w → run_under P cs w →
  run cs w = Some w' → reachable_under P w'.
Proof.
  induction cs as [|c cs IH]; intros w w' Hr Hall; simpl.
  - by intros [= <-].
  - destruct (admissibleb w c) eqn:Hadm; [|done].
    destruct Hall as [Hc Hall].
    destruct (exec c w) as [[w1 r]|] eqn:Hexec; [|done]. simpl.
    apply IH; [|done].
    eapply reachable_exec; [done|by apply admissibleb_admissible|done..].
Qed.

Lemma borrowed_world_reachable : reachable borrowed_world.
Proof.
  apply (reachable_run _ [Add (example_add ["z"%byte] 1000 0); Borrow 1 0]
           (example_world 3)).
  - apply example_world_reachable. in_range.
  - vm_compute. tauto.
  - vm_compute. reflexivity.
Qed.

Lemma drained_world_exec :
  exec InvalidateAll borrowed_world = Some (drained_world, RetVoid).
Proof. vm_compute. reflexivity. Qed.

Lemma returned_world_exec :
  exec (Return 1080) drained_world = Some (returned_world, RetVoid).
Proof. vm_compute. reflexivity. Qed.

Lemma C1_item_lifetime_witness :
  ItemList (MetaCache (st drained_world)) = [] ∧
  (∃ it, load_item (st drained_world) 1000 = Some it ∧ RefCount it = 1) ∧
  payload (st drained_world) 1080 = Some ["z"%byte] ∧
  Pool (st returned_world) !! 1000 = None ∧
  Pool (st returned_world) !! 1064 = None.
Proof.
  assert (load_item (st borrowed_world) 1000 = Some (mkItem 1064 1 100 2)) as Hit
    by (vm_compute; reflexivity).
  assert (load_buffer (st borrowed_world) 1064
          = Some (mkItemBuffer 1000 1 ["z"%byte])) as Hb
    by (vm_compute; reflexivity).
  destruct (C1_item_lifetime borrowed_world InvalidateAll drained_world RetVoid
              1000 _ _ borrowed_world_reachable I drained_world_exec Hit Hb)
    as (_ & _ & _ & Hlive).
  cbn [ItemBuffer ItemIndex ExpirationTime] in Hlive.
  replace (references drained_world 1000 1064) with 1 in Hlive
    by (vm_compute; reflexivity).
  destruct Hlive as [Hit' Hb']; [lia|].
  assert (reachable drained_world) as Hr.
  { exact (reachable_exec _ borrowed_world InvalidateAll drained_world RetVoid
             borrowed_world_reachable I I drained_world_exec). }
  assert (admissible drained_world (Return 1080)) as Hadm
    by (apply admissibleb_admissible; vm_compute; reflexivity).
  destruct (C1_item_lifetime drained_world (Return 1080) returned_world RetVoid
              1000 _ _ Hr Hadm returned_world_exec Hit' Hb')
    as (_ & _ & Hfreed & _).
  cbn [ItemBuffer] in Hfreed.
  destruct Hfreed as [Hp Hq]; [vm_compute; reflexivity|].
  split_and!.
  - vm_compute. reflexivity.
  - eexists. split; [exact Hit'|reflexivity].
  - unfold payload. replace (1080 - sizeof_ITEM_BUFFER) with 1064 by reflexivity.
    rewrite Hb'. reflexivity.
  - exact Hp.
  - exact Hq.
Defined.

(** ** The order of the list *)

Lemma StronglySorted_sublist (l l' : list Z) :
  l' `sublist_of` l → StronglySorted Z.le l → StronglySorted Z.le l'.
Proof.
  induction 1 as [|x l1 l2 Hsub IH|x l1 l2 Hsub IH]; intros Hs.
  - done.
  - apply StronglySorted_inv in Hs as [Hs Hall]. constructor; [by apply IH|].
    apply Forall_forall. intros y Hy. rewrite Forall_forall in Hall.
    apply Hall. by eapply elem_of_sublist.
  - apply StronglySorted_inv in Hs as [Hs _]. by apply IH.
Qed.

Lemma Forall_sublist (P : Z → Prop) (l l' : list Z) :
  l' `sublist_of` l → Forall P l → Forall P l'.
Proof.
  intros Hsub. rewrite !Forall_forall. intros Hall x Hx.
  apply Hall. by eapply elem_of_sublist.
Qed.

(** An item that stays in the list keeps its expiration time. *)
Lemma expiration_survives w w' p :
  wf w → wf w' → survives (Pool (st w)) (Pool (st w')) →
  p ∈ ItemList (MetaCache (st w)) → p ∈ ItemList (MetaCache (st w')) →
  expiration (st w') p = expiration (st w) p.
Proof.
  intros Hwf Hwf' Hsurv Hin Hin'.
  destruct (wf_resident_chain w p Hwf Hin) as (it & _ & Hit & _).
  destruct (wf_resident_chain w' p Hwf' Hin') as (it' & _ & Hit' & _).
  destruct (wf_item w Hwf p it Hit) as ((b & Hb & _) & _).
  unfold expiration. rewrite Hit, Hit'. simpl.
  apply load_item_Some in Hit, Hit'. apply load_buffer_Some in Hb.
  destruct (Hsurv p it b Hit Hb) as [[Hp _]|(rc & Hp & _)]; [congruence|].
  rewrite Hit' in Hp. by injection Hp as ->.
Qed.

Lemma expirations_sublist w w' :
  wf w → wf w' → survives (Pool (st w)) (Pool (st w')) →
  ItemList (MetaCache (st w')) `sublist_of` ItemList (MetaCache (st w)) →
  expirations (st w') `sublist_of` expirations (st w).
Proof.
  intros Hwf Hwf' Hsurv Hsub. unfold expirations.
  rewrite (list_fmap_ext _ (expiration (st w)) (ItemList (MetaCache (st w')))).
  - by apply fmap_sublist.
  - intros i p Hp. apply list_elem_of_lookup_2 in Hp.
    apply expiration_survives; try done. by eapply elem_of_sublist.
Qed.

Lemma exec_clock w c w' r :
  admissible w c → exec c w = Some (w', r) → clock w ≤ clock w'.
Proof.
  destruct c; simpl; intros Hadm Hexec;
    repeat match goal with
      | H : (_ ≫= _) = Some _ |- _ => apply bind_Some in H as ([] & ? & ?)
      | H : (_ ≫= _) = Some _ |- _ => apply bind_Some in H as (? & ? & ?)
      end; simplify_eq; simpl; lia.
Qed.

(** An insertion that succeeds puts the expiration time of the new item
    behind those of the list. *)
Lemma expirations_add w a w' h :
  wf w → admissible w (Add a) →
  exec (Add a) w = Some (w', RetIndex h) → h ≠ 0 →
  expirations (st w') =
    expirations (st w) ++ [to_UINT64 (add_now a + MetaTimeout (MetaCache (st w)))].
Proof.
  intros Hwf Hadm Hexec Hh.
  destruct (exec_spec w (Add a) Hwf Hadm)
    as (w1 & r1 & Hexec' & Hwf' & Hsurv & _ & Hstep).
  rewrite Hexec in Hexec'. injection Hexec' as <- <-.
  destruct Hstep as [(a' & p & it & [= <-] & _ & Hl & Hit & Hexp)|[_ Hzero]].
  2:{ specialize (Hzero a eq_refl). congruence. }
  unfold expirations. rewrite Hl, fmap_app. simpl. f_equal.
  - apply list_fmap_ext. intros i x Hx. apply list_elem_of_lookup_2 in Hx.
    apply expiration_survives; try done. rewrite Hl. apply elem_of_app. by left.
  - unfold expiration. rewrite Hit. simpl. by rewrite Hexp.
Qed.

Lemma timely_step w c w' r :
  wf w → timely w → admissible w c → no_wrap w c →
  exec c w = Some (w', r) → timely w'.
Proof.
  intros Hwf [Hsorted Hbound] Hadm Hnw Hexec.
  destruct (exec_spec w c Hwf Hadm)
    as (w1 & r1 & Hexec' & Hwf' & Hsurv & Htmo & Hstep).
  rewrite Hexec in Hexec'. injection Hexec' as <- <-.
  pose proof (exec_clock w c w' r Hadm Hexec) as Hclk.
  destruct Hstep as [(a & p & it & -> & Hr & Hl & Hit & Hexp)|[Hsub _]].
  - assert (∃ h, r = RetIndex h ∧ clock w' = add_now a) as (h & -> & Hclk').
    { simpl in Hexec. apply bind_Some in Hexec as ([s h] & _ & [= <- <-]). eauto. }
    assert (h ≠ 0) as Hh by congruence.
    pose proof (expirations_add w a w' h Hwf Hadm Hexec Hh) as He.
    simpl in Hnw. pose proof (wf_timeout w Hwf) as Ht.
    destruct Hadm as (_ & _ & _ & _ & _ & Hnow & Hc).
    rewrite to_UINT64_id in He by (unfold is_UINT64 in *; lia).
    unfold timely. rewrite He, Htmo, Hclk'. split.
    + apply StronglySorted_app. split_and!; [|done|repeat constructor].
      intros x1 x2 Hx1 ->%list_elem_of_singleton.
      rewrite Forall_forall in Hbound. specialize (Hbound x1 Hx1). lia.
    + apply Forall_app. split; [|by repeat constructor].
      eapply Forall_impl; [exact Hbound|]. simpl. intros; lia.
  - pose proof (expirations_sublist w w' Hwf Hwf' Hsurv Hsub) as Hes.
    unfold timely. rewrite Htmo. split.
    + by eapply StronglySorted_sublist.
    + eapply Forall_sublist; [exact Hes|].
      eapply Forall_impl; [exact Hbound|]. simpl. intros; lia.
Qed.

Lemma reachable_timely w : reachable_under no_wrap w → timely w.
Proof.
  induction 1 as [? ? ? ? ? w Hadm Hc|w c w' r Hr IH Hadm Hnw Hexec].
  - unfold create, MetaCacheCreate in Hc. case_decide; simpl in Hc; [done|].
    injection Hc as <-. split; constructor.
  - eapply timely_step; [by eapply reachable_under_wf|done..].
Qed.

(** The list out of order (counterexample to C6 as it is stated).
    First, two calls of [MetaCacheAddItem] that overlap: the first reads the
    tick 10 at line 182, the second reads the tick 11 and takes the spin
    lock before the first does, which then appends behind it an item that
    expires earlier.
    Second, calls one after the other with a timeout of [-1], all ones as a
    [UINT64]: the sum of line 182 wraps around between the ticks 0 and 1. *)
Lemma C6_counterexample :
  (∃ s1 s2 s3 s4,
     MetaCacheAddItem_prepare (example_add ["x"%byte] 1000 10) (st (example_world 3))
       = Some (s1, Some (1000, 1064)) ∧
     MetaCacheAddItem_prepare (example_add ["y"%byte] 2000 11) s1
       = Some (s2, Some (2000, 2064)) ∧
     MetaCacheAddItem_insert 2000 2064 s2 = Some (s3, 1) ∧
     MetaCacheAddItem_insert 1000 1064 s3 = Some (s4, 2) ∧
     Trace s4 = [EvAllocNonPaged 56 1000; EvAlloc 17 1064;
                 EvAllocNonPaged 56 2000; EvAlloc 17 2064;
                 EvAcquireSpinLock; EvReleaseSpinLock;
                 EvAcquireSpinLock; EvReleaseSpinLock] ∧
     ItemList (MetaCache s4) = [2000; 1000] ∧
     expirations s4 = [111; 110] ∧
     ¬ StronglySorted Z.le (expirations s4)) ∧
  (∃ w0 w,
     create 56 3 4096 (-1) 4096 = Some w0 ∧
     run [Add (example_add ["x"%byte] 1000 0);
          Add (example_add ["y"%byte] 2000 1)] w0 = Some w ∧
     reachable w ∧
     expirations (st w) = [UINT64_MAX; 0] ∧
     ¬ StronglySorted Z.le (expirations (st w))).
Proof.
  split.
  - do 4 eexists. split_and!.
    + vm_compute. reflexivity.
    + vm_compute. reflexivity.
    + vm_compute. reflexivity.
    + vm_compute. reflexivity.
    + vm_compute. reflexivity.
    + vm_compute. reflexivity.
    + vm_compute. reflexivity.
    + intros Hs. replace (expirations _) with [111; 110] in Hs by (vm_compute; reflexivity).
      apply StronglySorted_inv in Hs as [_ Hall].
      apply Forall_cons in Hall as [Hle _]. lia.
  - do 2 eexists. split_and!.
    + reflexivity.
    + vm_compute. reflexivity.
    + eapply (reachable_run _ [Add (example_add ["x"%byte] 1000 0);
                              Add (example_add ["y"%byte] 2000 1)]).
      * eapply (reachable_create _ 56 3 4096 (-1) 4096); [|reflexivity].
        unfold admissible_create. in_range.
      * vm_compute. done.
      * vm_compute. reflexivity.
    + vm_compute. reflexivity.
    + intros Hs.
      replace (expirations _) with [UINT64_MAX; 0] in Hs by (vm_compute; reflexivity).
      apply StronglySorted_inv in Hs as [_ Hall].
      apply Forall_cons in Hall as [Hle _]. unfold UINT64_MAX in Hle. lia.
Qed.

(** C6, amended: when the calls run one after the other and the sum of the
    tick and the timeout never exceeds the largest [UINT64], the list is in
    ascending order of expiration in every reachable state, so its head
    expires first; and an insertion that succeeds appends an item that
    expires no earlier than any item of the list. *)
Theorem C6_sorted w :
  reachable_under no_wrap w →
  StronglySorted Z.le (expirations (st w)) ∧
  match expirations (st w) with
  | [] => True
  | e :: es => Forall (Z.le e) es
  end ∧
  ∀ a w' h,
    admissible w (Add a) → no_wrap w (Add a) →
    exec (Add a) w = Some (w', RetIndex h) → h ≠ 0 →
    ∃ e, expirations (st w') = expirations (st w) ++ [e] ∧
         ItemList (MetaCache (st w')) =
           ItemList (MetaCache (st w)) ++ [add_alloc_Item a] ∧
         e = add_now a + MetaTimeout (MetaCache (st w)) ∧
         Forall (λ x, x ≤ e) (expirations (st w)).
Proof.
  intros Hr. pose proof (reachable_timely w Hr) as [Hsorted Hbound].
  pose proof (reachable_under_wf _ w Hr) as Hwf.
  split; [done|]. split.
  { destruct (expirations (st w)) as [|e es]; [done|].
    by apply StronglySorted_inv in Hsorted as [_ ?]. }
  intros a w' h Hadm Hnw Hexec Hh.
  pose proof (expirations_add w a w' h Hwf Hadm Hexec Hh) as He.
  simpl in Hnw. pose proof (wf_timeout w Hwf) as Ht.
  pose proof Hadm as (_ & _ & _ & _ & _ & Hnow & Hc).
  rewrite to_UINT64_id in He by (unfold is_UINT64 in *; lia).
  eexists. split; [exact He|]. split_and!; [|done|].
  - simpl in Hexec.
    destruct (MetaCacheAddItem_Some w a Hwf Hadm) as (chain & _ & Hout).
    rewrite Hout in Hexec. simpl in Hexec.
    destruct (add_outcome a chain (st w)) as [s1 h1] eqn:Ho.
    injection Hexec as <- <-. unfold add_outcome in Ho.
    repeat case_decide; injection Ho as <- <-; done.
  - eapply Forall_impl; [exact Hbound|]. simpl. intros; lia.
Qed.

Lemma C6_sorted_witness :
  expirations (st two_items_world) = [110; 111] ∧
  StronglySorted Z.le (expirations (st two_items_world)).
Proof.
  split; [vm_compute; reflexivity|].
  refine (proj1 (C6_sorted two_items_world _)).
  apply (reachable_run _ [Add (example_add ["x"%byte] 1000 10);
                         Add (example_add ["y"%byte] 2000 11)] (example_world 3)).
  - apply (reachable_create _ 56 3 4096 100 4096); [|reflexivity].
    unfold admissible_create. in_range.
  - vm_compute. repeat split; intros Hgt; discriminate Hgt.
  - vm_compute. reflexivity.
Defined.

(** * Further properties of meta.c *)

(** ** The calls in closed form *)

Lemma exec_Add_cases w a w' h :
  wf w → admissible w (Add a) →
  exec (Add a) w = Some (w', RetIndex h) →
  (h = 0 ∧ rejected a (st w) ∧
   MetaCache (st w') = MetaCache (st w) ∧ Pool (st w') = Pool (st w) ∧
   borrowed w' = borrowed w ∧
   ∃ evs, Trace (st w') = Trace (st w) ++ evs ∧
          (evs = [] ∨ evs = [EvAllocNonPaged sizeof_ITEM 0] ∨
           evs = [EvAllocNonPaged sizeof_ITEM (add_alloc_Item a);
                  EvAlloc (sizeof_ITEM_BUFFER + add_Size a) 0;
                  EvFree (add_alloc_Item a)] ∨
           evs = add_events a ++ [EvFree (add_alloc_ItemBuffer a);
                                  EvFree (add_alloc_Item a)])) ∨
  (h = next_index (MetaItemIndex (MetaCache (st w))) ∧ h ≠ 0 ∧
   ¬ rejected a (st w) ∧
   0 < add_alloc_Item a ∧ 0 < add_alloc_ItemBuffer a ∧
   add_alloc_Item a ≠ add_alloc_ItemBuffer a ∧
   Pool (st w) !! add_alloc_Item a = None ∧
   Pool (st w) !! add_alloc_ItemBuffer a = None ∧
   ∃ chain,
     ItemBuckets (MetaCache (st w))
       !! Z.to_nat (h mod ItemBucketCount (MetaCache (st w))) = Some chain ∧
     w' = inserted a chain w).
Proof.
  intros Hwf Hadm Hexec. simpl in Hexec.
  destruct (MetaCacheAddItem_Some w a Hwf Hadm) as (chain & Hchain & Hout).
  rewrite Hout in Hexec. simpl in Hexec.
  destruct (add_outcome a chain (st w)) as [s1 h1] eqn:Ho.
  injection Hexec as <- <-.
  destruct Hadm as (Hsz & Hbuf & Hfp & Hfq & Hpq & Hnow & Hclk).
  pose proof (next_index_pos _ (wf_index w Hwf)) as Hpos.
  unfold add_outcome in Ho. unfold rejected.
  repeat case_decide; injection Ho as <- <-; simpl.
  - left. split_and!; try done; [lia|]. exists []. by rewrite app_nil_r; auto.
  - left. split_and!; try done; [lia|]. eexists. split; [done|]. auto.
  - left. split_and!; try done; [lia|]. eexists. split; [done|]. auto.
  - right. destruct Hfp as [?|[Hp Hfp]]; [done|]. destruct Hfq as [?|[Hq Hfq]]; [done|].
    assert (add_alloc_Item a ≠ add_alloc_ItemBuffer a)
      by (intros Heq; by apply Hpq).
    split_and!; try done; try lia.
    exists chain. split; [done|]. reflexivity.
  - left. split_and!; try done; [lia|].
    eexists. split; [done|]. right. right. right. reflexivity.
Qed.

(** ** The spin lock *)

Lemma disciplined_app held evs1 evs2 :
  disciplined held evs1 = true →
  disciplined held (evs1 ++ evs2) = disciplined false evs2.
Proof.
  revert held. induction evs1 as [|e evs1 IH]; intros held; simpl.
  - by destruct held.
  - destruct e; intros [H1 H2]%andb_prop; rewrite H1; simpl; by apply IH.
Qed.

Lemma released_buffers_from p it h :
  h !! p = Some (BItem it) → buffers_from h (released p it h).
Proof.
  intros Hp q b. rewrite lookup_released.
  repeat case_decide; subst; try done; congruence.
Qed.

Lemma disciplined_evicted (frees : list event) :
  (frees = [] ∨ ∃ q p, frees = [EvFree q; EvFree p]) →
  disciplined false ([EvAcquireSpinLock; EvReleaseSpinLock] ++ frees) = true.
Proof. intros [->|(q & p & ->)]; reflexivity. Qed.

Lemma MetaCacheInvalidateItems_loop_prefix t (fuel : nat) : ∀ w s',
  wf w →
  MetaCacheInvalidateItems_loop fuel t (st w) = Some s' →
  swept_prefix t (st w) s'.
Proof.
  induction fuel as [|fuel IH]; intros w s' Hwf; [done|].
  simpl. pose proof (MetaCacheInvalidateItems_pass_Some w t Hwf) as Hpass.
  destruct (ItemList (MetaCache (st w))) as [|p l] eqn:Hl.
  - rewrite Hpass. simpl. intros [= <-]. split; simpl; rewrite ?Hl.
    + by exists 0%nat.
    + eexists. split; [by rewrite <- app_assoc|]. reflexivity.
    + by intros q b.
    + done.
  - destruct Hpass as (it & chain & Hit & Hchain & ->).
    assert (Hin : p ∈ ItemList (MetaCache (st w))) by (rewrite Hl; by left).
    case_decide as Hexp; simpl.
    + pose proof (wf_evicted w p it chain (clock w) Hwf Hin Hit Hchain) as Hwf'.
      intros Hs'. specialize (IH _ s' Hwf' Hs').
      destruct IH as [(k & Hk & Hall) (evs & Hevs & Hd) Hbuf Hbc]. simpl in *.
      rewrite Hl, unlink_head in Hk, Hall.
      split.
      * exists (S k). rewrite Hl. simpl. split; [done|].
        apply Forall_cons. split.
        -- unfold expiration. rewrite Hit. simpl. done.
        -- apply Forall_forall. intros x Hx. rewrite Forall_forall in Hall.
           assert (x ∈ l) as Hxl by (eapply elem_of_sublist; [done|apply sublist_take]).
           specialize (Hall x Hx).
           rewrite <- (expiration_survives w (mkWorld (evicted p it chain (st w))
                                               (borrowed w) (clock w)) x); try done.
           ++ by apply released_survives.
           ++ rewrite Hl. by right.
           ++ simpl. rewrite Hl, unlink_head. done.
      * eexists. split; [rewrite Hevs; by rewrite <- app_assoc|].
        rewrite disciplined_app; [done|].
        apply disciplined_evicted. case_decide; eauto.
      * intros q b Hq. apply Hbuf in Hq.
        eapply released_buffers_from; [|exact Hq]. by apply load_item_Some.
      * done.
    + intros [= <-]. split; simpl; rewrite ?Hl.
      * by exists 0%nat.
      * eexists. split; [by rewrite <- app_assoc|]. reflexivity.
      * by intros q b.
      * done.
Qed.

Lemma call_frame_sweep t w s' c bs clk :
  wf w → MetaCacheInvalidateItems t (st w) = Some s' →
  call_frame w c (mkWorld s' bs clk).
Proof.
  intros Hwf Hs'.
  destruct (MetaCacheInvalidateItems_Some t clk w Hwf) as (s'' & Hs'' & _ & Hsw).
  rewrite Hs' in Hs''. injection Hs'' as <-.
  pose proof (MetaCacheInvalidateItems_loop_prefix t _ w s' Hwf Hs') as Hpre.
  split; simpl.
  - apply Hsw.
  - apply Hsw.
  - apply Hpre.
  - left. apply Hsw.
  - apply Hpre.
  - intros q b Hq. left. by apply (swept_buffers _ _ _ Hpre).
Qed.

Theorem exec_frame w c w' r :
  wf w → admissible w c → exec c w = Some (w', r) → call_frame w c w'.
Proof.
  intros Hwf Hadm Hexec. destruct c as [a|i PSize|q|i|now|].
  - destruct r as [|h|]; try (simpl in Hexec;
      apply bind_Some in Hexec as ([] & _ & [=]); fail).
    destruct (exec_Add_cases w a w' h Hwf Hadm Hexec)
      as [(-> & Hrej & Hc & Hp & Hb & evs & Htr & Hevs)|
          (-> & Hh & Hrej & Hp & Hq & Hpq & Hfp & Hfq & chain & Hchain & ->)].
    + split; rewrite ?Hc, ?Hp; try done.
      * by left.
      * exists evs. split; [done|].
        destruct Hevs as [->|[->|[->| ->]]]; reflexivity.
      * intros q b Hq. by left.
    + split; simpl; try done.
      * right. by exists a.
      * eexists. split; [done|]. reflexivity.
      * intros q b Hb.
        destruct (decide (q = add_alloc_Item a)) as [->|Hne].
        { by rewrite lookup_insert_eq in Hb. }
        rewrite lookup_insert_ne in Hb by done.
        destruct (decide (q = add_alloc_ItemBuffer a)) as [->|Hne'].
        -- rewrite lookup_insert_eq in Hb. injection Hb as <-.
           right. exists a. done.
        -- rewrite lookup_insert_ne in Hb by done. by left.
  - simpl in Hexec, Hadm. destruct Hadm as [Hi Hlen].
    destruct (MetaCacheReferenceItemBuffer_Some w i PSize Hwf Hi Hlen)
      as [[Hm _]|(p & it & b & Hin & Hit & Hidx & Hb & Hh)].
    + rewrite Hm in Hexec. simpl in Hexec. injection Hexec as <- <-.
      split; simpl; try done; try (by left).
      eexists. split; [by rewrite <- app_assoc|]. reflexivity.
    + rewrite Hh in Hexec. simpl in Hexec. injection Hexec as <- <-.
      split; simpl; try done; try (by left).
      * eexists. split; [done|]. reflexivity.
      * intros q b' Hq. left. apply load_item_Some in Hit.
        destruct (decide (q = p)) as [->|Hne].
        -- by rewrite lookup_insert_eq in Hq.
        -- by rewrite lookup_insert_ne in Hq.
  - simpl in Hexec, Hadm.
    destruct (MetaCacheDereferenceItemBuffer_Some w q Hwf Hadm)
      as (b & it & Hb & Hit & Hbuf & Hr).
    rewrite Hr in Hexec. simpl in Hexec. injection Hexec as <- <-.
    split; simpl; try done; try (by left).
    + eexists. split; [done|]. by case_decide.
    + intros q' b' Hq. left.
      eapply released_buffers_from; [|exact Hq]. by apply load_item_Some.
  - simpl in Hexec, Hadm.
    destruct (MetaCacheInvalidateItem_Some w i Hwf Hadm)
      as [[Hm _]|(p & it & chain & Hin & Hit & Hidx & Hchain & Hh)].
    + rewrite Hm in Hexec. simpl in Hexec. injection Hexec as <- <-.
      split; simpl; try done; try (by left).
      eexists. split; [by rewrite <- app_assoc|]. reflexivity.
    + rewrite Hh in Hexec. simpl in Hexec. injection Hexec as <- <-.
      split; simpl; try done; try (by left).
      * eexists. split; [done|]. apply disciplined_evicted. case_decide; eauto.
      * intros q b Hq. left.
        eapply released_buffers_from; [|exact Hq]. by apply load_item_Some.
  - simpl in Hexec. apply bind_Some in Hexec as (s' & Hs' & [= <- <-]).
    by eapply call_frame_sweep.
  - simpl in Hexec. apply bind_Some in Hexec as (s' & Hs' & [= <- <-]).
    by eapply call_frame_sweep.
Qed.

(** ** The lock is never held across an allocation *)

(** X1: in every reachable state the trace keeps the discipline of the spin
    lock: it is never taken twice, never released when free, free between
    calls, and no pool allocation or release happens while it is held. *)
Theorem X1_lock_discipline w :
  reachable w → disciplined false (Trace (st w)) = true.
Proof.
  induction 1 as [? ? ? ? ? w Hadm Hc|w c w' r Hr IH Hadm _ Hexec].
  - unfold create, MetaCacheCreate in Hc. case_decide; simpl in Hc; [done|].
    by injection Hc as <-.
  - pose proof (reachable_under_wf _ w Hr) as Hwf.
    destruct (frame_trace _ _ _ (exec_frame w c w' r Hwf Hadm Hexec))
      as (evs & -> & Hd).
    by rewrite disciplined_app.
Qed.

Lemma X1_lock_discipline_witness :
  Trace (st returned_world) =
    [EvAllocNonPaged 56 1000; EvAlloc 17 1064;
     EvAcquireSpinLock; EvReleaseSpinLock;
     EvAcquireSpinLock; EvReleaseSpinLock;
     EvAcquireSpinLock; EvReleaseSpinLock;
     EvAcquireSpinLock; EvReleaseSpinLock;
     EvFree 1064; EvFree 1000] ∧
  disciplined false (Trace (st returned_world)) = true.
Proof.
  split; [vm_compute; reflexivity|].
  apply X1_lock_discipline.
  apply (reachable_exec _ drained_world (Return 1080) returned_world RetVoid).
  - exact (reachable_exec _ borrowed_world InvalidateAll drained_world RetVoid
             borrowed_world_reachable I I drained_world_exec).
  - apply admissibleb_admissible. vm_compute. reflexivity.
  - exact I.
  - exact returned_world_exec.
Defined.

(** ** Bounded memory *)

(** X2: in every reachable state the cache holds at most [MetaCapacity]
    items, and every buffer of the pool, header included, is at most
    [ItemSizeMax] bytes: the two bounds given to [MetaCacheCreate] are hard
    ones, for the items that left the list but are still borrowed too. *)
Theorem X2_bounded w :
  reachable w →
  Z.of_nat (length (ItemList (MetaCache (st w)))) ≤ MetaCapacity (MetaCache (st w)) ∧
  ∀ q b, load_buffer (st w) q = Some b →
         sizeof_ITEM_BUFFER + Z.of_nat (length (Buffer b))
           ≤ ItemSizeMax (MetaCache (st w)).
Proof.
  intros Hr. split.
  { destruct (wf_count w (reachable_under_wf _ w Hr)) as [Hc Hle]. lia. }
  induction Hr as [? ? ? ? ? w Hadm Hc|w c w' r Hr IH Hadm _ Hexec].
  - unfold create, MetaCacheCreate in Hc. case_decide; simpl in Hc; [done|].
    injection Hc as <-. intros q b. unfold load_buffer. simpl.
    by rewrite lookup_empty.
  - pose proof (reachable_under_wf _ w Hr) as Hwf.
    pose proof (exec_frame w c w' r Hwf Hadm Hexec) as Hf.
    intros q b Hb. apply load_buffer_Some in Hb.
    rewrite (frame_size _ _ _ Hf).
    destruct (frame_buffers _ _ _ Hf q b Hb) as [Hold|(a & -> & Hrej & -> & ->)].
    + apply (IH q). by apply load_buffer_Some.
    + simpl. destruct Hadm as (Hsz & Hbuf & _).
      unfold blob. rewrite length_take. unfold rejected, is_ULONG in *. lia.
Qed.

Lemma X2_bounded_witness :
  Z.of_nat (length (ItemList (MetaCache (st two_items_world)))) ≤ 3 ∧
  ∀ q b, load_buffer (st two_items_world) q = Some b →
         sizeof_ITEM_BUFFER + Z.of_nat (length (Buffer b)) ≤ 4096.
Proof.
  apply (X2_bounded two_items_world).
  apply (reachable_run _ [Add (example_add ["x"%byte] 1000 10);
                         Add (example_add ["y"%byte] 2000 11)] (example_world 3)).
  - apply example_world_reachable. in_range.
  - vm_compute. tauto.
  - vm_compute. reflexivity.
Defined.

(** ** Handles *)

Lemma StronglySorted_lt_sublist (l l' : list Z) :
  l' `sublist_of` l → StronglySorted Z.lt l → StronglySorted Z.lt l'.
Proof.
  induction 1 as [|x l1 l2 Hsub IH|x l1 l2 Hsub IH]; intros Hs.
  - done.
  - apply StronglySorted_inv in Hs as [Hs Hall]. constructor; [by apply IH|].
    apply Forall_forall. intros y Hy. rewrite Forall_forall in Hall.
    apply Hall. by eapply elem_of_sublist.
  - apply StronglySorted_inv in Hs as [Hs _]. by apply IH.
Qed.

Lemma StronglySorted_lt_inj (f : Z → Z) (l : list Z) x y :
  StronglySorted Z.lt (f <$> l) → x ∈ l → y ∈ l → f x = f y → x = y.
Proof.
  induction l as [|a l IH]; intros Hs Hx Hy Hf; [by apply elem_of_nil in Hx|].
  rewrite fmap_cons in Hs. apply StronglySorted_inv in Hs as [Hs Hall].
  rewrite Forall_forall in Hall.
  apply elem_of_cons in Hx as [->|Hx]; apply elem_of_cons in Hy as [->|Hy].
  - done.
  - assert (f a < f y) by (apply Hall; by apply list_elem_of_fmap_2). lia.
  - assert (f a < f x) by (apply Hall; by apply list_elem_of_fmap_2). lia.
  - by apply IH.
Qed.

(** An item that stays in the list keeps its index. *)
Lemma index_survives w w' p :
  wf w → wf w' → survives (Pool (st w)) (Pool (st w')) →
  p ∈ ItemList (MetaCache (st w)) → p ∈ ItemList (MetaCache (st w')) →
  index (st w') p = index (st w) p.
Proof.
  intros Hwf Hwf' Hsurv Hin Hin'.
  destruct (wf_resident_chain w p Hwf Hin) as (it & _ & Hit & _).
  destruct (wf_resident_chain w' p Hwf' Hin') as (it' & _ & Hit' & _).
  destruct (wf_item w Hwf p it Hit) as ((b & Hb & _) & _).
  unfold index. rewrite Hit, Hit'. simpl.
  apply load_item_Some in Hit, Hit'. apply load_buffer_Some in Hb.
  destruct (Hsurv p it b Hit Hb) as [[Hp _]|(rc & Hp & _)]; [congruence|].
  rewrite Hit' in Hp. by injection Hp as ->.
Qed.

Lemma indices_sublist w w' :
  wf w → wf w' → survives (Pool (st w)) (Pool (st w')) →
  ItemList (MetaCache (st w')) `sublist_of` ItemList (MetaCache (st w)) →
  indices (st w') `sublist_of` indices (st w).
Proof.
  intros Hwf Hwf' Hsurv Hsub. unfold indices.
  rewrite (list_fmap_ext _ (index (st w)) (ItemList (MetaCache (st w')))).
  - by apply fmap_sublist.
  - intros i p Hp. apply list_elem_of_lookup_2 in Hp.
    apply index_survives; try done. by eapply elem_of_sublist.
Qed.

(** An insertion that succeeds puts the index it returns behind those of
    the list. *)
Lemma indices_add w a w' h :
  wf w → admissible w (Add a) →
  exec (Add a) w = Some (w', RetIndex h) → h ≠ 0 →
  indices (st w') = indices (st w) ++ [h] ∧
  MetaItemIndex (MetaCache (st w')) = h ∧
  h = next_index (MetaItemIndex (MetaCache (st w))).
Proof.
  intros Hwf Hadm Hexec Hh.
  destruct (exec_spec w (Add a) Hwf Hadm)
    as (w1 & r1 & Hexec' & Hwf' & Hsurv & _ & _).
  rewrite Hexec in Hexec'. injection Hexec' as <- <-.
  destruct (exec_Add_cases w a w' h Hwf Hadm Hexec)
    as [(-> & _)|(Hnext & _ & _ & _ & _ & _ & _ & _ & chain & _ & Hw')]; [done|].
  split_and!; [|by rewrite Hw'|done].
  unfold indices.
  replace (ItemList (MetaCache (st w')))
    with (ItemList (MetaCache (st w)) ++ [add_alloc_Item a]) by by rewrite Hw'.
  rewrite fmap_app. simpl. f_equal.
  - apply list_fmap_ext. intros i x Hx. apply list_elem_of_lookup_2 in Hx.
    apply index_survives; try done. rewrite Hw'. simpl.
    apply elem_of_app. by left.
  - unfold index, load_item. rewrite Hw'. simpl.
    rewrite lookup_insert_eq. simpl. by rewrite Hnext.
Qed.

Lemma ascending_step w c w' r :
  wf w → ascending w → admissible w c → no_index_wrap w c →
  exec c w = Some (w', r) → ascending w'.
Proof.
  intros Hwf [Hsorted Hbound] Hadm Hnw Hexec.
  destruct (exec_spec w c Hwf Hadm)
    as (w1 & r1 & Hexec' & Hwf' & Hsurv & Htmo & Hstep).
  rewrite Hexec in Hexec'. injection Hexec' as <- <-.
  destruct Hstep as [(a & p & it & -> & Hr & Hl & Hit & Hexp)|[Hsub Hzero]].
  - assert (∃ h, r = RetIndex h) as (h & ->).
    { simpl in Hexec. apply bind_Some in Hexec as ([s h] & _ & [= <- <-]). eauto. }
    assert (h ≠ 0) as Hh by congruence.
    destruct (indices_add w a w' h Hwf Hadm Hexec Hh) as (Hi & Hidx & Hnext).
    simpl in Hnw. pose proof (wf_index w Hwf) as Hrange.
    assert (h = MetaItemIndex (MetaCache (st w)) + 1) as Hh'.
    { rewrite Hnext. unfold next_index. rewrite to_UINT64_minus_1.
      case_decide; [lia|]. apply to_UINT64_id.
      unfold is_UINT64 in *. lia. }
    unfold ascending. rewrite Hi, Hidx. split.
    + apply StronglySorted_app. split_and!; [|done|repeat constructor].
      intros x1 x2 Hx1 ->%list_elem_of_singleton.
      rewrite Forall_forall in Hbound. specialize (Hbound x1 Hx1). lia.
    + apply Forall_app. split.
      * eapply Forall_impl; [exact Hbound|]. simpl. intros; lia.
      * repeat constructor; unfold is_UINT64 in *; lia.
  - pose proof (indices_sublist w w' Hwf Hwf' Hsurv Hsub) as Hes.
    assert (MetaItemIndex (MetaCache (st w')) = MetaItemIndex (MetaCache (st w)))
      as Hidx.
    { destruct (frame_index _ _ _ (exec_frame w c w' r Hwf Hadm Hexec))
        as [?|[a ->]]; [done|].
      rewrite (Hzero a eq_refl) in Hexec.
      by destruct (exec_Add_cases w a w' 0 Hwf Hadm Hexec)
        as [(_ & _ & -> & _)|(_ & ? & _)]. }
    unfold ascending. rewrite Hidx. split.
    + by eapply StronglySorted_lt_sublist.
    + by eapply Forall_sublist.
Qed.

Lemma reachable_ascending w : reachable_under no_index_wrap w → ascending w.
Proof.
  induction 1 as [? ? ? ? ? w Hadm Hc|w c w' r Hr IH Hadm Hnw Hexec].
  - unfold create, MetaCacheCreate in Hc. case_decide; simpl in Hc; [done|].
    injection Hc as <-. split; constructor.
  - eapply ascending_step; [by eapply reachable_under_wf|done..].
Qed.

(** Two items of the list with one index are one item. *)
Lemma ascending_unique w p p' :
  ascending w →
  p ∈ ItemList (MetaCache (st w)) → p' ∈ ItemList (MetaCache (st w)) →
  index (st w) p = index (st w) p' → p = p'.
Proof. intros [Hs _]. by apply StronglySorted_lt_inj. Qed.

(** No item of the list has the index 0, wrap-around or not. *)
Lemma reachable_positive w :
  reachable w → Forall (λ i, 0 < i) (indices (st w)).
Proof.
  induction 1 as [? ? ? ? ? w Hadm Hc|w c w' r Hr IH Hadm _ Hexec].
  - unfold create, MetaCacheCreate in Hc. case_decide; simpl in Hc; [done|].
    injection Hc as <-. constructor.
  - pose proof (reachable_under_wf _ w Hr) as Hwf.
    destruct (exec_spec w c Hwf Hadm)
      as (w1 & r1 & Hexec' & Hwf' & Hsurv & _ & Hstep).
    rewrite Hexec in Hexec'. injection Hexec' as <- <-.
    destruct Hstep as [(a & p & it & -> & Hne & _)|[Hsub _]].
    + assert (∃ h, r = RetIndex h) as (h & ->).
      { simpl in Hexec. apply bind_Some in Hexec as ([s h] & _ & [= <- <-]). eauto. }
      assert (h ≠ 0) as Hh by congruence.
      destruct (indices_add w a w' h Hwf Hadm Hexec Hh) as (-> & _ & Hnext).
      apply Forall_app. split; [done|]. repeat constructor.
      rewrite Hnext. apply next_index_pos, (wf_index w Hwf).
    + eapply Forall_sublist; [|exact IH]. by apply indices_sublist.
Qed.

Lemma index_load s p it : load_item s p = Some it → index s p = ItemIndex it.
Proof. intros Hit. unfold index. by rewrite Hit. Qed.

Lemma two_items_world_reachable P :
  run_under P [Add (example_add ["x"%byte] 1000 10);
               Add (example_add ["y"%byte] 2000 11)] (example_world 3) →
  reachable_under P two_items_world.
Proof.
  intros Hrun.
  apply (reachable_run _ [Add (example_add ["x"%byte] 1000 10);
                         Add (example_add ["y"%byte] 2000 11)] (example_world 3)).
  - apply (reachable_create _ 56 3 4096 100 4096); [|reflexivity].
    unfold admissible_create. in_range.
  - exact Hrun.
  - vm_compute. reflexivity.
Qed.

Lemma two_items_world_no_index_wrap : reachable_under no_index_wrap two_items_world.
Proof. apply two_items_world_reachable. vm_compute. done. Qed.

Lemma MetaCacheAddItem_ASSERT_true s i chain :
  (∀ x, x ∈ chain → ∃ it, load_item s x = Some it ∧ ItemIndex it ≠ i) →
  MetaCacheAddItem_ASSERT s i chain = Some true.
Proof.
  induction chain as [|x chain IH]; intros Hall; simpl; [done|].
  destruct (Hall x) as (it & -> & Hne); [by left|]. simpl.
  rewrite decide_True by done. apply IH. intros y Hy. apply Hall. by right.
Qed.

(** What [MetaCacheAddItem_prepare] leaves of the pool. *)
Lemma MetaCacheAddItem_prepare_frame a s s1 p q :
  MetaCacheAddItem_prepare a s = Some (s1, Some (p, q)) →
  p = add_alloc_Item a ∧ q = add_alloc_ItemBuffer a ∧ p ≠ 0 ∧ q ≠ 0 ∧
  ∀ x, x ≠ p → x ≠ q → Pool s1 !! x = Pool s !! x.
Proof.
  unfold MetaCacheAddItem_prepare, FspAllocNonPaged, FspAlloc, emit, set_pool.
  intros H. repeat case_decide; simplify_option_eq; try done.
  unfold store in *. simpl in *.
  repeat match goal with
    | H : context [match ?h !! ?k with _ => _ end] |- _ =>
        destruct (h !! k) eqn:?; simplify_eq
    end.
  simpl. split_and!; try done.
  intros x Hp Hq. by rewrite !lookup_insert_ne.
Qed.

(** ** Indices are handed out in ascending order *)

(** X3: until the 64-bit counter of line 195 wraps around, the indices of
    the items of the list are strictly ascending from the head, all between
    1 and [MetaItemIndex]; so no two items of the list share an index, and
    an insertion that succeeds returns [MetaItemIndex + 1], an index larger
    than that of every item of the list. *)
Theorem X3_indices_ascending w :
  reachable_under no_index_wrap w →
  StronglySorted Z.lt (indices (st w)) ∧
  Forall (λ i, 1 ≤ i ≤ MetaItemIndex (MetaCache (st w))) (indices (st w)) ∧
  (∀ p p' it it',
     p ∈ ItemList (MetaCache (st w)) → p' ∈ ItemList (MetaCache (st w)) →
     load_item (st w) p = Some it → load_item (st w) p' = Some it' →
     ItemIndex it = ItemIndex it' → p = p') ∧
  ∀ a w' h,
    admissible w (Add a) → no_index_wrap w (Add a) →
    exec (Add a) w = Some (w', RetIndex h) → h ≠ 0 →
    h = MetaItemIndex (MetaCache (st w)) + 1 ∧
    Forall (λ i, i < h) (indices (st w)) ∧
    indices (st w') = indices (st w) ++ [h].
Proof.
  intros Hr. pose proof (reachable_ascending w Hr) as Hasc.
  pose proof Hasc as [Hsorted Hbound].
  pose proof (reachable_under_wf _ w Hr) as Hwf.
  split_and!; [done| | |].
  - eapply Forall_impl; [exact Hbound|]. simpl. intros; lia.
  - intros p p' it it' Hp Hp' Hit Hit' Heq.
    apply (ascending_unique w p p' Hasc Hp Hp').
    by rewrite (index_load _ _ _ Hit), (index_load _ _ _ Hit').
  - intros a w' h Hadm Hnw Hexec Hh.
    destruct (indices_add w a w' h Hwf Hadm Hexec Hh) as (Hi & _ & Hnext).
    simpl in Hnw. pose proof (wf_index w Hwf) as Hrange.
    assert (h = MetaItemIndex (MetaCache (st w)) + 1) as Hh'.
    { rewrite Hnext. unfold next_index. rewrite to_UINT64_minus_1.
      case_decide; [lia|]. apply to_UINT64_id.
      unfold is_UINT64 in *. lia. }
    split_and!; [done| |done].
    eapply Forall_impl; [exact Hbound|]. simpl. intros; lia.
Qed.

Lemma X3_indices_ascending_witness :
  indices (st two_items_world) = [1; 2] ∧
  StronglySorted Z.lt (indices (st two_items_world)).
Proof.
  split; [vm_compute; reflexivity|].
  exact (proj1 (X3_indices_ascending two_items_world two_items_world_no_index_wrap)).
Defined.

(** ** The assertion of the debug build *)

(** X4: until the counter wraps around, the assertions of lines 202-205
    hold: in the state under the lock in which the loop runs, after
    [MetaCacheAddItem_prepare] and the store of the new index into the item
    at [p], no item of the chain that the new item is about to be linked
    into has the new index. *)
Theorem X4_debug_assertion w a s1 p q it chain :
  reachable_under no_index_wrap w →
  admissible w (Add a) → no_index_wrap w (Add a) →
  MetaCacheAddItem_prepare a (st w) = Some (s1, Some (p, q)) →
  ItemBuckets (MetaCache (st w))
    !! Z.to_nat (next_index (MetaItemIndex (MetaCache (st w)))
                 mod ItemBucketCount (MetaCache (st w))) = Some chain →
  MetaCacheAddItem_ASSERT (set_pool (<[p := BItem it]> (Pool s1)) s1)
    (next_index (MetaItemIndex (MetaCache (st w)))) chain = Some true.
Proof.
  intros Hr Hadm Hnw Hprep Hchain.
  pose proof (reachable_ascending w Hr) as [_ Hbound].
  pose proof (reachable_under_wf _ w Hr) as Hwf.
  destruct (MetaCacheAddItem_prepare_frame _ _ _ _ _ Hprep)
    as (-> & -> & Hp & Hq & Hframe).
  destruct Hadm as (_ & _ & Hfp & Hfq & _).
  destruct Hfp as [?|[_ Hfp]]; [done|]. destruct Hfq as [?|[_ Hfq]]; [done|].
  simpl in Hnw. pose proof (wf_index w Hwf) as Hrange.
  apply MetaCacheAddItem_ASSERT_true. intros x Hx.
  destruct (wf_chain w Hwf _ chain x Hchain Hx) as (itx & Hitx & _).
  pose proof (wf_chain_resident w _ chain x Hwf Hchain Hx) as Hin.
  exists itx. split.
  - apply load_item_Some in Hitx. apply load_item_Some. simpl.
    rewrite lookup_insert_ne by congruence. rewrite Hframe by congruence. done.
  - rewrite Forall_forall in Hbound.
    assert (index (st w) x ∈ indices (st w)) as Hi
      by by apply list_elem_of_fmap_2.
    specialize (Hbound _ Hi). rewrite (index_load _ _ _ Hitx) in Hbound.
    unfold next_index. rewrite to_UINT64_minus_1. case_decide; [lia|].
    rewrite to_UINT64_id by (unfold is_UINT64 in *; lia). lia.
Qed.

Lemma one_bucket_world_no_index_wrap : reachable_under no_index_wrap one_bucket_world.
Proof.
  apply (reachable_run _ [Add (example_add ["x"%byte] 1000 10);
                         Add (example_add ["y"%byte] 2000 11)]
           (mkWorld (mkState (mkCache 3 4096 100 0 [] 0 1 [[]]) ∅ []) [] 0)).
  - apply (reachable_create _ 4088 3 4096 100 4096); [|reflexivity].
    unfold admissible_create. in_range.
  - vm_compute. done.
  - vm_compute. reflexivity.
Qed.

Lemma X4_debug_assertion_witness :
  ItemBuckets (MetaCache (st one_bucket_world)) = [[2000; 1000]] ∧
  MetaCacheAddItem_ASSERT
    (set_pool (<[3000 := BItem (mkItem 3064 3 112 1)]> (Pool third_prepared))
       third_prepared) 3 [2000; 1000] = Some true.
Proof.
  split; [vm_compute; reflexivity|].
  apply (X4_debug_assertion one_bucket_world (example_add ["z"%byte] 3000 12)
           third_prepared 3000 3064 (mkItem 3064 3 112 1) [2000; 1000]).
  - exact one_bucket_world_no_index_wrap.
  - apply admissibleb_admissible. vm_compute. reflexivity.
  - vm_compute. reflexivity.
  - vm_compute. reflexivity.
  - vm_compute. reflexivity.
Defined.

(** An item and a buffer are different blocks. *)
Lemma wf_item_not_buffer w p p' it it' :
  wf w → load_item (st w) p = Some it → load_item (st w) p' = Some it' →
  p' ≠ ItemBuffer it.
Proof.
  intros Hwf Hit Hit' ->.
  destruct (wf_item w Hwf p it Hit) as ((b & Hb & _) & _).
  exact (block_item_buffer _ _ _ _ Hit' Hb).
Qed.

(** ** Lookup by index *)

(** X5: until the counter wraps around, the index of an item of the list
    leads to that item and to no other: [MetaCacheReferenceItemBuffer] of
    the index returns the address of the payload of the item's own buffer,
    stores the length of its bytes through a non-null [PSize], and takes
    one more reference on that item. *)
Theorem X5_lookup_by_handle w p it b PSize :
  reachable_under no_index_wrap w →
  p ∈ ItemList (MetaCache (st w)) →
  load_item (st w) p = Some it →
  load_buffer (st w) (ItemBuffer it) = Some b →
  Z.of_nat (length (borrowed w)) < LONG_MAX - 1 →
  ∃ w',
    exec (Borrow (ItemIndex it) PSize) w =
      Some (w', RetReference
                  (mkReferenceResult (ItemBuffer it + sizeof_ITEM_BUFFER)
                     (PSize_store PSize (Z.of_nat (length (Buffer b)))))) ∧
    ItemBuffer it + sizeof_ITEM_BUFFER ≠ 0 ∧
    payload (st w') (ItemBuffer it + sizeof_ITEM_BUFFER) = Some (Buffer b) ∧
    load_item (st w') p =
      Some (mkItem (ItemBuffer it) (ItemIndex it) (ExpirationTime it)
              (RefCount it + 1)) ∧
    borrowed w' = (ItemBuffer it + sizeof_ITEM_BUFFER) :: borrowed w.
Proof.
  intros Hr Hp Hit Hb Hlen.
  pose proof (reachable_ascending w Hr) as Hasc.
  pose proof (reachable_under_wf _ w Hr) as Hwf.
  destruct (wf_item w Hwf p it Hit) as (_ & Hidx & _).
  destruct (wf_buffer w Hwf _ b Hb) as (_ & Hsize & _).
  destruct (wf_item_buffer w p it Hwf Hit) as [Hbuf Hne].
  pose proof (wf_address w Hwf _ Hbuf) as Hpos.
  assert (ItemBuffer it + sizeof_ITEM_BUFFER ≠ 0) as Hnz
    by (unfold sizeof_ITEM_BUFFER; lia).
  destruct (MetaCacheReferenceItemBuffer_Some w (ItemIndex it) PSize Hwf Hidx Hlen)
    as [[_ Hmiss]|(p0 & it0 & b0 & Hp0 & Hit0 & Hidx0 & Hb0 & Hh)].
  { by destruct (Hmiss p it Hp Hit). }
  assert (p0 = p) as ->.
  { apply (ascending_unique w p0 p Hasc Hp0 Hp).
    by rewrite (index_load _ _ _ Hit), (index_load _ _ _ Hit0). }
  rewrite Hit in Hit0. injection Hit0 as <-.
  rewrite Hb in Hb0. injection Hb0 as <-.
  eexists. split_and!.
  - simpl. rewrite Hh. simpl. rewrite decide_False by done.
    rewrite Hsize. reflexivity.
  - done.
  - unfold payload, load_buffer. simpl.
    replace (ItemBuffer it + sizeof_ITEM_BUFFER - sizeof_ITEM_BUFFER)
      with (ItemBuffer it) by lia.
    rewrite lookup_insert_ne by done.
    apply load_buffer_Some in Hb. by rewrite Hb.
  - unfold load_item. simpl. by rewrite lookup_insert_eq.
  - done.
Qed.

Lemma X5_lookup_by_handle_witness :
  ∃ w',
    exec (Borrow 2 5000) two_items_world =
      Some (w', RetReference (mkReferenceResult 2080 (Some 1))) ∧
    2080 ≠ 0 ∧
    payload (st w') 2080 = Some ["y"%byte] ∧
    load_item (st w') 2000 = Some (mkItem 2064 2 111 2) ∧
    borrowed w' = [2080].
Proof.
  apply (X5_lookup_by_handle two_items_world 2000 (mkItem 2064 2 111 1)
           (mkItemBuffer 2000 1 ["y"%byte]) 5000).
  - exact two_items_world_no_index_wrap.
  - change (2000 ∈ [1000; 2000]). set_solver.
  - vm_compute. reflexivity.
  - vm_compute. reflexivity.
  - vm_compute. reflexivity.
Defined.

(** ** Invalidation by index *)

(** X6: until the counter wraps around, [MetaCacheInvalidateItem] of the
    index of an item of the list unlinks that item and no other: the
    count goes down by one, every other item stays in the list with its
    record untouched, no item of the list has the index any more, and
    [MetaCacheReferenceItemBuffer] of the index finds nothing. *)
Theorem X6_invalidate_by_handle w p it :
  reachable_under no_index_wrap w →
  p ∈ ItemList (MetaCache (st w)) →
  load_item (st w) p = Some it →
  ∃ w',
    exec (Invalidate (ItemIndex it)) w = Some (w', RetVoid) ∧
    ItemList (MetaCache (st w')) = unlink p (ItemList (MetaCache (st w))) ∧
    (p ∉ ItemList (MetaCache (st w'))) ∧
    ItemCount (MetaCache (st w')) = ItemCount (MetaCache (st w)) - 1 ∧
    (∀ p', p' ≠ p → p' ∈ ItemList (MetaCache (st w)) →
       p' ∈ ItemList (MetaCache (st w')) ∧
       load_item (st w') p' = load_item (st w) p') ∧
    (∀ p' it', p' ∈ ItemList (MetaCache (st w')) →
       load_item (st w') p' = Some it' → ItemIndex it' ≠ ItemIndex it) ∧
    ∀ PSize, Z.of_nat (length (borrowed w)) < LONG_MAX - 1 →
      ∃ w'', exec (Borrow (ItemIndex it) PSize) w' =
               Some (w'', RetReference (mkReferenceResult 0 (PSize_store PSize 0))).
Proof.
  intros Hr Hp Hit.
  pose proof (reachable_ascending w Hr) as Hasc.
  pose proof (reachable_under_wf _ w Hr) as Hwf.
  destruct (wf_item w Hwf p it Hit) as (_ & Hidx & _).
  destruct (MetaCacheInvalidateItem_Some w (ItemIndex it) Hwf Hidx)
    as [[_ Hmiss]|(p0 & it0 & chain & Hp0 & Hit0 & Hidx0 & Hchain & Hh)].
  { by destruct (Hmiss p it Hp Hit). }
  assert (p0 = p) as ->.
  { apply (ascending_unique w p0 p Hasc Hp0 Hp).
    by rewrite (index_load _ _ _ Hit), (index_load _ _ _ Hit0). }
  rewrite Hit in Hit0. injection Hit0 as <-.
  pose proof (wf_evicted w p it chain (clock w) Hwf Hp Hit Hchain) as Hwf'.
  pose proof (NoDup_unlink p _ (wf_nodup w Hwf)) as [_ Hnotin].
  assert (Hother : ∀ p', p' ≠ p → p' ∈ ItemList (MetaCache (st w)) →
            load_item (evicted p it chain (st w)) p' = load_item (st w) p').
  { intros p' Hne Hp'. unfold load_item. simpl. rewrite lookup_released.
    destruct (wf_resident_chain w p' Hwf Hp') as (it' & _ & Hit' & _).
    pose proof (wf_item_not_buffer w p p' it it' Hwf Hit Hit') as Hnb.
    repeat case_decide; try done. by destruct H0. }
  assert (Hgone : ∀ p' it', p' ∈ unlink p (ItemList (MetaCache (st w))) →
            load_item (evicted p it chain (st w)) p' = Some it' →
            ItemIndex it' ≠ ItemIndex it).
  { intros p' it' Hp' Hit' Heq.
    assert (p' ≠ p) as Hne by (intros ->; done).
    apply elem_of_unlink in Hp'. rewrite (Hother p' Hne Hp') in Hit'.
    apply Hne, (ascending_unique w p' p Hasc Hp' Hp).
    by rewrite (index_load _ _ _ Hit), (index_load _ _ _ Hit'). }
  eexists. split_and!.
  - simpl. rewrite Hh. simpl. reflexivity.
  - done.
  - done.
  - done.
  - intros p' Hne Hp'. split; [by apply elem_of_unlink_ne|by apply Hother].
  - exact Hgone.
  - intros PSize Hlen.
    destruct (MetaCacheReferenceItemBuffer_Some _ (ItemIndex it) PSize Hwf' Hidx Hlen)
      as [[Hm _]|(p1 & it1 & b1 & Hp1 & Hit1 & Hidx1 & _)].
    + eexists. simpl in Hm. simpl. rewrite Hm. simpl. reflexivity.
    + simpl in Hp1, Hit1. by destruct (Hgone p1 it1 Hp1 Hit1).
Qed.

Lemma X6_invalidate_by_handle_witness :
  ∃ w',
    exec (Invalidate 1) two_items_world = Some (w', RetVoid) ∧
    ItemList (MetaCache (st w')) = [2000] ∧
    (1000 ∉ ItemList (MetaCache (st w'))) ∧
    ItemCount (MetaCache (st w')) = 1 ∧
    (∀ p', p' ≠ 1000 → p' ∈ [1000; 2000] →
       p' ∈ ItemList (MetaCache (st w')) ∧
       load_item (st w') p' = load_item (st two_items_world) p') ∧
    (∀ p' it', p' ∈ ItemList (MetaCache (st w')) →
       load_item (st w') p' = Some it' → ItemIndex it' ≠ 1) ∧
    ∀ PSize, 0 < LONG_MAX - 1 →
      ∃ w'', exec (Borrow 1 PSize) w' =
               Some (w'', RetReference (mkReferenceResult 0 (PSize_store PSize 0))).
Proof.
  apply (X6_invalidate_by_handle two_items_world 1000 (mkItem 1064 1 110 1)).
  - exact two_items_world_no_index_wrap.
  - change (1000 ∈ [1000; 2000]). set_solver.
  - vm_compute. reflexivity.
Defined.

(** ** Lookups that find nothing *)

(** X7: [MetaCacheReferenceItemBuffer] never changes the cache header; it
    returns null exactly when no item of the list has the index, which is
    always so for the index 0, and then it stores 0 through a non-null
    [PSize] and leaves the pool as it was. *)
Theorem X7_reference_miss w i PSize :
  reachable w → admissible w (Borrow i PSize) →
  ∃ w' r,
    exec (Borrow i PSize) w = Some (w', RetReference r) ∧
    MetaCache (st w') = MetaCache (st w) ∧
    (ref_return r = 0 ↔
       ∀ p it, p ∈ ItemList (MetaCache (st w)) →
               load_item (st w) p = Some it → ItemIndex it ≠ i) ∧
    (ref_return r = 0 →
       Pool (st w') = Pool (st w) ∧ borrowed w' = borrowed w ∧
       ref_PSize_store r = PSize_store PSize 0) ∧
    (i = 0 → ref_return r = 0).
Proof.
  intros Hr [Hi Hlen].
  pose proof (reachable_under_wf _ w Hr) as Hwf.
  pose proof (reachable_positive w Hr) as Hpos.
  destruct (MetaCacheReferenceItemBuffer_Some w i PSize Hwf Hi Hlen)
    as [[Hm Hmiss]|(p & it & b & Hp & Hit & Hidx & Hb & Hh)].
  - do 2 eexists. split_and!.
    + simpl. rewrite Hm. simpl. reflexivity.
    + done.
    + done.
    + done.
    + done.
  - destruct (wf_item_buffer w p it Hwf Hit) as [Hbuf Hne].
    pose proof (wf_address w Hwf _ Hbuf) as Hq.
    assert (ItemBuffer it + sizeof_ITEM_BUFFER ≠ 0) as Hnz
      by (unfold sizeof_ITEM_BUFFER; lia).
    do 2 eexists. split_and!.
    + simpl. rewrite Hh. simpl. reflexivity.
    + done.
    + simpl. split; [done|]. intros Hmiss. by destruct (Hmiss p it Hp Hit).
    + simpl. done.
    + simpl. intros ->. rewrite Forall_forall in Hpos.
      assert (0 < index (st w) p) as Hlt
        by (apply Hpos; by apply list_elem_of_fmap_2).
      rewrite (index_load _ _ _ Hit) in Hlt. lia.
Qed.

Lemma X7_reference_miss_witness :
  ∃ w' r,
    exec (Borrow 7 5000) two_items_world = Some (w', RetReference r) ∧
    MetaCache (st w') = MetaCache (st two_items_world) ∧
    (ref_return r = 0 ↔
       ∀ p it, p ∈ ItemList (MetaCache (st two_items_world)) →
               load_item (st two_items_world) p = Some it → ItemIndex it ≠ 7) ∧
    (ref_return r = 0 →
       Pool (st w') = Pool (st two_items_world) ∧
       borrowed w' = borrowed two_items_world ∧
       ref_PSize_store r = PSize_store 5000 0) ∧
    (7 = 0 → ref_return r = 0).
Proof.
  apply (X7_reference_miss two_items_world 7 5000).
  - apply two_items_world_reachable. vm_compute. done.
  - apply admissibleb_admissible. vm_compute. reflexivity.
Defined.

(** X8: [MetaCacheInvalidateItem] of the index 0, or of an index that no
    item of the list has, changes neither the cache nor the pool. *)
Theorem X8_invalidate_miss w i :
  reachable w → is_UINT64 i →
  (i = 0 ∨ ∀ p it, p ∈ ItemList (MetaCache (st w)) →
                   load_item (st w) p = Some it → ItemIndex it ≠ i) →
  ∃ w',
    exec (Invalidate i) w = Some (w', RetVoid) ∧
    MetaCache (st w') = MetaCache (st w) ∧
    Pool (st w') = Pool (st w) ∧
    borrowed w' = borrowed w.
Proof.
  intros Hr Hi Hno.
  pose proof (reachable_under_wf _ w Hr) as Hwf.
  pose proof (reachable_positive w Hr) as Hpos.
  destruct (MetaCacheInvalidateItem_Some w i Hwf Hi)
    as [[Hm _]|(p & it & chain & Hp & Hit & Hidx & _)].
  - eexists. split_and!; [simpl; rewrite Hm; simpl; reflexivity|done..].
  - exfalso. destruct Hno as [->|Hno]; [|by destruct (Hno p it Hp Hit)].
    rewrite Forall_forall in Hpos.
    assert (0 < index (st w) p) as Hlt
      by (apply Hpos; by apply list_elem_of_fmap_2).
    rewrite (index_load _ _ _ Hit) in Hlt. lia.
Qed.

Lemma X8_invalidate_miss_witness :
  ∃ w',
    exec (Invalidate 0) two_items_world = Some (w', RetVoid) ∧
    MetaCache (st w') = MetaCache (st two_items_world) ∧
    Pool (st w') = Pool (st two_items_world) ∧
    borrowed w' = borrowed two_items_world.
Proof.
  apply (X8_invalidate_miss two_items_world 0).
  - apply two_items_world_reachable. vm_compute. done.
  - unfold is_UINT64, UINT64_MAX. lia.
  - by left.
Defined.

(** ** A reference taken and given back *)

(** X9: a pointer that [MetaCacheReferenceItemBuffer] returned and that is
    given back to [MetaCacheDereferenceItemBuffer] right away leaves the
    cache and the pool exactly as they were before the two calls. *)
Theorem X9_reference_dereference w i PSize w1 r :
  reachable w → admissible w (Borrow i PSize) →
  exec (Borrow i PSize) w = Some (w1, RetReference r) →
  ref_return r ≠ 0 →
  ∃ w2,
    exec (Return (ref_return r)) w1 = Some (w2, RetVoid) ∧
    MetaCache (st w2) = MetaCache (st w) ∧
    Pool (st w2) = Pool (st w) ∧
    borrowed w2 = borrowed w.
Proof.
  intros Hr [Hi Hlen] Hexec Hnz.
  pose proof (reachable_under_wf _ w Hr) as Hwf.
  destruct (MetaCacheReferenceItemBuffer_Some w i PSize Hwf Hi Hlen)
    as [[Hm _]|(p & it & b & Hp & Hit & Hidx & Hb & Hh)].
  { simpl in Hexec. rewrite Hm in Hexec. simpl in Hexec.
    injection Hexec as <- <-. done. }
  simpl in Hexec. rewrite Hh in Hexec. simpl in Hexec.
  rewrite decide_False in Hexec
    by (intros Heq; apply Hnz; injection Hexec as _ <-; exact Heq).
  injection Hexec as <- <-. simpl.
  destruct (wf_item w Hwf p it Hit) as ((b' & Hb' & Hbp) & _ & _ & _ & Hrc).
  rewrite Hb in Hb'. injection Hb' as <-.
  destruct (wf_item_buffer w p it Hwf Hit) as [Hbuf Hne].
  pose proof (wf_refcount_range w p it Hwf Hit) as Hrange.
  unfold MetaCacheDereferenceItemBuffer, load_buffer. simpl.
  replace (ItemBuffer it + sizeof_ITEM_BUFFER - sizeof_ITEM_BUFFER)
    with (ItemBuffer it) by lia.
  rewrite lookup_insert_ne by done.
  apply load_buffer_Some in Hb. rewrite Hb. simpl. rewrite Hbp.
  rewrite (MetaCacheDereferenceItem_Some p
             (mkItem (ItemBuffer it) (ItemIndex it) (ExpirationTime it)
                (RefCount it + 1))); simpl.
  - eexists. split; [reflexivity|]. simpl. split_and!; [done| |].
    + unfold released. simpl. rewrite decide_False by lia.
      rewrite insert_insert_eq.
      replace (RefCount it + 1 - 1) with (RefCount it) by lia.
      apply insert_id. apply load_item_Some in Hit. by destruct it.
    + by rewrite decide_True.
  - unfold load_item. simpl. by rewrite lookup_insert_eq.
  - pose proof (outstanding_bounds (ItemBuffer it + sizeof_ITEM_BUFFER) (borrowed w)).
    destruct (wf_item w Hwf p it Hit) as (_ & _ & _ & Heq & _).
    unfold resident in Heq. case_decide; lia.
  - rewrite lookup_insert_ne by done. done.
  - done.
Qed.

Lemma X9_reference_dereference_witness :
  ∃ w2,
    exec (Return 2080) two_items_borrowed = Some (w2, RetVoid) ∧
    MetaCache (st w2) = MetaCache (st two_items_world) ∧
    Pool (st w2) = Pool (st two_items_world) ∧
    borrowed w2 = borrowed two_items_world.
Proof.
  apply (X9_reference_dereference two_items_world 2 5000 two_items_borrowed
           (mkReferenceResult 2080 (Some 1))).
  - apply two_items_world_reachable. vm_compute. done.
  - apply admissibleb_admissible. vm_compute. reflexivity.
  - vm_compute. reflexivity.
  - simpl. lia.
Defined.

(** ** The sweep *)

Lemma MetaCacheInvalidateItems_result t clk w :
  wf w →
  ∃ s' k, MetaCacheInvalidateItems t (st w) = Some s' ∧
          wf (mkWorld s' (borrowed w) clk) ∧
          sweep_result t k w s'.
Proof.
  intros Hwf.
  destruct (MetaCacheInvalidateItems_Some t clk w Hwf) as (s' & Hs' & Hwf' & Hsw).
  pose proof (MetaCacheInvalidateItems_loop_prefix t _ w s' Hwf Hs') as Hpre.
  destruct (swept_expired _ _ _ Hpre) as (k & Hk & Hexp).
  pose proof (swept_survives _ _ _ Hsw) as Hsurv.
  pose proof (wf_nodup w Hwf) as Hnd.
  rewrite <- (take_drop k (ItemList (MetaCache (st w)))) in Hnd.
  apply NoDup_app in Hnd as (_ & Hdisj & _).
  assert (Hsub : ∀ p, p ∈ drop k (ItemList (MetaCache (st w))) →
                      p ∈ ItemList (MetaCache (st w))).
  { intros p Hp. eapply elem_of_sublist; [exact Hp|apply sublist_drop]. }
  exists s', k. split_and!; [done|done|]. split.
  - done.
  - done.
  - pose proof (swept_head _ _ _ Hsw) as Hhead. rewrite Hk in Hhead.
    destruct (drop k (ItemList (MetaCache (st w)))) as [|p l] eqn:Hd; [done|].
    destruct Hhead as (it & Hit & Hlt).
    assert (p ∈ drop k (ItemList (MetaCache (st w)))) as Hp by (rewrite Hd; by left).
    assert (expiration s' p = expiration (st w) p) as Heq.
    { apply (expiration_survives w (mkWorld s' (borrowed w) clk) p Hwf Hwf' Hsurv);
        [apply Hsub; rewrite ?Hd; by left|simpl; rewrite Hk, ?Hd; by left]. }
    rewrite <- Heq. unfold expiration. rewrite Hit. done.
  - intros p Hp. pose proof (Hsub p Hp) as Hin.
    destruct (wf_resident_chain w p Hwf Hin) as (it & _ & Hit & _).
    destruct (wf_item w Hwf p it Hit) as ((b & Hb & _) & _ & _ & Hrc & _).
    rewrite Hit. apply load_item_Some in Hit. apply load_buffer_Some in Hb.
    destruct (Hsurv p it b Hit Hb) as [[Hgone _]|(rc & Hp' & _)].
    + assert (p ∈ ItemList (MetaCache s')) as Hin' by by rewrite Hk.
      destruct (wf_resident_chain _ p Hwf' Hin') as (it' & _ & Hit' & _).
      simpl in Hit'. apply load_item_Some in Hit'. congruence.
    + apply load_item_Some in Hp'.
      destruct (wf_item _ Hwf' p _ Hp') as (_ & _ & _ & Hrc' & _).
      simpl in Hrc'. unfold resident in Hrc, Hrc'.
      rewrite decide_True in Hrc by done.
      rewrite decide_True in Hrc' by by rewrite Hk.
      rewrite Hp'. do 2 f_equal. destruct it; simpl in *. f_equal. lia.
  - intros p it Hp Hit.
    assert (p ∈ ItemList (MetaCache (st w))) as Hin
      by (eapply elem_of_sublist; [exact Hp|apply sublist_take]).
    assert (p ∉ ItemList (MetaCache s')) as Hout
      by (rewrite Hk; by apply Hdisj).
    destruct (wf_item w Hwf p it Hit) as ((b & Hb & _) & _ & _ & Hrc & _).
    unfold resident in Hrc. rewrite decide_True in Hrc by done.
    pose proof (outstanding_bounds (ItemBuffer it + sizeof_ITEM_BUFFER) (borrowed w)) as Hob.
    pose proof Hit as Hit0. pose proof Hb as Hb0.
    apply load_item_Some in Hit0. apply load_buffer_Some in Hb0.
    destruct (Hsurv p it b Hit0 Hb0) as [[Hgone Hgone']|(rc & Hp' & Hb')].
    + case_decide as Hone; [done|]. exfalso.
      assert (ItemBuffer it + sizeof_ITEM_BUFFER ∈ borrowed w) as Hq
        by (apply outstanding_pos_elem_of; lia).
      destruct (wf_borrowed _ Hwf' _ Hq) as [b' Hb'']. simpl in Hb''.
      replace (ItemBuffer it + sizeof_ITEM_BUFFER - sizeof_ITEM_BUFFER)
        with (ItemBuffer it) in Hb'' by lia.
      apply load_buffer_Some in Hb''. congruence.
    + pose proof Hp' as Hp''. apply load_item_Some in Hp''.
      destruct (wf_item _ Hwf' p _ Hp'') as (_ & _ & _ & Hrc' & Hpos').
      simpl in Hrc', Hpos'. unfold resident in Hrc'.
      rewrite decide_False in Hrc' by done.
      case_decide as Hone; [lia|]. split.
      * rewrite Hp''. do 3 f_equal. lia.
      * rewrite Hb. by apply load_buffer_Some.
Qed.

(** X10: [MetaCacheInvalidateExpired] takes items from the head of the
    list for as long as the head has expired, and stops at the first item
    that has not: the items it takes have all expired, the new head, if
    there is one, has not, the items it leaves keep their records, and an
    item it takes is freed together with its buffer when the cache held the
    only reference, and otherwise stays in the pool with one reference
    less and its buffer unchanged. *)
Theorem X10_sweep_expired w now :
  reachable w →
  ∃ w' (k : nat),
    exec (InvalidateExpired now) w = Some (w', RetVoid) ∧
    borrowed w' = borrowed w ∧
    sweep_result now k w (st w').
Proof.
  intros Hr. pose proof (reachable_under_wf _ w Hr) as Hwf.
  destruct (MetaCacheInvalidateItems_result now now w Hwf)
    as (s' & k & Hs' & _ & Hres).
  exists (mkWorld s' (borrowed w) now), k. split_and!; [|done|done].
  simpl. unfold MetaCacheInvalidateExpired. rewrite Hs'. done.
Qed.

Lemma three_items_world_reachable P :
  run_under P [Add (example_add ["x"%byte] 1000 10);
               Add (example_add ["y"%byte] 2000 11);
               Borrow 2 0;
               Add (example_add ["z"%byte] 3000 300)] (example_world 3) →
  reachable_under P three_items_world.
Proof.
  intros Hrun.
  apply (reachable_run _ [Add (example_add ["x"%byte] 1000 10);
                         Add (example_add ["y"%byte] 2000 11);
                         Borrow 2 0;
                         Add (example_add ["z"%byte] 3000 300)] (example_world 3)).
  - apply (reachable_create _ 56 3 4096 100 4096); [|reflexivity].
    unfold admissible_create. in_range.
  - exact Hrun.
  - vm_compute. reflexivity.
Qed.

Lemma X10_sweep_expired_witness :
  expirations (st three_items_world) = [110; 111; 400] ∧
  ∃ w' (k : nat),
    exec (InvalidateExpired 350) three_items_world = Some (w', RetVoid) ∧
    borrowed w' = borrowed three_items_world ∧
    sweep_result 350 k three_items_world (st w').
Proof.
  split; [vm_compute; reflexivity|].
  apply (X10_sweep_expired three_items_world 350).
  apply three_items_world_reachable. vm_compute. done.
Defined.

Lemma filter_app_split (P : Z → Prop) `{∀ x, Decision (P x)} (l1 l2 : list Z) :
  Forall (λ x, ¬ P x) l1 → Forall P l2 → filter P (l1 ++ l2) = l2.
Proof.
  intros H1 H2. rewrite filter_app.
  replace (filter P l1) with (@nil Z).
  - simpl. induction H2 as [|x l Hx Hl IH]; [done|].
    rewrite filter_cons_True by done. by f_equal.
  - induction H1 as [|x l Hx Hl IH]; [done|].
    by rewrite filter_cons_False.
Qed.

(** X11: when the list is in order of expiration, that is when the calls
    run one after the other and no sum of tick and timeout exceeds the
    largest [UINT64], [MetaCacheInvalidateExpired] removes exactly the
    expired items: the list it leaves is the list it found without the
    items whose expiration time is at or before [now], and holds no such
    item. *)
Theorem X11_sweep_exact w now :
  reachable_under no_wrap w →
  ∃ w',
    exec (InvalidateExpired now) w = Some (w', RetVoid) ∧
    ItemList (MetaCache (st w')) =
      filter (λ p, now < expiration (st w) p) (ItemList (MetaCache (st w))) ∧
    Forall (λ e, now < e) (expirations (st w')).
Proof.
  intros Hr. pose proof (reachable_under_wf _ w Hr) as Hwf.
  pose proof (reachable_timely w Hr) as [Hsorted _].
  destruct (MetaCacheInvalidateItems_result now now w Hwf)
    as (s' & k & Hs' & Hwf' & [Hl Hexp Hhead Hkept _]).
  exists (mkWorld s' (borrowed w) now).
  assert (Hrest : Forall (λ p, now < expiration (st w) p)
                    (drop k (ItemList (MetaCache (st w))))).
  { unfold expirations in Hsorted.
    rewrite <- (take_drop k (ItemList (MetaCache (st w)))), fmap_app in Hsorted.
    apply StronglySorted_app_1_r in Hsorted.
    destruct (drop k (ItemList (MetaCache (st w)))) as [|p l]; [done|].
    rewrite fmap_cons in Hsorted. apply StronglySorted_inv in Hsorted as [_ Hall].
    apply Forall_cons. split; [done|].
    rewrite Forall_fmap in Hall. eapply Forall_impl; [exact Hall|].
    simpl. intros; lia. }
  split_and!.
  - simpl. unfold MetaCacheInvalidateExpired. rewrite Hs'. done.
  - simpl. rewrite Hl.
    rewrite <- (take_drop k (ItemList (MetaCache (st w)))) at 2.
    symmetry. apply filter_app_split; [|done].
    eapply Forall_impl; [exact Hexp|]. simpl. intros; lia.
  - unfold expirations. simpl. rewrite Hl. rewrite Forall_fmap.
    apply Forall_forall. intros p Hp. simpl.
    rewrite Forall_forall in Hrest. specialize (Hrest p Hp).
    unfold expiration in *. by rewrite (Hkept p Hp).
Qed.

Lemma X11_sweep_exact_witness :
  ∃ w',
    exec (InvalidateExpired 350) three_items_world = Some (w', RetVoid) ∧
    ItemList (MetaCache (st w')) =
      filter (λ p, 350 < expiration (st three_items_world) p) [1000; 2000; 3000] ∧
    Forall (λ e, 350 < e) (expirations (st w')).
Proof.
  apply (X11_sweep_exact three_items_world 350).
  apply three_items_world_reachable. vm_compute.
  repeat split; intros Hgt; discriminate Hgt.
Defined.

(** X12: a second [MetaCacheInvalidateExpired] at the same tick finds
    nothing to do: it leaves the cache and the pool as the first one left
    them. *)
Theorem X12_sweep_again w now w' :
  reachable w →
  exec (InvalidateExpired now) w = Some (w', RetVoid) →
  ∃ w'',
    exec (InvalidateExpired now) w' = Some (w'', RetVoid) ∧
    MetaCache (st w'') = MetaCache (st w') ∧
    Pool (st w'') = Pool (st w') ∧
    borrowed w'' = borrowed w'.
Proof.
  intros Hr Hexec. pose proof (reachable_under_wf _ w Hr) as Hwf.
  destruct (MetaCacheInvalidateItems_Some now now w Hwf) as (s' & Hs' & Hwf' & Hsw).
  simpl in Hexec. unfold MetaCacheInvalidateExpired in Hexec.
  rewrite Hs' in Hexec. simpl in Hexec. injection Hexec as <-.
  pose proof (swept_head _ _ _ Hsw) as Hhead.
  pose proof (MetaCacheInvalidateItems_pass_Some _ now Hwf') as Hpass.
  simpl in Hpass.
  assert (MetaCacheInvalidateItems_pass now s' =
            Some (KeReleaseSpinLock (KeAcquireSpinLock s'), false)) as Hp.
  { destruct (ItemList (MetaCache s')) as [|p l]; [done|].
    destruct Hhead as (it & Hit & Hlt).
    destruct Hpass as (it' & chain & Hit' & _ & ->).
    rewrite Hit in Hit'. injection Hit' as <-.
    by rewrite decide_False by lia. }
  eexists. split_and!.
  - simpl. unfold MetaCacheInvalidateExpired, MetaCacheInvalidateItems.
    simpl. rewrite Hp. simpl. reflexivity.
  - done.
  - done.
  - done.
Qed.

Lemma X12_sweep_again_witness :
  ItemList (MetaCache (st three_items_swept)) = [3000] ∧
  ∃ w'',
    exec (InvalidateExpired 350) three_items_swept = Some (w'', RetVoid) ∧
    MetaCache (st w'') = MetaCache (st three_items_swept) ∧
    Pool (st w'') = Pool (st three_items_swept) ∧
    borrowed w'' = borrowed three_items_swept.
Proof.
  split; [vm_compute; reflexivity|].
  apply (X12_sweep_again three_items_world 350 three_items_swept).
  - apply three_items_world_reachable. vm_compute. done.
  - vm_compute. reflexivity.
Defined.

(** ** Every block of the pool is accounted for *)

Lemma wf_held w p it :
  wf w → load_item (st w) p = Some it →
  p ∈ ItemList (MetaCache (st w)) ∨
  ItemBuffer it + sizeof_ITEM_BUFFER ∈ borrowed w.
Proof.
  intros Hwf Hit.
  destruct (wf_item w Hwf p it Hit) as (_ & _ & _ & Hrc & Hpos).
  unfold resident in Hrc. case_decide; [by left|].
  right. apply outstanding_pos_elem_of. lia.
Qed.

Lemma wf_accounted w x :
  wf w → is_Some (Pool (st w) !! x) → accounted w x.
Proof.
  intros Hwf [blk Hx]. destruct blk as [|it|b].
  - by destruct (wf_raw w Hwf x).
  - apply load_item_Some in Hx.
    destruct (wf_item w Hwf x it Hx) as ((b & Hb & _) & _).
    exists x, it, b. split_and!; [done|done|by left|by apply wf_held].
  - apply load_buffer_Some in Hx.
    destruct (wf_buffer w Hwf x b Hx) as ((it & Hit & Hbuf) & _).
    exists (Item b), it, b. rewrite Hbuf.
    split_and!; [done|done|by right|].
    rewrite <- Hbuf. by apply wf_held.
Qed.

Lemma wf_empty w :
  wf w → ItemList (MetaCache (st w)) = [] → borrowed w = [] → Pool (st w) = ∅.
Proof.
  intros Hwf Hl Hb. apply map_empty. intros x.
  destruct (Pool (st w) !! x) as [blk|] eqn:Hx; [|done]. exfalso.
  destruct (wf_accounted w x Hwf) as (p & it & b & _ & _ & _ & [Hin|Hin]); [eauto| |].
  - rewrite Hl in Hin. by apply elem_of_nil in Hin.
  - rewrite Hb in Hin. by apply elem_of_nil in Hin.
Qed.

Lemma return_all_Some (bs : list Z) : ∀ w,
  wf w → borrowed w = bs →
  ∃ s', return_all bs (st w) = Some s' ∧
        MetaCache s' = MetaCache (st w) ∧
        wf (mkWorld s' [] (clock w)).
Proof.
  induction bs as [|q bs IH]; intros w Hwf Hbs; simpl.
  - exists (st w). split_and!; [done|done|]. rewrite <- Hbs. by destruct w.
  - assert (q ∈ borrowed w) as Hq by (rewrite Hbs; by left).
    destruct (MetaCacheDereferenceItemBuffer_Some w q Hwf Hq)
      as (b & it & Hb & Hit & _ & ->). simpl.
    pose proof (wf_returned w q b it
                  (Trace (returned b it (st w))) (clock w) Hwf Hq Hb Hit) as Hwf'.
    rewrite Hbs, unlink_head in Hwf'.
    destruct (IH _ Hwf' eq_refl) as (s' & Hs' & Hc & Hwf'').
    exists s'. split_and!; done.
Qed.

(** X13: in every reachable state each block of the pool is the record or
    the buffer of an item that is in the list or whose payload a caller
    holds: the cache leaks nothing.  When the list is empty and nothing is
    borrowed, the pool is empty; and giving back every borrowed pointer of
    a cache whose list is empty empties the pool. *)
Theorem X13_no_leak w :
  reachable w →
  (∀ x, is_Some (Pool (st w) !! x) → accounted w x) ∧
  (ItemList (MetaCache (st w)) = [] → borrowed w = [] → Pool (st w) = ∅) ∧
  (ItemList (MetaCache (st w)) = [] →
   ∃ s', return_all (borrowed w) (st w) = Some s' ∧ Pool s' = ∅).
Proof.
  intros Hr. pose proof (reachable_under_wf _ w Hr) as Hwf.
  split_and!.
  - intros x. by apply wf_accounted.
  - by apply wf_empty.
  - intros Hl. destruct (return_all_Some (borrowed w) w Hwf eq_refl)
      as (s' & Hs' & Hc & Hwf').
    exists s'. split; [done|]. apply (wf_empty _ Hwf'); simpl; [|done].
    by rewrite Hc.
Qed.

Lemma X13_no_leak_witness :
  borrowed drained_world = [1080] ∧
  (∀ x, is_Some (Pool (st drained_world) !! x) → accounted drained_world x) ∧
  (ItemList (MetaCache (st drained_world)) = [] → borrowed drained_world = [] →
   Pool (st drained_world) = ∅) ∧
  (ItemList (MetaCache (st drained_world)) = [] →
   ∃ s', return_all (borrowed drained_world) (st drained_world) = Some s' ∧
         Pool s' = ∅).
Proof.
  split; [vm_compute; reflexivity|].
  apply (X13_no_leak drained_world).
  exact (reachable_exec _ borrowed_world InvalidateAll drained_world RetVoid
           borrowed_world_reachable I I drained_world_exec).
Defined.

(** ** The buckets *)

(** X14: in every reachable state an item of the list is in the chain of
    the bucket [ItemIndex % ItemBucketCount] and in no other chain, every
    item of a chain is in the list, and no item is linked twice. *)
Theorem X14_bucket_placement w :
  reachable w →
  (∀ p it, p ∈ ItemList (MetaCache (st w)) → load_item (st w) p = Some it →
     ∃ chain,
       ItemBuckets (MetaCache (st w))
         !! Z.to_nat (ItemIndex it mod ItemBucketCount (MetaCache (st w)))
         = Some chain ∧
       p ∈ chain ∧
       ∀ (j : nat) chain',
         ItemBuckets (MetaCache (st w)) !! j = Some chain' → p ∈ chain' →
         j = Z.to_nat (ItemIndex it mod ItemBucketCount (MetaCache (st w)))) ∧
  (∀ (j : nat) chain p,
     ItemBuckets (MetaCache (st w)) !! j = Some chain → p ∈ chain →
     p ∈ ItemList (MetaCache (st w))) ∧
  NoDup (concat (ItemBuckets (MetaCache (st w)))).
Proof.
  intros Hr. pose proof (reachable_under_wf _ w Hr) as Hwf.
  split_and!.
  - intros p it Hp Hit.
    destruct (wf_resident_chain w p Hwf Hp) as (it0 & chain & Hit0 & Hchain & Hpc).
    rewrite Hit in Hit0. injection Hit0 as <-.
    exists chain. split_and!; [done|done|].
    intros j chain' Hj Hp'.
    destruct (wf_chain w Hwf j chain' p Hj Hp') as (it1 & Hit1 & Hidx).
    rewrite Hit in Hit1. injection Hit1 as <-. rewrite Hidx. lia.
  - intros j chain p Hj Hp. by eapply wf_chain_resident.
  - rewrite (wf_buckets w Hwf). apply (wf_nodup w Hwf).
Qed.

Lemma X14_bucket_placement_witness :
  ItemBuckets (MetaCache (st one_bucket_world)) = [[2000; 1000]] ∧
  NoDup (concat (ItemBuckets (MetaCache (st one_bucket_world)))).
Proof.
  split; [vm_compute; reflexivity|].
  refine (proj2 (proj2 (X14_bucket_placement one_bucket_world _))).
  exact (reachable_under_weaken _ _ one_bucket_world_no_index_wrap).
Defined.

(** ** Creation *)

(** X15: [MetaCacheCreate] fails with [STATUS_INSUFFICIENT_RESOURCES], the
    negative [NTSTATUS] -1073741670, and no cache when the page cannot be
    allocated.  Otherwise it succeeds with an empty cache of the given
    capacity and item size whose bucket array fills what the header leaves
    of the page: there is at least one bucket, the header and the buckets
    fit in [PAGE_SIZE], and one bucket more would not. *)
Theorem X15_create sizeof_MetaCache cap max tmo alloc :
  admissible_create sizeof_MetaCache cap max tmo →
  (alloc = 0 →
   MetaCacheCreate sizeof_MetaCache cap max tmo alloc = (-1073741670, None) ∧
   STATUS_INSUFFICIENT_RESOURCES = -1073741670) ∧
  (alloc ≠ 0 →
   ∃ c, MetaCacheCreate sizeof_MetaCache cap max tmo alloc = (0, Some c) ∧
        STATUS_SUCCESS = 0 ∧
        MetaCapacity c = cap ∧ ItemSizeMax c = max ∧
        ItemList c = [] ∧ ItemCount c = 0 ∧
        Forall (λ chain, chain = []) (ItemBuckets c) ∧
        Z.of_nat (length (ItemBuckets c)) = ItemBucketCount c ∧
        1 ≤ ItemBucketCount c ∧
        sizeof_MetaCache + 8 * ItemBucketCount c ≤ PAGE_SIZE ∧
        PAGE_SIZE < sizeof_MetaCache + 8 * (ItemBucketCount c + 1)).
Proof.
  intros (Hsz & Hcap & Hmax & Htmo). unfold MetaCacheCreate. split.
  - intros ->. by rewrite decide_True.
  - intros Hne. rewrite decide_False by done.
    eexists. split; [reflexivity|]. simpl.
    assert (to_ULONG (to_SIZE_T (PAGE_SIZE - sizeof_MetaCache) / 8) =
              (PAGE_SIZE - sizeof_MetaCache) / 8) as ->.
    { unfold to_ULONG, to_SIZE_T, PAGE_SIZE in *.
      rewrite (Z.mod_small (4096 - sizeof_MetaCache)) by lia.
      assert (1 ≤ (4096 - sizeof_MetaCache) / 8 ≤ 512).
      { split; [apply Z.div_le_lower_bound|apply Z.div_le_upper_bound]; lia. }
      rewrite Z.mod_small; lia. }
    pose proof (Z.div_mod (PAGE_SIZE - sizeof_MetaCache) 8 ltac:(lia)) as Hdm.
    pose proof (Z.mod_pos_bound (PAGE_SIZE - sizeof_MetaCache) 8 ltac:(lia)) as Hmb.
    assert (1 ≤ (PAGE_SIZE - sizeof_MetaCache) / 8)
      by (apply Z.div_le_lower_bound; unfold PAGE_SIZE in *; lia).
    split_and!; try done; try lia.
    + apply Forall_forall. by intros chain [-> _]%elem_of_replicate.
    + rewrite length_replicate. lia.
Qed.

Lemma X15_create_witness :
  (MetaCacheCreate 56 3 4096 100 0 = (-1073741670, None) ∧
   STATUS_INSUFFICIENT_RESOURCES = -1073741670) ∧
  ∃ c, MetaCacheCreate 56 3 4096 100 4096 = (0, Some c) ∧
       STATUS_SUCCESS = 0 ∧
       MetaCapacity c = 3 ∧ ItemSizeMax c = 4096 ∧
       ItemList c = [] ∧ ItemCount c = 0 ∧
       Forall (λ chain, chain = []) (ItemBuckets c) ∧
       Z.of_nat (length (ItemBuckets c)) = ItemBucketCount c ∧
       1 ≤ ItemBucketCount c ∧
       56 + 8 * ItemBucketCount c ≤ PAGE_SIZE ∧
       PAGE_SIZE < 56 + 8 * (ItemBucketCount c + 1).
Proof.
  assert (admissible_create 56 3 4096 100) as Hadm
    by (unfold admissible_create; in_range).
  split.
  - exact (proj1 (X15_create 56 3 4096 100 0 Hadm) eq_refl).
  - refine (proj2 (X15_create 56 3 4096 100 4096 Hadm) _). done.
Defined.

(** ** Deletion *)

(** X16: [MetaCacheDelete] always returns; it empties the list, leaves the
    lock free, and frees the header last.  A pointer that a caller still
    holds stays valid with its bytes, and once every such pointer is given
    back to [MetaCacheDereferenceItemBuffer] the pool is empty; when
    nothing is borrowed, it is empty right away. *)
Theorem X16_delete w MetaCache' :
  reachable w →
  ∃ s',
    MetaCacheDelete MetaCache' (st w) = Some s' ∧
    ItemList (MetaCache s') = [] ∧
    ItemCount (MetaCache s') = 0 ∧
    (∃ evs, Trace s' = Trace (st w) ++ evs ++ [EvFree MetaCache'] ∧
            disciplined false evs = true) ∧
    (∀ q, q ∈ borrowed w →
       is_Some (payload s' q) ∧ payload s' q = payload (st w) q) ∧
    (borrowed w = [] → Pool s' = ∅) ∧
    ∃ s'', return_all (borrowed w) s' = Some s'' ∧ Pool s'' = ∅.
Proof.
  intros Hr. pose proof (reachable_under_wf _ w Hr) as Hwf.
  destruct (MetaCacheInvalidateItems_Some (to_UINT64 (-1)) (clock w) w Hwf)
    as (s1 & Hs1 & Hwf1 & Hsw).
  pose proof (MetaCacheInvalidateItems_loop_prefix _ _ w s1 Hwf Hs1) as Hpre.
  assert (ItemList (MetaCache s1) = []) as Hnil.
  { pose proof (swept_head _ _ _ Hsw) as Hhead.
    destruct (ItemList (MetaCache s1)) as [|p l]; [done|].
    destruct Hhead as (it & Hit & Hlt).
    destruct (wf_item _ Hwf1 p it Hit) as (_ & _ & Hexp & _).
    rewrite to_UINT64_minus_1 in Hlt. unfold is_UINT64 in Hexp. lia. }
  set (s' := emit (EvFree MetaCache') s1).
  assert (wf (mkWorld s' (borrowed w) (clock w))) as Hwf'
    by by apply (wf_frame (mkWorld s1 (borrowed w) (clock w))).
  exists s'. split_and!.
  - unfold MetaCacheDelete, MetaCacheInvalidateAll. rewrite Hs1. done.
  - done.
  - destruct (wf_count _ Hwf1) as [Hc _]. simpl in Hc. by rewrite Hnil in Hc.
  - destruct (swept_trace _ _ _ Hpre) as (evs & Hevs & Hd).
    exists evs. split; [|done]. simpl. rewrite Hevs. by rewrite <- app_assoc.
  - intros q Hq.
    destruct (wf_borrowed_item w q Hwf Hq) as (b & it & Hb & Hit & Hbuf).
    destruct (wf_borrowed _ Hwf' q Hq) as [b' Hb']. simpl in Hb'.
    unfold payload. rewrite Hb, Hb'. simpl. split; [eauto|].
    rewrite <- Hbuf in Hb, Hb'.
    apply load_item_Some in Hit. apply load_buffer_Some in Hb, Hb'.
    destruct (swept_survives _ _ _ Hsw _ _ _ Hit Hb) as [[_ Hgone]|(_ & _ & Hsame)].
    + simpl in Hb'. congruence.
    + simpl in Hb'. congruence.
  - intros Hb. by apply (wf_empty _ Hwf').
  - destruct (return_all_Some (borrowed w) _ Hwf' eq_refl) as (s'' & Hs'' & Hc & Hwf'').
    exists s''. split; [done|]. apply (wf_empty _ Hwf''); simpl; [|done].
    by rewrite Hc.
Qed.

Lemma X16_delete_witness :
  borrowed borrowed_world = [1080] ∧
  ∃ s',
    MetaCacheDelete 4096 (st borrowed_world) = Some s' ∧
    ItemList (MetaCache s') = [] ∧
    ItemCount (MetaCache s') = 0 ∧
    (∃ evs, Trace s' = Trace (st borrowed_world) ++ evs ++ [EvFree 4096] ∧
            disciplined false evs = true) ∧
    (∀ q, q ∈ borrowed borrowed_world →
       is_Some (payload s' q) ∧ payload s' q = payload (st borrowed_world) q) ∧
    (borrowed borrowed_world = [] → Pool s' = ∅) ∧
    ∃ s'', return_all (borrowed borrowed_world) s' = Some s'' ∧ Pool s'' = ∅.
Proof.
  split; [vm_compute; reflexivity|].
  apply (X16_delete borrowed_world 4096). exact borrowed_world_reachable.
Defined.

(** ** Every call is defined *)

(** A block that a call adds to the pool is one of the two that an
    insertion that succeeds has allocated. *)
Lemma exec_allocates w c w' r x :
  wf w → admissible w c → exec c w = Some (w', r) →
  Pool (st w) !! x = None → is_Some (Pool (st w') !! x) →
  ∃ a, c = Add a ∧ ¬ rejected a (st w) ∧
       (x = add_alloc_Item a ∨ x = add_alloc_ItemBuffer a).
Proof.
  intros Hwf Hadm Hexec Hx [blk Hx'].
  assert (Hno : ∀ h', no_alloc (Pool (st w)) h' → h' !! x = Some blk → False).
  { intros h' Hn Hh. specialize (Hn x Hx). congruence. }
  destruct c as [a|i PSize|q|i|now|].
  - destruct r as [|h|]; try (simpl in Hexec;
      apply bind_Some in Hexec as ([] & _ & [=]); fail).
    destruct (exec_Add_cases w a w' h Hwf Hadm Hexec)
      as [(_ & _ & _ & Hp & _)|
          (_ & _ & Hrej & _ & _ & _ & _ & _ & chain & _ & ->)].
    + rewrite Hp in Hx'. congruence.
    + exists a. split_and!; [done|done|]. simpl in Hx'.
      destruct (decide (x = add_alloc_Item a)) as [|Hne]; [by left|].
      rewrite lookup_insert_ne in Hx' by done.
      destruct (decide (x = add_alloc_ItemBuffer a)) as [|Hne']; [by right|].
      rewrite lookup_insert_ne in Hx' by done. congruence.
  - exfalso. simpl in Hexec, Hadm. destruct Hadm as [Hi Hlen].
    destruct (MetaCacheReferenceItemBuffer_Some w i PSize Hwf Hi Hlen)
      as [[Hm _]|(p & it & b & Hin & Hit & Hidx & Hb & Hh)].
    + rewrite Hm in Hexec. simpl in Hexec. injection Hexec as <- <-.
      simpl in Hx'. congruence.
    + rewrite Hh in Hexec. simpl in Hexec. injection Hexec as <- <-.
      simpl in Hx'. apply load_item_Some in Hit.
      destruct (decide (x = p)) as [->|Hne]; [congruence|].
      rewrite lookup_insert_ne in Hx' by done. congruence.
  - exfalso. simpl in Hexec, Hadm.
    destruct (MetaCacheDereferenceItemBuffer_Some w q Hwf Hadm)
      as (b & it & Hb & Hit & Hbuf & Hr).
    rewrite Hr in Hexec. simpl in Hexec. injection Hexec as <- <-.
    apply (Hno _ (released_no_alloc (Item b) it (Pool (st w))
                    ltac:(apply load_item_Some in Hit; rewrite Hit; eauto))).
    exact Hx'.
  - exfalso. simpl in Hexec, Hadm.
    destruct (MetaCacheInvalidateItem_Some w i Hwf Hadm)
      as [[Hm _]|(p & it & chain & Hin & Hit & Hidx & Hchain & Hh)].
    + rewrite Hm in Hexec. simpl in Hexec. injection Hexec as <- <-.
      simpl in Hx'. congruence.
    + rewrite Hh in Hexec. simpl in Hexec. injection Hexec as <- <-.
      apply (Hno _ (released_no_alloc p it (Pool (st w))
                      ltac:(apply load_item_Some in Hit; rewrite Hit; eauto))).
      exact Hx'.
  - exfalso. simpl in Hexec. apply bind_Some in Hexec as (s' & Hs' & [= <- <-]).
    destruct (MetaCacheInvalidateItems_Some now now w Hwf) as (s'' & Hs'' & _ & Hsw).
    unfold MetaCacheInvalidateExpired in Hs'. rewrite Hs' in Hs''.
    injection Hs'' as <-. exact (Hno _ (swept_no_alloc _ _ _ Hsw) Hx').
  - exfalso. simpl in Hexec. apply bind_Some in Hexec as (s' & Hs' & [= <- <-]).
    destruct (MetaCacheInvalidateItems_Some (to_UINT64 (-1)) 0 w Hwf)
      as (s'' & Hs'' & _ & Hsw).
    unfold MetaCacheInvalidateAll in Hs'. rewrite Hs' in Hs''.
    injection Hs'' as <-. exact (Hno _ (swept_no_alloc _ _ _ Hsw) Hx').
Qed.

(** X17: in a reachable state every call that the environment may make
    runs to its end without undefined behaviour: no load or store through a
    null or freed pointer, no block freed twice, no division by a bucket
    count of zero, and the loop of [MetaCacheInvalidateItems] ends.  The
    state it leads to is reachable again, and the only blocks it may add to
    the pool are the two that an insertion that succeeds has allocated. *)
Theorem X17_calls_defined w c :
  reachable w → admissible w c →
  ∃ w' r,
    exec c w = Some (w', r) ∧
    reachable w' ∧
    ∀ x, Pool (st w) !! x = None → is_Some (Pool (st w') !! x) →
         ∃ a, c = Add a ∧ ¬ rejected a (st w) ∧
              (x = add_alloc_Item a ∨ x = add_alloc_ItemBuffer a).
Proof.
  intros Hr Hadm. pose proof (reachable_under_wf _ w Hr) as Hwf.
  destruct (exec_wf w c Hwf Hadm) as (w' & r & Hexec & _).
  exists w', r. split_and!; [done| |].
  - by apply (reachable_exec _ w c w' r).
  - intros x. by apply (exec_allocates w c w' r).
Qed.

Lemma X17_calls_defined_witness :
  ∃ w' r,
    exec (Add (example_add ["z"%byte] 3000 12)) two_items_world = Some (w', r) ∧
    reachable w' ∧
    ∀ x, Pool (st two_items_world) !! x = None → is_Some (Pool (st w') !! x) →
         ∃ a, Add (example_add ["z"%byte] 3000 12) = Add a ∧
              ¬ rejected a (st two_items_world) ∧
              (x = add_alloc_Item a ∨ x = add_alloc_ItemBuffer a).
Proof.
  apply (X17_calls_defined two_items_world (Add (example_add ["z"%byte] 3000 12))).
  - apply two_items_world_reachable. vm_compute. done.
  - apply admissibleb_admissible. vm_compute. reflexivity.
Defined.

(** ** The full drain of a cache that holds items *)

Lemma C8_invalidate_all_witness :
  ItemList (MetaCache (st three_items_world)) = [1000; 2000; 3000] ∧
  ItemCount (MetaCache (st three_items_world)) = 3 ∧
  borrowed three_items_world = [2080] ∧
  ∃ s', MetaCacheInvalidateAll (st three_items_world) = Some s' ∧
        ItemCount (MetaCache s') = 0 ∧
        ItemList (MetaCache s') = [] ∧
        Forall (λ chain, chain = []) (ItemBuckets (MetaCache s')) ∧
        Z.of_nat (length (ItemBuckets (MetaCache s'))) = ItemBucketCount (MetaCache s').
Proof.
  split_and!; [vm_compute; reflexivity..|].
  refine (proj2 (proj2 (C8_invalidate_all three_items_world _))).
  apply three_items_world_reachable. vm_compute. done.
Defined.
